(** * Buildbarn blob storage: integrity, sharding, ByteStream edge, leaves

    A shallow embedding of the blob-access adapters of bazel-buildbarn
    (pkg/blobstore) and the properties their specification states.

    Go strings are byte sequences: they are [string] here, one [ascii] per
    byte.  A [range] loop over a Go string yields UTF-8 decoded code points,
    which [decodeRune] and [rangeString] reproduce.  Signed 64-bit integers
    are [Z] with the wrap-around written out ([wrap64]); unsigned 64-bit
    integers are [Z] modulo [2^64]. *)

From Stdlib Require Import ZArith Lia Bool List Ascii String Permutation.
From stdpp Require Import base option list gmap strings.

Local Open Scope string_scope.
Local Open Scope list_scope.
Local Open Scope Z_scope.

(** ** Bytes, code points and machine integers *)

Module Bytes.

Definition byteZ (c : ascii) : Z := Z.of_nat (nat_of_ascii c).

Definition RuneError : Z := 65533.

(** int64(x): reduction into [-2^63, 2^63). *)
Definition wrap64 (x : Z) : Z := (x + 2 ^ 63) mod 2 ^ 64 - 2 ^ 63.

(** uint64(x): reduction into [0, 2^64). *)
Definition wrapU64 (x : Z) : Z := x mod 2 ^ 64.

Definition isCont (b : Z) : bool := (128 <=? b) && (b <=? 191).

(** Accepted range of the second byte of a multi-byte sequence, by leading
    byte (Go's utf8 acceptRanges). *)
Definition second_lo (b0 : Z) : Z :=
  if b0 =? 224 then 160 else if b0 =? 240 then 144 else 128.
Definition second_hi (b0 : Z) : Z :=
  if b0 =? 237 then 159 else if b0 =? 244 then 143 else 191.
Definition isSecond (b0 b1 : Z) : bool :=
  (second_lo b0 <=? b1) && (b1 <=? second_hi b0).

(** utf8.DecodeRuneInString on a non-empty string: the code point and the
    number of bytes it takes; an invalid or truncated sequence decodes to
    (RuneError, 1). *)
Definition decodeRune (s : string) : Z * nat :=
  match s with
  | EmptyString => (RuneError, 0%nat)
  | String c0 t =>
    let b0 := byteZ c0 in
    if b0 <? 128 then (b0, 1%nat)
    else if (194 <=? b0) && (b0 <=? 223) then
      match t with
      | String c1 _ =>
        let b1 := byteZ c1 in
        if isCont b1
        then (Z.lor (Z.shiftl (Z.land b0 31) 6) (Z.land b1 63), 2%nat)
        else (RuneError, 1%nat)
      | _ => (RuneError, 1%nat)
      end
    else if (224 <=? b0) && (b0 <=? 239) then
      match t with
      | String c1 (String c2 _) =>
        let b1 := byteZ c1 in
        let b2 := byteZ c2 in
        if isSecond b0 b1 && isCont b2
        then (Z.lor (Z.shiftl (Z.land b0 15) 12)
                (Z.lor (Z.shiftl (Z.land b1 63) 6) (Z.land b2 63)), 3%nat)
        else (RuneError, 1%nat)
      | _ => (RuneError, 1%nat)
      end
    else if (240 <=? b0) && (b0 <=? 244) then
      match t with
      | String c1 (String c2 (String c3 _)) =>
        let b1 := byteZ c1 in
        let b2 := byteZ c2 in
        let b3 := byteZ c3 in
        if isSecond b0 b1 && isCont b2 && isCont b3
        then (Z.lor (Z.shiftl (Z.land b0 7) 18)
                (Z.lor (Z.shiftl (Z.land b1 63) 12)
                   (Z.lor (Z.shiftl (Z.land b2 63) 6) (Z.land b3 63))), 4%nat)
        else (RuneError, 1%nat)
      | _ => (RuneError, 1%nat)
      end
    else (RuneError, 1%nat)
  end.

Fixpoint takeS (n : nat) (s : string) : string :=
  match n, s with
  | S n', String c t => String c (takeS n' t)
  | _, _ => EmptyString
  end.

Fixpoint dropS (n : nat) (s : string) : string :=
  match n, s with
  | S n', String _ t => dropS n' t
  | _, _ => s
  end.

(** [for _, c := range s]: the code points of [s] in order, each with the
    bytes it was decoded from. *)
Fixpoint rangeFrom (fuel : nat) (s : string) : list (Z * string) :=
  match fuel, s with
  | S f, String _ _ =>
    let '(r, n) := decodeRune s in
    (r, takeS n s) :: rangeFrom f (dropS n s)
  | _, _ => []
  end.

Definition rangeString (s : string) : list (Z * string) :=
  rangeFrom (String.length s) s.

Definition runes (s : string) : list Z := map fst (rangeString s).

Fixpoint allBytes (P : Z -> bool) (s : string) : bool :=
  match s with
  | EmptyString => true
  | String c t => P (byteZ c) && allBytes P t
  end.

Definition isHigh (b : Z) : bool := 128 <=? b.

End Bytes.
Export Bytes.

(** ** Errors and status codes *)

Module Status.

(** Canonical gRPC codes used by the code. *)
Inductive Code :=
| Canceled | Unknown | InvalidArgument | DeadlineExceeded | NotFound
| FailedPrecondition | Unimplemented | Internal | Unavailable.

(** Arguments of a format string; the text is [Sprintf format args]. *)
Inductive Arg :=
| ArgInt (z : Z)
| ArgStr (s : string)
| ArgRune (r : Z).

(** A Go [error] value. *)
Inductive error :=
| EOF
| StatusError (c : Code) (format : string) (args : list Arg)
| FmtError (format : string) (args : list Arg)
| OtherError (msg : string).

#[export] Instance Code_eq_dec : EqDecision Code.
Proof. solve_decision. Defined.

#[export] Instance Arg_eq_dec : EqDecision Arg.
Proof. solve_decision. Defined.

#[export] Instance error_eq_dec : EqDecision error.
Proof. solve_decision. Defined.

(** status.Code(err) for a non-nil error. *)
Definition codeOf (e : error) : Code :=
  match e with
  | StatusError c _ _ => c
  | _ => Unknown
  end.

End Status.
Export Status.

(** ** Go library functions used by the parsers *)

Module GoLib.

(** strings.FieldsFunc(s, f): the maximal runs of code points not
    satisfying [f]; [cur] is the field being scanned, if any. *)
Fixpoint fieldsLoop (f : Z -> bool) (rs : list (Z * string))
    (cur : option string) : list string :=
  match rs with
  | [] => match cur with Some c => [c] | None => [] end
  | (r, bs) :: rs' =>
    if f r then
      match cur with
      | Some c => c :: fieldsLoop f rs' None
      | None => fieldsLoop f rs' None
      end
    else
      fieldsLoop f rs'
        (Some (match cur with Some c => c +:+ bs | None => bs end))
  end.

Definition FieldsFunc (s : string) (f : Z -> bool) : list string :=
  fieldsLoop f (rangeString s) None.

Inductive NumError := ErrSyntax | ErrRange.

Definition isDigit (b : Z) : bool := (48 <=? b) && (b <=? 57).

(** strconv.ParseUint(s, 10, 64) on a non-empty string, digit by digit. *)
Fixpoint parseUintLoop (s : string) (n : Z) : Z + NumError :=
  match s with
  | EmptyString => inl n
  | String c t =>
    let d := byteZ c in
    if isDigit d then
      let n1 := n * 10 + (d - 48) in
      if 2 ^ 64 <=? n1 then inr ErrRange else parseUintLoop t n1
    else inr ErrSyntax
  end.

Definition ParseUint (s : string) : Z + NumError :=
  match s with
  | EmptyString => inr ErrSyntax
  | _ => parseUintLoop s 0
  end.

(** strconv.ParseInt(s, 10, 64). *)
Definition ParseInt (s : string) : Z + NumError :=
  match s with
  | EmptyString => inr ErrSyntax
  | String c t =>
    let neg := byteZ c =? 45 in
    let s1 := if (byteZ c =? 43) || neg then t else s in
    match ParseUint s1 with
    | inr e => inr e
    | inl un =>
      let cutoff := 2 ^ 63 in
      if negb neg && (cutoff <=? un) then inr ErrRange
      else if neg && (cutoff <? un) then inr ErrRange
      else inl (wrap64 (if neg then - un else un))
    end
  end.

End GoLib.
Export GoLib.

(** ** Resource-name codec of the ByteStream service *)

Record Digest := mkDigest { Hash : string; SizeBytes : Z }.

Definition isSlash (r : Z) : bool := r =? 47.

(** fields[i] for an index known to be in range. *)
Definition field (fields : list string) (i : nat) : string :=
  nth i fields EmptyString.

Definition parseResourceNameRead (resourceName : string)
    : string * option Digest :=
  let fields := FieldsFunc resourceName isSlash in
  let l := length fields in
  if (negb (l =? 3)%nat && negb (l =? 4)%nat)
     || negb (String.eqb (field fields (l - 3)) "blobs")
  then (EmptyString, None)
  else
    match ParseInt (field fields (l - 1)) with
    | inr _ => (EmptyString, None)
    | inl size =>
      let instance := if (l =? 4)%nat then field fields 0 else EmptyString in
      (instance, Some {| Hash := field fields (l - 2); SizeBytes := size |})
    end.

Definition parseResourceNameWrite (resourceName : string)
    : string * option Digest :=
  let fields := FieldsFunc resourceName isSlash in
  let l := length fields in
  if (negb (l =? 5)%nat && negb (l =? 6)%nat)
     || negb (String.eqb (field fields (l - 5)) "uploads")
     || negb (String.eqb (field fields (l - 3)) "blobs")
  then (EmptyString, None)
  else
    match ParseInt (field fields (l - 1)) with
    | inr _ => (EmptyString, None)
    | inl size =>
      let instance := if (l =? 6)%nat then field fields 0 else EmptyString in
      (instance, Some {| Hash := field fields (l - 2); SizeBytes := size |})
    end.

(** *** The documented forms of a resource name

    [segments] are the non-empty pieces between slashes; a size is a
    decimal integer, with an optional sign. *)

Fixpoint splitOn (sep : Z) (s : string) (cur : string) : list string :=
  match s with
  | EmptyString => [cur]
  | String c t =>
    if byteZ c =? sep then cur :: splitOn sep t EmptyString
    else splitOn sep t (cur +:+ String c EmptyString)
  end.

Definition segments (s : string) : list string :=
  filter (fun x => x <> EmptyString) (splitOn 47 s EmptyString).

Fixpoint decimalValue (ds : string) : Z :=
  match ds with
  | EmptyString => 0
  | String c t =>
    (byteZ c - 48) * 10 ^ Z.of_nat (String.length t) + decimalValue t
  end.

Definition isDigits (ds : string) : Prop :=
  ds <> EmptyString /\ allBytes isDigit ds = true.

Inductive decimalInteger : string -> Z -> Prop :=
| dec_unsigned ds : isDigits ds -> decimalInteger ds (decimalValue ds)
| dec_plus ds :
    isDigits ds -> decimalInteger (String "+"%char ds) (decimalValue ds)
| dec_minus ds :
    isDigits ds -> decimalInteger (String "-"%char ds) (- decimalValue ds).

Definition int64Range (z : Z) : Prop := - 2 ^ 63 <= z < 2 ^ 63.

(** [{instance}/]blobs/{hash}/{size} *)
Definition readSegments (name instance hash size : string) : Prop :=
  (instance = EmptyString /\ segments name = ["blobs"; hash; size]) \/
  segments name = [instance; "blobs"; hash; size].

(** [{instance}/]uploads/{uuid}/blobs/{hash}/{size} *)
Definition writeSegments (name instance hash size : string) : Prop :=
  exists uuid,
    (instance = EmptyString /\
     segments name = ["uploads"; uuid; "blobs"; hash; size]) \/
    segments name = [instance; "uploads"; uuid; "blobs"; hash; size].

(** The forms as documented: the size is any decimal integer. *)
Definition readFormDocumented (name : string) : Prop :=
  exists instance hash size z,
    readSegments name instance hash size /\ decimalInteger size z.

Definition writeFormDocumented (name : string) : Prop :=
  exists instance hash size z,
    writeSegments name instance hash size /\ decimalInteger size z.

(** The forms with the size held by a signed 64-bit integer. *)
Definition readForm (name instance : string) (digest : Digest) : Prop :=
  exists size,
    readSegments name instance (Hash digest) size /\
    decimalInteger size (SizeBytes digest) /\ int64Range (SizeBytes digest).

Definition writeForm (name instance : string) (digest : Digest) : Prop :=
  exists size,
    writeSegments name instance (Hash digest) size /\
    decimalInteger size (SizeBytes digest) /\ int64Range (SizeBytes digest).

(** ** Readers, and programs that consume a reader *)

Module Effects.

(** A []byte. *)
Abbreviation bytes := (list ascii).

(** What one call r.Read(p) hands back: the bytes p[:n] and the error. *)
Definition ReadResult : Type := bytes * option error.

(** err == io.EOF, and x != nil. *)
Definition isEOF (err : option error) : bool :=
  match err with Some EOF => true | _ => false end.

Definition isSome {A} (o : option A) : bool :=
  match o with Some _ => true | None => false end.

(** io.ReadCloser over a world [W]: Read(p) is given len(p). *)
Class ReadCloser (W R : Type) := {
  Read : R -> nat -> W -> ReadResult * R * W;
  Close : R -> W -> option error * R * W
}.

(** A terminating computation that pulls from the reader it was handed and
    acts on the world; the shape of a BlobAccess.Put body. *)
Inductive Prog (W A : Type) : Type :=
| Ret (a : A)
| ReadOp (len : nat) (k : ReadResult -> Prog W A)
| CloseOp (k : option error -> Prog W A)
| GetW (k : W -> Prog W A)
| SetW (w : W) (k : Prog W A)
| Fatal (msg : string).

Arguments Ret {W A} a.
Arguments ReadOp {W A} len k.
Arguments CloseOp {W A} k.
Arguments GetW {W A} k.
Arguments SetW {W A} w k.
Arguments Fatal {W A} msg.

Fixpoint bind {W A B} (p : Prog W A) (f : A -> Prog W B) : Prog W B :=
  match p with
  | Ret a => f a
  | ReadOp len k => ReadOp len (fun res => bind (k res) f)
  | CloseOp k => CloseOp (fun e => bind (k e) f)
  | GetW k => GetW (fun w => bind (k w) f)
  | SetW w k => SetW w (bind k f)
  | Fatal msg => Fatal msg
  end.

(** How a program ended: it returned, or the process exited (log.Fatal). *)
Inductive Outcome (A R W : Type) : Type :=
| Returned (a : A) (r : R) (w : W)
| Exited (msg : string).

Arguments Returned {A R W} a r w.
Arguments Exited {A R W} msg.

Fixpoint exec {W R A} `{ReadCloser W R} (p : Prog W A) (r : R) (w : W)
    : Outcome A R W :=
  match p with
  | Ret a => Returned a r w
  | ReadOp len k => let '(res, r', w') := Read r len w in exec (k res) r' w'
  | CloseOp k => let '(e, r', w') := Close r w in exec (k e) r' w'
  | GetW k => exec (k w) r w
  | SetW w' k => exec k r w'
  | Fatal msg => Exited msg
  end.

(** A reader that replays a fixed sequence of results and then reports
    io.EOF; [closed] counts the calls of Close. *)
Record scriptReader := { script : list ReadResult; closed : nat }.

#[export] Instance scriptReader_ReadCloser W : ReadCloser W scriptReader := {
  Read r _ w :=
    match script r with
    | [] => (([], Some EOF), r, w)
    | res :: rest => (res, {| script := rest; closed := closed r |}, w)
    end;
  Close r w := (None, {| script := script r; closed := S (closed r) |}, w)
}.

End Effects.
Export Effects.

(** if err == io.EOF { err = nil } *)
Definition nilIfEOF (e : error) : option error :=
  if isEOF (Some e) then None else Some e.

(** ioutil.ReadAll(r): read until an error; io.EOF is reported as success.
    [bufs i] is the free space of the growing buffer at the i-th call of
    Read; [None] when [fuel] calls did not reach an error. *)
Fixpoint readAllFrom {W} (fuel : nat) (bufs : nat -> nat) (i : nat)
    (acc : bytes) : Prog W (option (bytes * option error)) :=
  match fuel with
  | O => Ret None
  | S f =>
    ReadOp (bufs i) (fun res =>
      let '(chunk, err) := res in
      match err with
      | None => readAllFrom f bufs (S i) (acc ++ chunk)
      | Some e => Ret (Some (acc ++ chunk, nilIfEOF e))
      end)
  end.

Definition ReadAll {W} (fuel : nat) (bufs : nat -> nat)
    : Prog W (option (bytes * option error)) :=
  readAllFrom fuel bufs 0 [].

(** ** Redis store (redisBlobAccess) *)

Module Redis.

Inductive Cmd :=
| CmdSet (key : string) (value : bytes)
| CmdExists (key : string).

(** The context of the call and the Redis server behind the client:
    [ctxErr] is ctx.Err(), [down] the failure every command meets while the
    server is unreachable, [sent] the commands issued so far. *)
Record World := mkWorld {
  ctxErr : option error;
  kv : gmap string bytes;
  down : option error;
  sent : list Cmd
}.

Section RedisBlobAccess.

(** util.DigestKeyer, of package util. *)
Variable blobKeyer : string -> Digest -> string + error.

(** The read and write budget of ioutil.ReadAll. *)
Variable fuel : nat.
Variable bufs : nat -> nat.

Definition issue (c : Cmd) (w : World) : World :=
  {| ctxErr := ctxErr w; kv := kv w; down := down w; sent := sent w ++ [c] |}.

(** redisClient.Set(key, value, 0).Err() *)
Definition clientSet (key : string) (value : bytes) (w : World)
    : option error * World :=
  let w1 := issue (CmdSet key value) w in
  match down w with
  | Some e => (Some e, w1)
  | None =>
    (None, {| ctxErr := ctxErr w1; kv := <[key := value]> (kv w1);
              down := down w1; sent := sent w1 |})
  end.

(** pipeline.Exists(key) for every key, then pipeline.Exec(): the error of
    the pipeline, and cmd.Val() of each command. *)
Definition pipelineExists (keys : list string) (w : World)
    : option error * list Z * World :=
  let w1 := {| ctxErr := ctxErr w; kv := kv w; down := down w;
               sent := sent w ++ map CmdExists keys |} in
  match down w with
  | Some e => (Some e, map (fun _ => 0) keys, w1)
  | None =>
    (None,
     map (fun k => match kv w !! k with Some _ => 1 | None => 0 end) keys,
     w1)
  end.

Definition Put (instance : string) (digest : Digest)
    : Prog World (option error) :=
  GetW (fun w =>
    match ctxErr w with
    | Some err => Ret (Some err)
    | None =>
      bind (ReadAll fuel bufs) (fun res =>
      CloseOp (fun _ =>
        match res with
        | None => Fatal "ReadAll did not finish"
        | Some (_, Some err) => Ret (Some err)
        | Some (value, None) =>
          match blobKeyer instance digest with
          | inr err => Ret (Some err)
          | inl key =>
            GetW (fun w1 =>
              let '(e, w2) := clientSet key value w1 in
              SetW w2 (Ret e))
          end
        end))
    end).

(** The loop that builds the pipeline: the keys, or the first keyer error. *)
Fixpoint existsKeys (instance : string) (digests : list Digest)
    : list string + error :=
  match digests with
  | [] => inl []
  | digest :: rest =>
    match blobKeyer instance digest with
    | inr err => inr err
    | inl key =>
      match existsKeys instance rest with
      | inr err => inr err
      | inl keys => inl (key :: keys)
      end
    end
  end.

(** The final loop: digests[i] for every command whose value is 0. *)
Fixpoint collectMissing (vals : list Z) (digests : list Digest)
    : list Digest :=
  match vals, digests with
  | v :: vals', d :: digests' =>
    if v =? 0 then d :: collectMissing vals' digests'
    else collectMissing vals' digests'
  | _, _ => []
  end.

Definition FindMissing (instance : string) (digests : list Digest)
    (w : World) : list Digest * option error * World :=
  match ctxErr w with
  | Some err => ([], Some err, w)
  | None =>
    if (length digests =? 0)%nat then ([], None, w)
    else
      match existsKeys instance digests with
      | inr err => ([], Some err, w)
      | inl keys =>
        let '(err, vals, w1) := pipelineExists keys w in
        match err with
        | Some e => ([], Some e, w1)
        | None => (collectMissing vals digests, None, w1)
        end
      end
  end.

End RedisBlobAccess.

End Redis.

(** ** ByteStream service (byteStreamServer) *)

Module ByteStream.

Record ReadRequest := mkReadRequest {
  rdResourceName : string;
  ReadOffset : Z;
  ReadLimit : Z
}.

Record WriteRequest := mkWriteRequest {
  ResourceName : string;
  WriteOffset : Z;
  FinishWrite : bool;
  Data : bytes
}.

(** bytestream.ByteStream_WriteServer: the requests the client still has to
    send, and the error Recv reports once they are used up. *)
Record WriteServer := mkWriteServer {
  incoming : list WriteRequest;
  recvError : error
}.

Definition Recv (s : WriteServer) : (WriteRequest + error) * WriteServer :=
  match incoming s with
  | [] => (inr (recvError s), s)
  | request :: rest =>
    (inl request, {| incoming := rest; recvError := recvError s |})
  end.

Record byteStreamWriteServerReader := mkReader {
  stream : WriteServer;
  writeOffset : Z;
  data : bytes
}.

Definition offsetError (got expected : Z) : error :=
  FmtError "Attempted to write at offset %d, while %d was expected"
    [ArgInt got; ArgInt expected].

(** The loop of byteStreamWriteServerReader.Read: [p] is the space left in
    the buffer and [n] the bytes copied so far. *)
Fixpoint readLoop (reqs : list WriteRequest) (e : error) (writeOffset : Z)
    (data : bytes) (p : nat) (n : bytes)
    : ReadResult * byteStreamWriteServerReader :=
  let c := Nat.min p (length data) in
  let p := (p - c)%nat in
  let n := n ++ take c data in
  let data := drop c data in
  if (p =? 0)%nat then
    ((n, None), mkReader (mkWriteServer reqs e) writeOffset data)
  else
    match reqs with
    | [] => ((n, Some e), mkReader (mkWriteServer [] e) writeOffset data)
    | request :: reqs' =>
      if negb (WriteOffset request =? writeOffset) then
        ((n, Some (offsetError (WriteOffset request) writeOffset)),
         mkReader (mkWriteServer reqs' e) writeOffset data)
      else
        readLoop reqs' e
          (wrap64 (writeOffset + Z.of_nat (length (Data request))))
          (Data request) p n
    end.

Definition byteStreamWriteServerReader_Read
    (r : byteStreamWriteServerReader) (p : nat)
    : ReadResult * byteStreamWriteServerReader :=
  readLoop (incoming (stream r)) (recvError (stream r)) (writeOffset r)
    (data r) p [].

#[export] Instance byteStreamWriteServerReader_ReadCloser W
    : ReadCloser W byteStreamWriteServerReader := {
  Read r p w := (byteStreamWriteServerReader_Read r p, w);
  Close r w := (None, r, w)
}.

(** What the service reads of a stream: the resource name and data of the
    first request, the offset and data of every later one, and the error
    that ends it. *)
Definition laterView (reqs : list WriteRequest) : list (Z * bytes) :=
  map (fun q => (WriteOffset q, Data q)) reqs.

Definition streamView (s : WriteServer)
    : option (string * bytes) * list (Z * bytes) * error :=
  match incoming s with
  | [] => (None, [], recvError s)
  | first :: rest =>
    (Some (ResourceName first, Data first), laterView rest, recvError s)
  end.

Definition readerView (r : byteStreamWriteServerReader)
    : list (Z * bytes) * error * Z * bytes :=
  (laterView (incoming (stream r)), recvError (stream r), writeOffset r,
   data r).

Definition outcomeView {A W} (o : Outcome A WriteServer W)
    : Outcome A (list (Z * bytes) * error) W :=
  match o with
  | Returned a s w => Returned a (laterView (incoming s), recvError s) w
  | Exited msg => Exited msg
  end.

(** Every request carries the number of data bytes that came before it. *)
Fixpoint offsetsAgree (total : Z) (reqs : list WriteRequest) : Prop :=
  match reqs with
  | [] => True
  | q :: rest =>
    WriteOffset q = total /\
    offsetsAgree (total + Z.of_nat (length (Data q))) rest
  end.

Definition dataOf (reqs : list WriteRequest) : bytes :=
  concat (map Data reqs).

(** Where reading stops after requests that agree: at the end of the stream
    or at a request whose offset differs from the running total. *)
Definition stopsAt (total : Z) (rest : list WriteRequest) : Prop :=
  match rest with
  | [] => True
  | bad :: _ => WriteOffset bad <> total
  end.

Definition stopError (e : error) (total : Z) (rest : list WriteRequest)
    : error :=
  match rest with
  | [] => e
  | bad :: _ => offsetError (WriteOffset bad) total
  end.

Section Server.

Context {W RC : Type} `{ReadCloser W RC}.

(** The BlobAccess behind the service. *)
Variable blobAccess_Get : string -> Digest -> W -> RC * W.
Variable blobAccess_Put : string -> Digest -> Z -> Prog W (option error).

(** out.Send of the download stream. *)
Variable Send : bytes -> W -> option error * W.

Variable readChunkSize : nat.

(** The loop of byteStreamServer.Read; [None] when [fuel] rounds did not
    reach the end of the blob. *)
Fixpoint readChunks (fuel : nat) (r : RC) (w : W)
    : option (option error * RC * W) :=
  match fuel with
  | O => None
  | S f =>
    let '((readBuf, err), r1, w1) := Read r readChunkSize w in
    if isSome err && negb (isEOF err) then Some (err, r1, w1)
    else
      let '(serr, w2) :=
        if (0 <? length readBuf)%nat then Send readBuf w1 else (None, w1) in
      match serr with
      | Some e => Some (Some e, r1, w2)
      | None => if isEOF err then Some (None, r1, w2) else readChunks f r1 w2
      end
  end.

Definition byteStreamServer_Read (fuel : nat) (req : ReadRequest) (w : W)
    : option (option error * W) :=
  if negb (ReadOffset req =? 0) || negb (ReadLimit req =? 0) then
    Some (Some (StatusError Unimplemented
                  "This service does not support downloading partial files"
                  []), w)
  else
    let '(instance, digest) := parseResourceNameRead (rdResourceName req) in
    match digest with
    | None =>
      Some (Some (StatusError InvalidArgument
                    "Invalid resource naming scheme" []), w)
    | Some d =>
      let '(r, w1) := blobAccess_Get instance d w in
      match readChunks fuel r w1 with
      | None => None
      | Some (err, r1, w2) =>
        let '(_, _, w3) := Close r1 w2 in Some (err, w3)
      end
    end.

Definition byteStreamServer_Write (s : WriteServer) (w : W)
    : Outcome (option error) WriteServer W :=
  match Recv s with
  | (inr err, s1) => Returned (Some err) s1 w
  | (inl request, s1) =>
    let '(instance, digest) := parseResourceNameWrite (ResourceName request) in
    match digest with
    | None =>
      Returned (Some (StatusError InvalidArgument
                        "Invalid resource naming scheme" [])) s1 w
    | Some d =>
      match exec (blobAccess_Put instance d (SizeBytes d))
              {| stream := s1;
                 writeOffset := Z.of_nat (length (Data request));
                 data := Data request |} w with
      | Returned err r w1 => Returned err (stream r) w1
      | Exited msg => Exited msg
      end
    end
  end.

End Server.

End ByteStream.

(** ** Integrity adapter (pkg/blobstore/merkle_blob_access.go) *)

Module Merkle.

(** hash.Hash: the function of its family and the bytes written so far. *)
Record HashState := mkHash { family : bytes -> bytes; written : bytes }.

Definition hashWrite (h : HashState) (p : bytes) : HashState :=
  {| family := family h; written := written h ++ p |}.

Definition hashSum (h : HashState) : bytes := family h (written h).

(** util.DigestFormat: func() hash.Hash. *)
Definition DigestFormat : Type := bytes -> bytes.

Definition newHash (digestFormat : DigestFormat) : HashState :=
  {| family := digestFormat; written := [] |}.

(** encoding/hex: fromHexChar, DecodeString (the bytes decoded before the
    first error, which the callers ignore) and EncodeToString. *)
Definition fromHexChar (c : Z) : option Z :=
  if (48 <=? c) && (c <=? 57) then Some (c - 48)
  else if (97 <=? c) && (c <=? 102) then Some (c - 97 + 10)
  else if (65 <=? c) && (c <=? 70) then Some (c - 65 + 10)
  else None.

Definition byteOfZ (z : Z) : ascii := ascii_of_nat (Z.to_nat z).

Fixpoint hexDecodeString (s : string) : bytes :=
  match s with
  | String c0 (String c1 t) =>
    match fromHexChar (byteZ c0), fromHexChar (byteZ c1) with
    | Some a, Some b =>
      byteOfZ (Z.lor (Z.shiftl a 4) b) :: hexDecodeString t
    | _, _ => []
    end
  | _ => []
  end.

Definition hexDigit (z : Z) : ascii :=
  if z <? 10 then byteOfZ (48 + z) else byteOfZ (97 + z - 10).

Fixpoint hexEncodeToString (b : bytes) : string :=
  match b with
  | [] => EmptyString
  | c :: t =>
    String (hexDigit (Z.shiftr (byteZ c) 4))
      (String (hexDigit (Z.land (byteZ c) 15)) (hexEncodeToString t))
  end.

(** The test of the loop in validateDigest. *)
Definition nonHex (c : Z) : bool :=
  ((c <? 48) || (57 <? c)) && ((c <? 97) || (102 <? c)).

Fixpoint firstNonHex (cs : list Z) : option Z :=
  match cs with
  | [] => None
  | c :: rest => if nonHex c then Some c else firstNonHex rest
  end.

Record LogLine := mkLog {
  logFormat : string;
  logDigest : Digest;
  logError : option error
}.

(** The wrapped store's state and the process log. *)
Record World (S : Type) := mkWorld { store : S; logged : list LogLine }.
Arguments mkWorld {S} store logged.
Arguments store {S} _.
Arguments logged {S} _.

Definition logPrintf {S} (l : LogLine) (w : World S) : World S :=
  {| store := store w; logged := logged w ++ [l] |}.

Record checksumValidatingReader (W : Type) := mkCVR {
  expectedChecksum : bytes;
  partialChecksum : HashState;
  sizeLeft : Z;
  invalidator : W -> W;
  errorCode : Code
}.
Arguments mkCVR {W} expectedChecksum partialChecksum sizeLeft
  invalidator errorCode.
Arguments expectedChecksum {W} _.
Arguments partialChecksum {W} _.
Arguments sizeLeft {W} _.
Arguments invalidator {W} _.
Arguments errorCode {W} _.

(** checksumValidatingReader.Read, given what the embedded ReadCloser
    returned to the io.TeeReader: [fst under] is p[:n]. *)
Definition checksumValidatingReader_Read {W}
    (r : checksumValidatingReader W) (under : ReadResult) (w : W)
    : ReadResult * checksumValidatingReader W * W :=
  let '(p, err) := under in
  let r := mkCVR (expectedChecksum r) (hashWrite (partialChecksum r) p)
             (sizeLeft r) (invalidator r) (errorCode r) in
  let nLen := Z.of_nat (length p) in
  if sizeLeft r <? nLen then
    (([], Some (StatusError (errorCode r) "Blob is longer than expected" [])),
     r, invalidator r w)
  else
    let r := mkCVR (expectedChecksum r) (partialChecksum r)
               (wrap64 (sizeLeft r - nLen)) (invalidator r) (errorCode r) in
    match err with
    | Some EOF =>
      if negb (sizeLeft r =? 0) then
        (([], Some (StatusError (errorCode r)
                      "Blob is %d bytes shorter than expected"
                      [ArgInt (sizeLeft r)])),
         r, invalidator r w)
      else
        let actualChecksum := hashSum (partialChecksum r) in
        if bool_decide (actualChecksum = expectedChecksum r) then
          ((p, err), r, w)
        else
          (([], Some (StatusError (errorCode r)
                        "Checksum of blob is %s, while %s was expected"
                        [ArgStr (hexEncodeToString actualChecksum);
                         ArgStr (hexEncodeToString (expectedChecksum r))])),
           r, invalidator r w)
    | _ => ((p, err), r, w)
    end.

(** The reader after a sequence of calls of Read, and what they returned. *)
Fixpoint feed {W} (r : checksumValidatingReader W) (us : list ReadResult)
    (w : W) : list ReadResult * checksumValidatingReader W * W :=
  match us with
  | [] => ([], r, w)
  | u :: rest =>
    let '(res, r1, w1) := checksumValidatingReader_Read r u w in
    let '(ress, r2, w2) := feed r1 rest w1 in
    (res :: ress, r2, w2)
  end.

(** A wrapped Put body reading through the validating reader. *)
Fixpoint through {W A} (r : checksumValidatingReader W) (p : Prog W A)
    : Prog W A :=
  match p with
  | Ret a => Ret a
  | ReadOp len k =>
    ReadOp len (fun under =>
      GetW (fun w =>
        let '(res, r1, w1) := checksumValidatingReader_Read r under w in
        SetW w1 (through r1 (k res))))
  | CloseOp k => CloseOp (fun e => through r (k e))
  | GetW k => GetW (fun w => through r (k w))
  | SetW w k => SetW w (through r k)
  | Fatal msg => Fatal msg
  end.

(** What the underlying reader hands over for a blob: its chunks, then the
    last bytes together with io.EOF. *)
Definition streamOf (chunks : list bytes) (last : bytes) : list ReadResult :=
  map (fun c => (c, None)) chunks ++ [(last, Some EOF)].

Definition delivered (us : list ReadResult) : bytes := concat (map fst us).

(** The result of the embedded reader shows the blob to be longer or
    shorter than the digest says, or to hash to another checksum. *)
Definition corrupt {W} (r : checksumValidatingReader W) (under : ReadResult)
    : Prop :=
  sizeLeft r < Z.of_nat (length (fst under)) \/
  (snd under = Some EOF /\
   (sizeLeft r - Z.of_nat (length (fst under)) <> 0 \/
    family (partialChecksum r) (written (partialChecksum r) ++ fst under)
    <> expectedChecksum r)).

(** The reader after a read that took [p] from the embedded reader and
    handed it on, and after one that found [p] too long. *)
Definition advanced {W} (r : checksumValidatingReader W) (p : bytes)
    : checksumValidatingReader W :=
  mkCVR (expectedChecksum r) (hashWrite (partialChecksum r) p)
    (sizeLeft r - Z.of_nat (length p)) (invalidator r) (errorCode r).

Definition tooLong {W} (r : checksumValidatingReader W) (p : bytes)
    : checksumValidatingReader W :=
  mkCVR (expectedChecksum r) (hashWrite (partialChecksum r) p)
    (sizeLeft r) (invalidator r) (errorCode r).

(** The hash accepts exactly lowercase hexadecimal digits. *)
Definition isLowerHex (b : Z) : bool :=
  ((48 <=? b) && (b <=? 57)) || ((97 <=? b) && (b <=? 102)).

Section MerkleBlobAccess.

Context {S RC : Type} `{ReadCloser (World S) RC}.

(** util.DigestFormatFromLength, of package util: the lengths it accepts
    are the recognized ones. *)
Variable DigestFormatFromLength : nat -> DigestFormat + error.

(** The wrapped BlobAccess. *)
Variable ba_Get : string -> Digest -> World S -> RC * World S.
Variable ba_Put : string -> Digest -> Z -> Prog (World S) (option error).
Variable ba_Delete : string -> Digest -> World S -> option error * World S.
Variable ba_FindMissing :
  string -> list Digest -> World S -> list Digest * option error * World S.

Definition validateDigest (digest : Digest) : DigestFormat + error :=
  match DigestFormatFromLength (String.length (Hash digest)) with
  | inr err => inr err
  | inl digestFormat =>
    match firstNonHex (runes (Hash digest)) with
    | Some c =>
      inr (StatusError InvalidArgument
             "Non-hexadecimal character in digest hash: %#U" [ArgRune c])
    | None =>
      if SizeBytes digest <? 0 then
        inr (StatusError InvalidArgument "Invalid digest size: %d bytes"
               [ArgInt (SizeBytes digest)])
      else inl digestFormat
    end
  end.

(** What Get returns: util.NewErrorReader(err), whose Read reports err, or
    a checksumValidatingReader around the wrapped store's reader. *)
Inductive merkleReader :=
| errorReader (err : error)
| validating (rc : RC) (r : checksumValidatingReader (World S)).

(** The invalidator closure of Get. *)
Definition deleteCorrupted (instance : string) (digest : Digest)
    (w : World S) : World S :=
  match ba_Delete instance digest w with
  | (None, w1) =>
    logPrintf (mkLog "Successfully deleted corrupted blob %s" digest None) w1
  | (Some err, w1) =>
    logPrintf
      (mkLog "Failed to delete corrupted blob %s: %s" digest (Some err)) w1
  end.

Definition getReader (instance : string) (digest : Digest)
    (digestFormat : DigestFormat) : checksumValidatingReader (World S) :=
  {| expectedChecksum := hexDecodeString (Hash digest);
     partialChecksum := newHash digestFormat;
     sizeLeft := SizeBytes digest;
     invalidator := deleteCorrupted instance digest;
     errorCode := Internal |}.

Definition putReader (digest : Digest) (digestFormat : DigestFormat)
    : checksumValidatingReader (World S) :=
  {| expectedChecksum := hexDecodeString (Hash digest);
     partialChecksum := newHash digestFormat;
     sizeLeft := SizeBytes digest;
     invalidator := fun w => w;
     errorCode := InvalidArgument |}.

Definition Get (instance : string) (digest : Digest) (w : World S)
    : merkleReader * World S :=
  match validateDigest digest with
  | inr err => (errorReader err, w)
  | inl digestFormat =>
    let '(rc, w1) := ba_Get instance digest w in
    (validating rc (getReader instance digest digestFormat), w1)
  end.

#[export] Instance merkleReader_ReadCloser
    : ReadCloser (World S) merkleReader := {
  Read mr len w :=
    match mr with
    | errorReader err => (([], Some err), mr, w)
    | validating rc r =>
      let '(under, rc1, w1) := Read rc len w in
      let '(res, r1, w2) := checksumValidatingReader_Read r under w1 in
      (res, validating rc1 r1, w2)
    end;
  Close mr w :=
    match mr with
    | errorReader _ => (None, mr, w)
    | validating rc r =>
      let '(e, rc1, w1) := Close rc w in (e, validating rc1 r, w1)
    end
}.

Definition Put (instance : string) (digest : Digest) (sizeBytes : Z)
    : Prog (World S) (option error) :=
  match validateDigest digest with
  | inr err => CloseOp (fun _ => Ret (Some err))
  | inl digestFormat =>
    if negb (SizeBytes digest =? sizeBytes) then
      Fatal "Called into CAS to store non-CAS object"
    else
      through (putReader digest digestFormat)
        (ba_Put instance digest (SizeBytes digest))
  end.

Definition Delete (instance : string) (digest : Digest) (w : World S)
    : option error * World S :=
  match validateDigest digest with
  | inr err => (Some err, w)
  | inl _ => ba_Delete instance digest w
  end.

Fixpoint validateAll (digests : list Digest) : option error :=
  match digests with
  | [] => None
  | digest :: rest =>
    match validateDigest digest with
    | inr err => Some err
    | inl _ => validateAll rest
    end
  end.

Definition FindMissing (instance : string) (digests : list Digest)
    (w : World S) : list Digest * option error * World S :=
  match validateAll digests with
  | Some err => ([], Some err, w)
  | None => ba_FindMissing instance digests w
  end.

End MerkleBlobAccess.

End Merkle.

(** ** Sharding adapter (pkg/blobstore/sharding/sharding_blob_access.go) *)

Module Sharding.

(** Two lists of back ends with the same slots drained. *)
Definition sameShape {B1 B2} (bs1 : list (option B1))
    (bs2 : list (option B2)) : Prop :=
  map isSome bs1 = map isSome bs2.

(** A call that either yields a value or panics (index out of range, nil
    dereference). *)
Inductive Result (A : Type) : Type :=
| Value (a : A)
| Panic.
Arguments Value {A} a.
Arguments Panic {A}.

(** ShardSelector.GetShard(hash, selector), an interface of this package:
    for a hash, an implementation either returns, or calls the predicate on
    a slot index and goes on from its answer. *)
Inductive Selection : Type :=
| Stop (shard : Z)
| Ask (index : Z) (k : bool -> Selection).

#[export] Instance Result_eq_dec {A} `{EqDecision A} : EqDecision (Result A).
Proof. solve_decision. Defined.

(** The slots a selector proposes while it is told that each is drained. *)
Fixpoint candidates (sel : Selection) : list Z :=
  match sel with
  | Stop _ => []
  | Ask index k => index :: candidates (k true)
  end.

(** The contract of GetShard: it calls the predicate with candidate
    indices until the predicate returns false. *)
Fixpoint stopsOnLive (sel : Selection) : Prop :=
  match sel with
  | Stop _ => True
  | Ask _ k => (exists shard, k false = Stop shard) /\ stopsOnLive (k true)
  end.

Definition fnvPrime : Z := 1099511628211.

(** FNV-1a over octets with offset basis [h]: xor the octet in, multiply by
    the prime, modulo 2^64. *)
Definition fnv1a (h : Z) (octets : list Z) : Z :=
  fold_left (fun h b => (Z.lxor h b * fnvPrime) mod 2 ^ 64) octets h.

Fixpoint octets (s : string) : list Z :=
  match s with
  | EmptyString => []
  | String c t => byteZ c :: octets t
  end.

Definition isASCII (b : Z) : bool := b <? 128.

(** One round of the loop of getBackend: h ^= uint64(c); h *= prime. *)
Definition fnvRound (h c : Z) : Z :=
  wrapU64 (Z.lxor h (wrapU64 c) * fnvPrime).

Record findMissingResults (D : Type) := mkResults {
  missing : list D;
  err : option error
}.
Arguments mkResults {D} missing err.
Arguments missing {D} _.
Arguments err {D} _.

Section ShardingBlobAccess.

(** *util.Digest and util.DigestKeyFormat, of package util; [B] are the
    non-nil blobstore.BlobAccess values. *)
Context {D F B : Type} `{Countable B}.

Variable GetKey : D -> F -> string.

(** The fields of shardingBlobAccess; a nil entry of [backends] is a
    drained slot. *)
Variable backends : list (option B).
Variable GetShard : Z -> Selection.
Variable digestKeyFormat : F.
Variable hashInitialization : Z.

(** FindMissing of each back end. *)
Variable backend_FindMissing : B -> list D -> findMissingResults D.

Definition hashKey (key : string) : Z :=
  fold_left fnvRound (runes key) (wrapU64 hashInitialization).

(** GetShard running against the closure of getBackend, which stores
    ba.backends[index] in [backend] and answers whether it is nil. *)
Fixpoint runSelector (sel : Selection) (backend : option B)
    : Result (option B) :=
  match sel with
  | Stop _ => Value backend
  | Ask index k =>
    if (index <? 0) || (Z.of_nat (length backends) <=? index) then Panic
    else
      let backend := default None (backends !! Z.to_nat index) in
      runSelector (k (negb (isSome backend))) backend
  end.

Definition getBackend (digest : D) : Result (option B) :=
  let h := hashKey (GetKey digest digestKeyFormat) in
  runSelector (GetShard h) None.

(** The first of the proposed slots that is not drained; an index outside
    the list of back ends panics. *)
Fixpoint firstLive (cs : list Z) : Result (option Z) :=
  match cs with
  | [] => Value None
  | index :: rest =>
    if (index <? 0) || (Z.of_nat (length backends) <=? index) then Panic
    else
      match default None (backends !! Z.to_nat index) with
      | None => firstLive rest
      | Some _ => Value (Some index)
      end
  end.

(** The back end in a slot. *)
Definition inSlot (slot : Result (option Z)) : Result (option B) :=
  match slot with
  | Panic => Panic
  | Value None => Value None
  | Value (Some index) => Value (default None (backends !! Z.to_nat index))
  end.

(** The first loop of FindMissing. *)
Fixpoint groupDigests (digests : list D)
    (digestsPerBackend : gmap (option B) (list D))
    : Result (gmap (option B) (list D)) :=
  match digests with
  | [] => Value digestsPerBackend
  | digest :: rest =>
    match getBackend digest with
    | Panic => Panic
    | Value backend =>
      groupDigests rest
        (<[backend := digestsPerBackend !!! backend ++ [digest]]>
           digestsPerBackend)
    end
  end.

Definition callFindMissing (blobAccess : option B) (digests : list D)
    : Result (findMissingResults D) :=
  match blobAccess with
  | None => Panic
  | Some b => Value (backend_FindMissing b digests)
  end.

(** The last loop of FindMissing, the results being received in the order
    [arrival] of the back ends. *)
Fixpoint recombine (arrival : list (option B))
    (digestsPerBackend : gmap (option B) (list D))
    (missingDigests : list D) (err0 : option error)
    : Result (list D * option error) :=
  match arrival with
  | [] => Value (missingDigests, err0)
  | backend :: rest =>
    match callFindMissing backend (digestsPerBackend !!! backend) with
    | Panic => Panic
    | Value results =>
      match err results with
      | None =>
        recombine rest digestsPerBackend
          (missingDigests ++ missing results) err0
      | Some e => recombine rest digestsPerBackend missingDigests (Some e)
      end
    end
  end.

Definition FindMissingIn (arrival : list (option B)) (digests : list D)
    : Result (list D * option error) :=
  match groupDigests digests ∅ with
  | Panic => Panic
  | Value digestsPerBackend => recombine arrival digestsPerBackend [] None
  end.

(** What the contacted back ends answered, in the order of arrival. *)
Definition answers (digestsPerBackend : gmap (option B) (list D))
    (arrival : list (option B)) : list (findMissingResults D) :=
  omap (fun backend =>
          match backend with
          | Some b =>
            Some (backend_FindMissing b (digestsPerBackend !!! backend))
          | None => None
          end) arrival.

(** The goroutines answer in any order: every order of the contacted back
    ends is a possible run. *)
Definition FindMissing (digests : list D)
    (res : Result (list D * option error)) : Prop :=
  match groupDigests digests ∅ with
  | Panic => res = Panic
  | Value digestsPerBackend =>
    exists arrival,
      arrival ≡ₚ (map_to_list digestsPerBackend).*1 /\
      res = recombine arrival digestsPerBackend [] None
  end.

End ShardingBlobAccess.

End Sharding.

(** ** HTTP cache back end (pkg/blobstore/remote_blob_access.go) *)

Module Remote.

Inductive Method := MethodGet | MethodHead | MethodPut.

Record Response := mkResponse { StatusCode : Z; Body : bytes }.

(** What Get returns: an errorReader, or the body of the response. *)
Inductive remoteReader :=
| errorReader (err : error)
| bodyReader (body : bytes).

#[export] Instance remoteReader_ReadCloser W : ReadCloser W remoteReader := {
  Read r len w :=
    match r with
    | errorReader err => (([], Some err), r, w)
    | bodyReader body =>
      match body with
      | [] => (([], Some EOF), r, w)
      | _ => ((take len body, None), bodyReader (drop len body), w)
      end
    end;
  Close r w := (None, r, w)
}.

Section RemoteBlobAccess.

Context {W : Type}.

(** The fields of remoteBlobAccess. *)
Variable address : string.
Variable prefix : string.

(** The HTTP client: ctxhttp.Get and ctxhttp.Head against the server,
    http.NewRequest (which fails on a malformed URL), and ctxhttp.Do of a
    PUT, which reads the request body from the reader. *)
Variable roundTrip : Method -> string -> W -> (Response + error) * W.
Variable newRequestError : string -> option error.
Variable doPut : string -> Z -> Prog W (Response + error).

(** net/http.StatusText. *)
Variable StatusText : Z -> string.

Definition StatusNotFound : Z := 404.
Definition StatusOK : Z := 200.

Definition convertHTTPUnexpectedStatus (resp : Response) : error :=
  StatusError Unknown "Unexpected status code from remote cache: %d - %s"
    [ArgInt (StatusCode resp); ArgStr (StatusText (StatusCode resp))].

Definition urlOf (digest : Digest) : string :=
  address +:+ "/" +:+ prefix +:+ "/" +:+ Hash digest.

Definition Get (instance : string) (digest : Digest) (w : W)
    : remoteReader * W :=
  let url := urlOf digest in
  match roundTrip MethodGet url w with
  | (inr err, w1) => (errorReader err, w1)
  | (inl resp, w1) =>
    if StatusCode resp =? StatusNotFound then
      (errorReader (StatusError NotFound url []), w1)
    else if StatusCode resp =? StatusOK then (bodyReader (Body resp), w1)
    else (errorReader (convertHTTPUnexpectedStatus resp), w1)
  end.

Definition Put (instance : string) (digest : Digest) (sizeBytes : Z)
    : Prog W (option error) :=
  let url := urlOf digest in
  match newRequestError url with
  | Some err => CloseOp (fun _ => Ret (Some err))
  | None =>
    bind (doPut url sizeBytes) (fun res =>
      match res with
      | inr err => Ret (Some err)
      | inl _ => Ret None
      end)
  end.

Definition Delete (instance : string) (digest : Digest) (w : W)
    : option error * W :=
  (Some (StatusError Unimplemented
           "Bazel HTTP caching protocol does not support object deletion" []),
   w).

Fixpoint findMissingLoop (digests : list Digest) (missing : list Digest)
    (w : W) : list Digest * option error * W :=
  match digests with
  | [] => (missing, None, w)
  | digest :: rest =>
    let url := urlOf digest in
    match roundTrip MethodHead url w with
    | (inr err, w1) => ([], Some err, w1)
    | (inl resp, w1) =>
      if StatusCode resp =? StatusNotFound then
        findMissingLoop rest (missing ++ [digest]) w1
      else if StatusCode resp =? StatusOK then
        findMissingLoop rest missing w1
      else ([], Some (convertHTTPUnexpectedStatus resp), w1)
    end
  end.

Definition FindMissing (instance : string) (digests : list Digest) (w : W)
    : list Digest * option error * W :=
  findMissingLoop digests [] w.

End RemoteBlobAccess.

End Remote.

(** ** gRPC CAS relay (contentAddressableStorageBlobAccess) *)

Module Relay.

Record FindMissingBlobsRequest := mkRequest {
  InstanceName : string;
  BlobDigests : list Digest
}.

Record FindMissingBlobsResponse := mkResponse {
  MissingBlobDigests : list Digest
}.

(** The remote service as the client sees it: the requests issued so far
    and how it answers a request. *)
Record World := mkWorld {
  issued : list FindMissingBlobsRequest;
  answer : FindMissingBlobsRequest -> FindMissingBlobsResponse + error
}.

(** contentAddressableStorageClient.FindMissingBlobs(ctx, request) *)
Definition FindMissingBlobs (request : FindMissingBlobsRequest) (w : World)
    : (FindMissingBlobsResponse + error) * World :=
  (answer w request,
   {| issued := issued w ++ [request]; answer := answer w |}).

Section ContentAddressableStorageBlobAccess.

(** *util.Digest and its accessors, of package util. *)
Context {D : Type}.
Variable GetInstance : D -> string.
Variable GetRawDigest : D -> Digest.
Variable NewDigest : string -> Digest -> D + error.

(** The loop building the request: the raw digests, or the error for mixed
    instance names. *)
Fixpoint rawDigests (instance : string) (digests : list D)
    (blobDigests : list Digest) : list Digest + error :=
  match digests with
  | [] => inl blobDigests
  | digest :: rest =>
    let blobDigests := blobDigests ++ [GetRawDigest digest] in
    if negb (String.eqb (GetInstance digest) instance) then
      inr (StatusError InvalidArgument
             "Cannot use mixed instance names in a single request" [])
    else rawDigests instance rest blobDigests
  end.

(** The loop converting the results back. *)
Fixpoint convertBack (instance : string) (raws : list Digest)
    (outDigests : list D) : list D + error :=
  match raws with
  | [] => inl outDigests
  | rawDigest :: rest =>
    match NewDigest instance rawDigest with
    | inr err => inr err
    | inl digest => convertBack instance rest (outDigests ++ [digest])
    end
  end.

Definition FindMissing (digests : list D) (w : World)
    : list D * option error * World :=
  match digests with
  | [] => ([], None, w)
  | first :: _ =>
    let instance := GetInstance first in
    match rawDigests instance digests [] with
    | inr err => ([], Some err, w)
    | inl blobDigests =>
      match FindMissingBlobs (mkRequest instance blobDigests) w with
      | (inr err, w1) => ([], Some err, w1)
      | (inl response, w1) =>
        match convertBack instance (MissingBlobDigests response) [] with
        | inr err => ([], Some err, w1)
        | inl outDigests => (outDigests, None, w1)
        end
      end
    end
  end.

End ContentAddressableStorageBlobAccess.

End Relay.

(** ** Concrete inputs *)

Module Scenario.

Import ByteStream.

Definition keyByHash (instance : string) (digest : Digest)
    : string + error :=
  inl (Hash digest).

Definition emptyRedis : Redis.World :=
  Redis.mkWorld None ∅ None [].

Definition fourBytes (i : nat) : nat := 4.

Definition redisPut (instance : string) (digest : Digest) (sizeBytes : Z)
    : Prog Redis.World (option error) :=
  Redis.Put keyByHash 8 fourBytes instance digest.

Definition uploadFirst : WriteRequest :=
  mkWriteRequest "uploads/u/blobs/abc/3" 0 false (list_ascii_of_string "ab").

Definition uploadSecond : WriteRequest :=
  mkWriteRequest "" 2 false (list_ascii_of_string "c").

Definition uploadBad : WriteRequest :=
  mkWriteRequest "" 7 true (list_ascii_of_string "d").

(** The same upload with the fields the service never reads set otherwise. *)
Definition uploadFirst' : WriteRequest :=
  mkWriteRequest "uploads/u/blobs/abc/3" 99 true (list_ascii_of_string "ab").

Definition uploadSecond' : WriteRequest :=
  mkWriteRequest "some/other/name" 2 true (list_ascii_of_string "c").

(** A stand-in for a digest function, and a format that recognizes hashes
    of ten characters as its own. *)
Definition toyHash (b : bytes) : bytes := rev b.

Definition toyFormatFromLength (n : nat) : Merkle.DigestFormat + error :=
  if (n =? 10)%nat then inl toyHash
  else inr (StatusError InvalidArgument
              "Unknown digest hash length: %d characters"
              [ArgInt (Z.of_nat n)]).

Definition hello : bytes := list_ascii_of_string "hello".

(** hex(toyHash "hello") and its size. *)
Definition helloDigest : Digest := mkDigest "6f6c6c6568" 5.

(** A reader for [helloDigest] whose invalidator counts its calls. *)
Definition countingReader : Merkle.checksumValidatingReader nat :=
  Merkle.mkCVR (Merkle.hexDecodeString (Hash helloDigest))
    (Merkle.newHash toyHash) (SizeBytes helloDigest) S Internal.

(** A wrapped store that holds nothing: Get yields an empty stream, Put
    reads its reader to the end, Delete succeeds, nothing is missing. *)
Definition nullGet (instance : string) (digest : Digest)
    (w : Merkle.World unit) : scriptReader * Merkle.World unit :=
  ({| script := []; closed := 0 |}, w).

Definition nullPut (instance : string) (digest : Digest) (sizeBytes : Z)
    : Prog (Merkle.World unit) (option error) :=
  bind (ReadAll 8 fourBytes) (fun res =>
    match res with
    | Some (_, err) => Ret err
    | None => Fatal "ReadAll did not finish"
    end).

Definition nullDelete (instance : string) (digest : Digest)
    (w : Merkle.World unit) : option error * Merkle.World unit :=
  (None, w).

Definition nullFindMissing (instance : string) (digests : list Digest)
    (w : Merkle.World unit)
    : list Digest * option error * Merkle.World unit :=
  ([], None, w).

Definition quiet : Merkle.World unit := Merkle.mkWorld tt [].

(** A wrapped store that keeps the digests it was asked to delete and
    serves "hello world" whatever the digest. *)
Definition helloWorld : bytes := list_ascii_of_string "hello world".

Definition corruptGet (instance : string) (digest : Digest)
    (w : Merkle.World (list Digest))
    : scriptReader * Merkle.World (list Digest) :=
  ({| script := [(helloWorld, None)]; closed := 0 |}, w).

Definition recordingDelete (instance : string) (digest : Digest)
    (w : Merkle.World (list Digest))
    : option error * Merkle.World (list Digest) :=
  (None, Merkle.mkWorld (digest :: Merkle.store w) (Merkle.logged w)).

Definition readAllPut (instance : string) (digest : Digest) (sizeBytes : Z)
    : Prog (Merkle.World (list Digest)) (option error) :=
  bind (ReadAll 8 fourBytes) (fun res =>
    match res with
    | Some (_, err) => Ret err
    | None => Fatal "ReadAll did not finish"
    end).

Definition untouched : Merkle.World (list Digest) := Merkle.mkWorld [] [].

(** [helloDigest] with its hash in uppercase. *)
Definition shoutedDigest : Digest := mkDigest "6F6C6C6568" 5.

(** A selector that proposes slot 1 and, if that is drained, slot 0. *)
Definition secondThenFirst (h : Z) : Sharding.Selection :=
  Sharding.Ask 1 (fun drained =>
    if drained then Sharding.Ask 0 (fun _ => Sharding.Stop 0)
    else Sharding.Stop 1).

(** Two shards, A live and B drained. *)
Definition shardA : nat := 7.
Definition liveThenDrained : list (option nat) := [Some shardA; None].

Definition keyOf (digest : Digest) (format : unit) : string :=
  Hash digest +:+ "-5".

(** Two live shards, a selector that goes by the parity of the hash, and
    back ends of which the first misses everything it is asked for and the
    second is unavailable. *)
Definition twoShards : list (option nat) := [Some 0%nat; Some 1%nat].

Definition byParity (h : Z) : Sharding.Selection :=
  Sharding.Ask (h mod 2) (fun _ => Sharding.Stop (h mod 2)).

Definition halfDown (b : nat) (digests : list Digest)
    : Sharding.findMissingResults Digest :=
  if (b =? 0)%nat then Sharding.mkResults digests None
  else Sharding.mkResults [] (Some (OtherError "unavailable")).

Definition fnvOffsetBasis : Z := 14695981039346656037.

Definition threeDigests : list Digest :=
  [mkDigest "aa" 1; mkDigest "ab" 1; mkDigest "ac" 1].

(** An HTTP client whose server answers a PUT with the given status once
    the body has been read and closed, as net/http does with the body of a
    request, and every other request by a table of statuses, keeping the
    requests made. *)
Definition answerPut (status : Z) (url : string) (contentLength : Z)
    : Prog (list (Remote.Method * string)) (Remote.Response + error) :=
  bind (ReadAll 8 fourBytes) (fun _ =>
    CloseOp (fun _ =>
      GetW (fun w =>
        SetW (w ++ [(Remote.MethodPut, url)])
          (Ret (inl (Remote.mkResponse status [])))))).

Definition served (status : string -> Z) (m : Remote.Method) (url : string)
    (w : list (Remote.Method * string))
    : (Remote.Response + error) * list (Remote.Method * string) :=
  (inl (Remote.mkResponse (status url) []), w ++ [(m, url)]).

Definition wellFormed (url : string) : option error := None.

Definition cancelled : Redis.World :=
  Redis.mkWorld (Some (OtherError "context canceled")) ∅ None [].

End Scenario.

(** ** More of the Go library: the verb %d and bytes.Buffer *)

Module GoFmt.

Definition digit (d : Z) : ascii := Merkle.byteOfZ (48 + d).

(** strconv's formatBits in base 10: the digits of [u] are put in front of
    [acc], the least significant first; twenty rounds print every unsigned
    64-bit integer. *)
Fixpoint formatBits (fuel : nat) (u : Z) (acc : string) : string :=
  match fuel with
  | O => acc
  | S f =>
    if u <? 10 then String (digit u) acc
    else formatBits f (u / 10) (String (digit (u mod 10)) acc)
  end.

Definition FormatUint (u : Z) : string := formatBits 20 u EmptyString.

(** Sprintf("%d", i) of an int64, which is strconv.FormatInt(i, 10). *)
Definition FormatInt (i : Z) : string :=
  if i <? 0 then String "-"%char (FormatUint (- i)) else FormatUint i.

(** ioutil.NopCloser(bytes.NewBuffer(buf)): the part of the buffer that has
    not been read. *)
Record bufferReader := mkBuffer { unread : bytes }.

#[export] Instance bufferReader_ReadCloser W : ReadCloser W bufferReader := {
  Read r len w :=
    match unread r with
    | [] =>
      if (len =? 0)%nat then (([], None), r, w) else (([], Some EOF), r, w)
    | _ => ((take len (unread r), None), mkBuffer (drop len (unread r)), w)
    end;
  Close r w := (None, r, w)
}.

End GoFmt.
Export GoFmt.

(** ** Redis store: Get *)

Module RedisGet.

(** What redisClient.Get(key).Bytes() answers: the value, redis.Nil for a
    key that is not there, or the failure of the command. *)
Inductive Reply :=
| Value (value : bytes)
| Nil
| Failed (err : error).

(** What Get returns: an errorReader, whose Read reports its error, or the
    buffer that holds the value. *)
Inductive redisReader :=
| errorReader (err : error)
| valueReader (buffer : bufferReader).

#[global] Instance redisReader_ReadCloser W : ReadCloser W redisReader := {
  Read r len w :=
    match r with
    | errorReader err => (([], Some err), r, w)
    | valueReader buffer =>
      let '(res, buffer1, w1) := Read buffer len w in
      (res, valueReader buffer1, w1)
    end;
  Close r w := (None, r, w)
}.

Section RedisBlobAccess.

Variable blobKeyer : string -> Digest -> string + error.

(** A lookup changes nothing on the server. *)
Definition clientGet (key : string) (w : Redis.World) : Reply :=
  match Redis.down w with
  | Some e => Failed e
  | None =>
    match Redis.kv w !! key with
    | Some value => Value value
    | None => Nil
    end
  end.

Definition Get (instance : string) (digest : Digest) (w : Redis.World)
    : redisReader * Redis.World :=
  match Redis.ctxErr w with
  | Some err => (errorReader err, w)
  | None =>
    match blobKeyer instance digest with
    | inr err => (errorReader err, w)
    | inl key =>
      match clientGet key w with
      | Nil => (errorReader (StatusError NotFound "redis: nil" []), w)
      | Failed err => (errorReader err, w)
      | Value value => (valueReader (mkBuffer value), w)
      end
    end
  end.

End RedisBlobAccess.

End RedisGet.

(** ** Action cache on top of a blob store (blobAccessActionCache) *)

Module ActionCache.

Section BlobAccessActionCache.

Context {W RC AR : Type} `{ReadCloser W RC}.

(** The BlobAccess that holds the action results. *)
Variable blobAccess_Get : string -> Digest -> W -> RC * W.
Variable blobAccess_Put : string -> Digest -> Prog W (option error).

(** proto.Marshal and proto.Unmarshal of an ActionResult. *)
Variable Marshal : AR -> bytes + error.
Variable Unmarshal : bytes -> AR + error.

(** The read budget of ioutil.ReadAll. *)
Variable fuel : nat.
Variable bufs : nat -> nat.

Definition GetActionResult (instance : string) (digest : Digest) (w : W)
    : Outcome (AR + error) RC W :=
  let '(r, w1) := blobAccess_Get instance digest w in
  exec
    (bind (ReadAll fuel bufs) (fun res =>
     CloseOp (fun _ =>
       match res with
       | None => Fatal "ReadAll did not finish"
       | Some (_, Some err) => Ret (inr err)
       | Some (data, None) => Ret (Unmarshal data)
       end)))
    r w1.

Definition PutActionResult (instance : string) (digest : Digest)
    (result : AR) (w : W) : Outcome (option error) unit W :=
  match Marshal result with
  | inr err => Returned (Some err) tt w
  | inl data =>
    match exec (blobAccess_Put instance digest) (mkBuffer data) w with
    | Returned err _ w1 => Returned err tt w1
    | Exited msg => Exited msg
    end
  end.

End BlobAccessActionCache.

End ActionCache.

(** ** gRPC CAS relay: downloads and uploads over ByteStream *)

Module RelayStream.

Import ByteStream.

(** bytestream.ByteStream_ReadClient: the data of the responses still to
    come, and the error Recv reports once they are used up. *)
Record ReadClient := mkReadClient {
  pending : list bytes;
  endError : error
}.

(** client.Recv(): the message is nil whenever the error is not. *)
Definition Recv (c : ReadClient) : (bytes + error) * ReadClient :=
  match pending c with
  | [] => (inr (endError c), c)
  | chunk :: rest =>
    (inl chunk, {| pending := rest; endError := endError c |})
  end.

Record byteStreamBlobReader := mkBlobReader {
  client : ReadClient;
  partial : bytes
}.

Definition byteStreamBlobReader_Read (r : byteStreamBlobReader) (p : nat)
    : ReadResult * byteStreamBlobReader :=
  if (0 <? length (partial r))%nat then
    ((take p (partial r), None),
     {| client := client r; partial := drop p (partial r) |})
  else
    match Recv (client r) with
    | (inr err, c1) =>
      (([], Some err), {| client := c1; partial := partial r |})
    | (inl chunk, c1) =>
      ((take p chunk, None), {| client := c1; partial := drop p chunk |})
    end.

#[global] Instance byteStreamBlobReader_ReadCloser W
    : ReadCloser W byteStreamBlobReader := {
  Read r p w := (byteStreamBlobReader_Read r p, w);
  Close r w := (None, r, w)
}.

(** The remote ByteStream service as Get sees it: the Read requests issued
    so far, and the stream or error byteStreamClient.Read answers with. *)
Record Downloads := mkDownloads {
  requested : list ReadRequest;
  serve : ReadRequest -> ReadClient + error
}.

Definition byteStreamClient_Read (request : ReadRequest) (w : Downloads)
    : (ReadClient + error) * Downloads :=
  (serve w request,
   {| requested := requested w ++ [request]; serve := serve w |}).

(** The remote ByteStream service as Put sees it: the error of
    byteStreamClient.Write, the requests the stream has taken, the error
    Send meets, and the error of CloseAndRecv. *)
Record Uploads := mkUploads {
  openError : option error;
  uploaded : list WriteRequest;
  sendError : option error;
  closeError : option error
}.

Definition Send (request : WriteRequest) (w : Uploads)
    : option error * Uploads :=
  match sendError w with
  | Some e => (Some e, w)
  | None =>
    (None,
     {| openError := openError w; uploaded := uploaded w ++ [request];
        sendError := sendError w; closeError := closeError w |})
  end.

Definition CloseAndRecv (w : Uploads) : option error * Uploads :=
  (closeError w, w).

(** A call that either returns or panics on a nil dereference. *)
Inductive Result (A : Type) : Type :=
| Value (a : A)
| Panic.
Arguments Value {A} a.
Arguments Panic {A}.

Section ContentAddressableStorageBlobAccess.

(** *util.Digest and its accessors, of package util. *)
Context {D : Type}.
Variable GetInstance : D -> string.
Variable GetHash : D -> bytes.
Variable GetSizeBytes : D -> Z.

Variable readChunkSize : nat.

(** Sprintf("blobs/%s/%d", ..) and Sprintf("%s/blobs/%s/%d", ..) *)
Definition readResourceName (instance : string) (hash : bytes) (size : Z)
    : string :=
  if String.eqb instance EmptyString then
    "blobs/" +:+ Merkle.hexEncodeToString hash +:+ "/" +:+ FormatInt size
  else
    instance +:+ "/blobs/" +:+ Merkle.hexEncodeToString hash +:+ "/"
    +:+ FormatInt size.

(** Sprintf("uploads/%s/blobs/%s/%d", ..) and
    Sprintf("%s/uploads/%s/blobs/%s/%d", ..) *)
Definition writeResourceName (instance uuid : string) (hash : bytes)
    (size : Z) : string :=
  if String.eqb instance EmptyString then
    "uploads/" +:+ uuid +:+ "/blobs/" +:+ Merkle.hexEncodeToString hash
    +:+ "/" +:+ FormatInt size
  else
    instance +:+ "/uploads/" +:+ uuid +:+ "/blobs/"
    +:+ Merkle.hexEncodeToString hash +:+ "/" +:+ FormatInt size.

(** Get reads the first response before it returns; when the stream ends
    before any response, [chunk] is nil and [chunk.Data] panics. *)
Definition Get (digest : D) (w : Downloads)
    : Result (Z * byteStreamBlobReader + error) * Downloads :=
  let sizeBytes := GetSizeBytes digest in
  let request :=
    mkReadRequest
      (readResourceName (GetInstance digest) (GetHash digest) sizeBytes)
      0 0 in
  match byteStreamClient_Read request w with
  | (inr err, w1) => (Value (inr err), w1)
  | (inl client, w1) =>
    match Recv client with
    | (inr err, client1) =>
      if negb (isEOF (Some err)) then (Value (inr err), w1)
      else (Panic, w1)
    | (inl chunk, client1) =>
      (Value (inl (sizeBytes, {| client := client1; partial := chunk |})),
       w1)
    end
  end.

(** The loop of Put; [None] when [fuel] rounds did not reach the end of the
    reader. *)
Fixpoint putLoop (fuel : nat) (resourceName : string) (writeOffset : Z)
    : Prog Uploads (option (option error)) :=
  match fuel with
  | O => Ret None
  | S f =>
    ReadOp readChunkSize (fun res =>
      let '(readBuf, err) := res in
      match err with
      | None =>
        GetW (fun w =>
          let '(serr, w1) :=
            Send (mkWriteRequest resourceName writeOffset false readBuf) w in
          SetW w1
            match serr with
            | Some e => Ret (Some (Some e))
            | None =>
              putLoop f EmptyString
                (wrap64 (writeOffset + Z.of_nat (length readBuf)))
            end)
      | Some EOF =>
        GetW (fun w =>
          let '(serr, w1) :=
            Send (mkWriteRequest resourceName writeOffset true readBuf) w in
          SetW w1
            match serr with
            | Some e => Ret (Some (Some e))
            | None =>
              GetW (fun w2 =>
                let '(cerr, w3) := CloseAndRecv w2 in
                SetW w3 (Ret (Some cerr)))
            end)
      | Some e => Ret (Some (Some e))
      end)
  end.

(** [uuid] is the text of uuid.Must(uuid.NewRandom()); r.Close() is
    deferred to the return. *)
Definition Put (fuel : nat) (uuid : string) (digest : D) (sizeBytes : Z)
    : Prog Uploads (option (option error)) :=
  GetW (fun w =>
    match openError w with
    | Some err => CloseOp (fun _ => Ret (Some (Some err)))
    | None =>
      bind
        (putLoop fuel
           (writeResourceName (GetInstance digest) uuid (GetHash digest)
              (GetSizeBytes digest))
           0)
        (fun res => CloseOp (fun _ => Ret res))
    end).

Definition Delete (digest : D) : option error :=
  Some (StatusError Unimplemented
          "Bazel remote execution protocol does not support object deletion"
          []).

End ContentAddressableStorageBlobAccess.

End RelayStream.

(** ** What goes over the wire *)

Module Wire.

Import ByteStream.

(** A blob cut into pieces of [n] bytes, the last one shorter when the
    length is no multiple of [n]. *)
Fixpoint chunksOf (fuel : nat) (n : nat) (blob : bytes) : list bytes :=
  match fuel, blob with
  | S f, _ :: _ => take n blob :: chunksOf f n (drop n blob)
  | _, _ => []
  end.

Definition chunked (n : nat) (blob : bytes) : list bytes :=
  chunksOf (length blob) n blob.

(** The requests of an upload of [chunks] followed by [last]: the name on
    the first only, each offset the number of bytes before it, FinishWrite
    on the last only. *)
Fixpoint requestsOf (resourceName : string) (writeOffset : Z)
    (chunks : list bytes) (last : bytes) : list WriteRequest :=
  match chunks with
  | [] => [mkWriteRequest resourceName writeOffset true last]
  | c :: rest =>
    mkWriteRequest resourceName writeOffset false c
    :: requestsOf EmptyString (writeOffset + Z.of_nat (length c)) rest last
  end.

(** The requests of an upload that stops after [chunks], before any last
    request. *)
Fixpoint partsOf (resourceName : string) (writeOffset : Z)
    (chunks : list bytes) : list WriteRequest :=
  match chunks with
  | [] => []
  | c :: rest =>
    mkWriteRequest resourceName writeOffset false c
    :: partsOf EmptyString (writeOffset + Z.of_nat (length c)) rest
  end.

(** A download stream that keeps what was sent, beside the Redis server. *)
Definition sendTo (chunk : bytes) (w : Redis.World * list bytes)
    : option error * (Redis.World * list bytes) :=
  (None, (fst w, snd w ++ [chunk])).

Definition getBeside (blobKeyer : string -> Digest -> string + error)
    (instance : string) (digest : Digest) (w : Redis.World * list bytes)
    : RedisGet.redisReader * (Redis.World * list bytes) :=
  (fst (RedisGet.Get blobKeyer instance digest (fst w)), w).

(** The digest's key is not in the store. *)
Definition absent (blobKeyer : string -> Digest -> string + error)
    (instance : string) (kv : gmap string bytes) (digest : Digest) : bool :=
  match blobKeyer instance digest with
  | inl key => match kv !! key with Some _ => false | None => true end
  | inr _ => false
  end.

(** A Put body of a store, run where the store sits behind the integrity
    adapter: the world also holds the log, which the body leaves alone. *)
Fixpoint inStore {S A} (p : Prog S A) : Prog (Merkle.World S) A :=
  match p with
  | Ret a => Ret a
  | ReadOp len k => ReadOp len (fun res => inStore (k res))
  | CloseOp k => CloseOp (fun e => inStore (k e))
  | GetW k => GetW (fun w => inStore (k (Merkle.store w)))
  | SetW s k =>
    GetW (fun w => SetW (Merkle.mkWorld s (Merkle.logged w)) (inStore k))
  | Fatal msg => Fatal msg
  end.

(** What Put of the Redis store does once ReadAll has returned. *)
Definition afterReadAll (blobKeyer : string -> Digest -> string + error)
    (instance : string) (digest : Digest)
    (res : option (bytes * option error))
    : Prog Redis.World (option error) :=
  CloseOp (fun _ =>
    match res with
    | None => Fatal "ReadAll did not finish"
    | Some (_, Some err) => Ret (Some err)
    | Some (value, None) =>
      match blobKeyer instance digest with
      | inr err => Ret (Some err)
      | inl key =>
        GetW (fun w1 =>
          let '(e, w2) := Redis.clientSet key value w1 in
          SetW w2 (Ret e))
      end
    end).

(** The store after an upload through a validating reader [r] that had
    read [acc] before: untouched when Put failed, and holding bytes of the
    reader's size and hash when it succeeded. *)
Definition uploadOutcome {RC}
    (blobKeyer : string -> Digest -> string + error)
    (instance : string) (digest : Digest)
    (r : Merkle.checksumValidatingReader (Merkle.World Redis.World))
    (w : Merkle.World Redis.World) (acc : bytes)
    (o : Outcome (option error) RC (Merkle.World Redis.World)) : Prop :=
  match o with
  | Returned None _ w' =>
    exists rest key,
      Z.of_nat (length rest) = Merkle.sizeLeft r /\
      Merkle.family (Merkle.partialChecksum r)
        (Merkle.written (Merkle.partialChecksum r) ++ rest)
      = Merkle.expectedChecksum r /\
      blobKeyer instance digest = inl key /\
      Redis.kv (Merkle.store w')
      = <[key := acc ++ rest]> (Redis.kv (Merkle.store w)) /\
      Merkle.logged w' = Merkle.logged w
  | Returned (Some _) _ w' =>
    Redis.kv (Merkle.store w') = Redis.kv (Merkle.store w) /\
    Merkle.logged w' = Merkle.logged w
  | Exited _ => True
  end.

Definition notSlash (b : Z) : bool := negb (b =? 47).

End Wire.

(** ** More concrete inputs *)

Module Samples.

Definition he : bytes := list_ascii_of_string "he".
Definition llo : bytes := list_ascii_of_string "llo".

(** A Redis server that holds "hello" under the hash of [helloDigest]. *)
Definition redisWithHello : Redis.World :=
  Redis.mkWorld None {[ "6f6c6c6568" := Scenario.hello ]} None [].

(** A stand-in for the protobuf codec: an action result is a byte string,
    marshalled by reversing it. *)
Definition toyMarshal (result : bytes) : bytes + error := inl (rev result).
Definition toyUnmarshal (data : bytes) : bytes + error := inl (rev data).

(** A stand-in for *util.Digest: the instance name beside the raw digest,
    whose hash is kept as text. *)
Definition utilDigest : Type := string * Digest.
Definition instanceOf (d : utilDigest) : string := fst d.
Definition hashOf (d : utilDigest) : bytes :=
  Merkle.hexDecodeString (Hash (snd d)).
Definition sizeOf (d : utilDigest) : Z := SizeBytes (snd d).
Definition rawOf (d : utilDigest) : Digest := snd d.
Definition newDigest (instance : string) (raw : Digest)
    : utilDigest + error :=
  inl (instance, raw).

Definition helloInMain : utilDigest := ("main", Scenario.helloDigest).

(** A remote service that answers every Read request with the given
    responses, and one that accepts every upload. *)
Definition serving (responses : list bytes) : RelayStream.Downloads :=
  RelayStream.mkDownloads []
    (fun _ => inl (RelayStream.mkReadClient responses EOF)).

Definition accepting : RelayStream.Uploads :=
  RelayStream.mkUploads None [] None None.

Definition behindAdapter : Merkle.World Redis.World :=
  Merkle.mkWorld Scenario.emptyRedis [].

(** An upload of "hello" under its digest in two requests, and one that
    sends "help!" under the same name. *)
Definition helloFirst : ByteStream.WriteRequest :=
  ByteStream.mkWriteRequest "uploads/u-1/blobs/6f6c6c6568/5" 0 false he.

Definition helloSecond : ByteStream.WriteRequest :=
  ByteStream.mkWriteRequest "" 2 true llo.

Definition helpSecond : ByteStream.WriteRequest :=
  ByteStream.mkWriteRequest "" 2 true (list_ascii_of_string "lp!").


End Samples.

(** ** Facts about decoding *)

Lemma byteZ_range c : 0 <= byteZ c < 256.
Proof.
  unfold byteZ. pose proof (nat_ascii_bounded c). lia.
Qed.

Lemma takeS_dropS n s : takeS n s +:+ dropS n s = s.
Proof.
  revert s; induction n as [|n IH]; intros [|c t]; simpl; try reflexivity.
  change (String c (takeS n t +:+ dropS n t) = String c t).
  f_equal. apply IH.
Qed.

Lemma dropS_length n s :
  String.length (dropS n s) = (String.length s - n)%nat.
Proof.
  revert s; induction n as [|n IH]; intros [|c t]; simpl; auto with lia.
Qed.

Lemma lor_lower a b : 0 <= a -> 0 <= b -> a <= Z.lor a b.
Proof.
  intros Ha Hb.
  assert (E : Z.lor a b = a + Z.ldiff b a).
  { rewrite Z.add_nocarry_lxor.
    - rewrite Z.lxor_lor.
      + apply Z.bits_inj'; intros n Hn.
        rewrite !Z.lor_spec, Z.ldiff_spec.
        destruct (Z.testbit a n), (Z.testbit b n); reflexivity.
      + apply Z.bits_inj'; intros n Hn.
        rewrite Z.land_spec, Z.ldiff_spec, Z.bits_0.
        destruct (Z.testbit a n), (Z.testbit b n); reflexivity.
    - apply Z.bits_inj'; intros n Hn.
      rewrite Z.land_spec, Z.ldiff_spec, Z.bits_0.
      destruct (Z.testbit a n), (Z.testbit b n); reflexivity. }
  rewrite E.
  assert (0 <= Z.ldiff b a) by (apply Z.ldiff_nonneg; auto).
  lia.
Qed.

Lemma lor_lower_r a b : 0 <= a -> 0 <= b -> b <= Z.lor a b.
Proof. intros; rewrite Z.lor_comm; now apply lor_lower. Qed.

Lemma land_low_bits b k : 0 <= k -> Z.land b (2 ^ k - 1) = b mod 2 ^ k.
Proof.
  intros Hk. rewrite <- Z.land_ones by assumption.
  f_equal. rewrite Z.ones_equiv. lia.
Qed.

Lemma decodeRune_ascii c t :
  byteZ c < 128 -> decodeRune (String c t) = (byteZ c, 1%nat).
Proof.
  intros H. simpl. destruct (Z.ltb_spec (byteZ c) 128); [reflexivity | lia].
Qed.

Lemma isCont_high b : isCont b = true -> isHigh b = true.
Proof. unfold isCont, isHigh. intros H; apply andb_prop in H; tauto. Qed.

Lemma isSecond_high b0 b1 : isSecond b0 b1 = true -> isHigh b1 = true.
Proof.
  unfold isSecond, isHigh, second_lo. intros H; apply andb_prop in H.
  destruct H as [H _]. apply Z.leb_le in H. apply Z.leb_le.
  destruct (b0 =? 224); [lia|]. destruct (b0 =? 240); lia.
Qed.

Ltac split_andb :=
  repeat match goal with
  | H : _ && _ = true |- _ => apply andb_prop in H; destruct H
  end.

Ltac byte_bounds :=
  unfold isSecond, isCont, second_lo, second_hi in *; split_andb;
  repeat match goal with
  | H : context [?a =? ?b] |- _ => destruct (Z.eqb_spec a b)
  end;
  repeat match goal with
  | H : (_ <=? _) = true |- _ => apply Z.leb_le in H
  end.

Lemma shift_low6 b k :
  0 <= k -> 0 <= b < 256 ->
  Z.shiftl (Z.land b 63) k = (b mod 64) * 2 ^ k /\ 0 <= Z.land b 63.
Proof.
  intros Hk Hb. rewrite Z.shiftl_mul_pow2 by lia.
  assert (L : Z.land b 63 = b mod 64) by (apply (land_low_bits b 6); lia).
  rewrite L. split; [reflexivity|]. apply Z.mod_pos_bound; lia.
Qed.

Lemma decodeRune_high c t r n :
  128 <= byteZ c ->
  decodeRune (String c t) = (r, n) ->
  128 <= r /\ (1 <= n)%nat /\ (n <= String.length (String c t))%nat /\
  allBytes isHigh (takeS n (String c t)) = true.
Proof.
  intros Hc. pose proof (byteZ_range c) as Rc.
  assert (Hh : isHigh (byteZ c) = true) by (apply Z.leb_le; lia).
  assert (Herr : (r, n) = (RuneError, 1%nat) ->
                 128 <= r /\ (1 <= n)%nat /\
                 (n <= String.length (String c t))%nat /\
                 allBytes isHigh (takeS n (String c t)) = true).
  { intros E; inversion E; subst. unfold RuneError. simpl. rewrite Hh.
    repeat split; auto with lia. }
  unfold decodeRune.
  destruct (Z.ltb_spec (byteZ c) 128) as [|_]; [lia|].
  destruct ((194 <=? byteZ c) && (byteZ c <=? 223)) eqn:E2.
  { destruct t as [|c1 t1]; [intros E; now apply Herr|].
    destruct (isCont (byteZ c1)) eqn:C1; [|intros E; now apply Herr].
    intros E; inversion E; subst; clear E Herr.
    pose proof (byteZ_range c1) as R1.
    assert (A : allBytes isHigh (takeS 2 (String c (String c1 t1))) = true).
    { simpl. now rewrite Hh, (isCont_high _ C1). }
    repeat split; simpl; auto with lia.
    destruct (shift_low6 (byteZ c1) 0 ltac:(lia) R1) as [_ N1].
    assert (L0 : Z.land (byteZ c) 31 = byteZ c mod 32)
      by (apply (land_low_bits _ 5); lia).
    assert (S0 : Z.shiftl (Z.land (byteZ c) 31) 6 = (byteZ c mod 32) * 64)
      by (rewrite Z.shiftl_mul_pow2, L0 by lia; reflexivity).
    byte_bounds.
    eapply Z.le_trans; [|apply lor_lower; auto].
    - rewrite S0. Z.div_mod_to_equations. lia.
    - rewrite S0. Z.div_mod_to_equations. lia. }
  destruct ((224 <=? byteZ c) && (byteZ c <=? 239)) eqn:E3.
  { destruct t as [|c1 [|c2 t2]]; try (intros E; now apply Herr).
    destruct (isSecond (byteZ c) (byteZ c1) && isCont (byteZ c2)) eqn:C1;
      [|intros E; now apply Herr].
    intros E; inversion E; subst; clear E Herr.
    pose proof (byteZ_range c1) as R1. pose proof (byteZ_range c2) as R2.
    assert (A : allBytes isHigh
                  (takeS 3 (String c (String c1 (String c2 t2)))) = true).
    { split_andb. simpl.
      now rewrite Hh, (isSecond_high _ _ H), (isCont_high (byteZ c2)). }
    repeat split; simpl; auto with lia.
    destruct (shift_low6 (byteZ c1) 6 ltac:(lia) R1) as [S1 N1].
    destruct (shift_low6 (byteZ c2) 0 ltac:(lia) R2) as [_ N2].
    assert (L0 : Z.land (byteZ c) 15 = byteZ c mod 16)
      by (apply (land_low_bits _ 4); lia).
    assert (S0 : Z.shiftl (Z.land (byteZ c) 15) 12 = (byteZ c mod 16) * 4096)
      by (rewrite Z.shiftl_mul_pow2, L0 by lia; reflexivity).
    change (2 ^ 6) with 64 in S1.
    assert (P0 : 0 <= Z.shiftl (Z.land (byteZ c) 15) 12)
      by (rewrite S0; Z.div_mod_to_equations; lia).
    assert (P1 : 0 <= Z.shiftl (Z.land (byteZ c1) 63) 6)
      by (rewrite S1; Z.div_mod_to_equations; lia).
    assert (P12 : 0 <= Z.lor (Z.shiftl (Z.land (byteZ c1) 63) 6)
                          (Z.land (byteZ c2) 63))
      by (apply Z.lor_nonneg; auto).
    pose proof (lor_lower _ _ P0 P12) as B0.
    pose proof (lor_lower_r _ _ P0 P12) as B12.
    pose proof (lor_lower _ _ P1 N2) as B1.
    clear L0 P0 P1 P12 A.
    byte_bounds; Z.div_mod_to_equations; lia. }
  destruct ((240 <=? byteZ c) && (byteZ c <=? 244)) eqn:E4.
  { destruct t as [|c1 [|c2 [|c3 t3]]]; try (intros E; now apply Herr).
    destruct (isSecond (byteZ c) (byteZ c1) && isCont (byteZ c2)
              && isCont (byteZ c3)) eqn:C1;
      [|intros E; now apply Herr].
    intros E; inversion E; subst; clear E Herr.
    pose proof (byteZ_range c1) as R1. pose proof (byteZ_range c2) as R2.
    pose proof (byteZ_range c3) as R3.
    assert (A : allBytes isHigh
        (takeS 4 (String c (String c1 (String c2 (String c3 t3))))) = true).
    { split_andb. simpl.
      now rewrite Hh, (isSecond_high _ _ H), (isCont_high (byteZ c2)),
        (isCont_high (byteZ c3)). }
    repeat split; simpl; auto with lia.
    destruct (shift_low6 (byteZ c1) 12 ltac:(lia) R1) as [S1 N1].
    destruct (shift_low6 (byteZ c2) 6 ltac:(lia) R2) as [S2 N2].
    destruct (shift_low6 (byteZ c3) 0 ltac:(lia) R3) as [_ N3].
    assert (L0 : Z.land (byteZ c) 7 = byteZ c mod 8)
      by (apply (land_low_bits _ 3); lia).
    assert (S0 : Z.shiftl (Z.land (byteZ c) 7) 18 = (byteZ c mod 8) * 262144)
      by (rewrite Z.shiftl_mul_pow2, L0 by lia; reflexivity).
    change (2 ^ 12) with 4096 in S1. change (2 ^ 6) with 64 in S2.
    assert (P0 : 0 <= Z.shiftl (Z.land (byteZ c) 7) 18)
      by (rewrite S0; Z.div_mod_to_equations; lia).
    assert (P1 : 0 <= Z.shiftl (Z.land (byteZ c1) 63) 12)
      by (rewrite S1; Z.div_mod_to_equations; lia).
    assert (P2 : 0 <= Z.shiftl (Z.land (byteZ c2) 63) 6)
      by (rewrite S2; Z.div_mod_to_equations; lia).
    assert (P23 : 0 <= Z.lor (Z.shiftl (Z.land (byteZ c2) 63) 6)
                          (Z.land (byteZ c3) 63))
      by (apply Z.lor_nonneg; auto).
    assert (P123 : 0 <= Z.lor (Z.shiftl (Z.land (byteZ c1) 63) 12)
                      (Z.lor (Z.shiftl (Z.land (byteZ c2) 63) 6)
                         (Z.land (byteZ c3) 63)))
      by (apply Z.lor_nonneg; auto).
    pose proof (lor_lower _ _ P0 P123) as B0.
    pose proof (lor_lower_r _ _ P0 P123) as B123.
    pose proof (lor_lower _ _ P1 P23) as B1.
    clear S2 L0 P0 P1 P2 P23 P123 A.
    byte_bounds; Z.div_mod_to_equations; lia. }
  intros E; now apply Herr.
Qed.

Lemma decodeRune_width c t :
  (1 <= snd (decodeRune (String c t)))%nat.
Proof.
  destruct (decodeRune (String c t)) as [r n] eqn:E. simpl.
  destruct (Z_lt_le_dec (byteZ c) 128) as [L|L].
  - rewrite decodeRune_ascii in E by assumption. inversion E; lia.
  - destruct (decodeRune_high _ _ _ _ L E) as (_ & ? & _). assumption.
Qed.

Lemma rangeFrom_fuel f f' s :
  (String.length s <= f)%nat -> (String.length s <= f')%nat ->
  rangeFrom f s = rangeFrom f' s.
Proof.
  revert f' s. induction f as [|f IH]; intros f' s Hf Hf'.
  - destruct s; [destruct f'; reflexivity | simpl in Hf; lia].
  - destruct s as [|c t]; [destruct f'; reflexivity|].
    destruct f' as [|f']; [simpl in Hf'; lia|].
    cbn [rangeFrom].
    pose proof (decodeRune_width c t) as Hn.
    destruct (decodeRune (String c t)) as [r n]. simpl in Hn.
    pose proof (dropS_length n (String c t)) as D. simpl in D, Hf, Hf'.
    f_equal. apply IH; lia.
Qed.

Lemma rangeFrom_enough f s :
  (String.length s <= f)%nat -> rangeFrom f s = rangeString s.
Proof. intros H. apply rangeFrom_fuel; auto. Qed.

Lemma rangeString_ascii c t :
  byteZ c < 128 ->
  rangeString (String c t) = (byteZ c, String c EmptyString) :: rangeString t.
Proof.
  intros H. unfold rangeString.
  change (String.length (String c t)) with (S (String.length t)).
  cbn [rangeFrom]. rewrite decodeRune_ascii by assumption. reflexivity.
Qed.

Lemma rangeString_high c t :
  128 <= byteZ c ->
  exists r chunk rest,
    rangeString (String c t) = (r, chunk) :: rangeString rest /\
    128 <= r /\ chunk +:+ rest = String c t /\
    allBytes isHigh chunk = true /\ chunk <> EmptyString.
Proof.
  intros H. unfold rangeString.
  change (String.length (String c t)) with (S (String.length t)).
  cbn [rangeFrom].
  destruct (decodeRune (String c t)) as [r n] eqn:E.
  destruct (decodeRune_high _ _ _ _ H E) as (Hr & Hn & Hl & Ha).
  exists r, (takeS n (String c t)), (dropS n (String c t)).
  repeat split; auto.
  - f_equal. apply rangeFrom_enough.
    pose proof (dropS_length n (String c t)) as D. simpl in D. lia.
  - apply takeS_dropS.
  - destruct n; [lia | discriminate].
Qed.


(** ** Resource names *)

Example parse_read_1 :
  parseResourceNameRead "blobs/abc/5" = ("", Some (mkDigest "abc" 5)).
Proof. vm_compute. reflexivity. Qed.

Example parse_read_2 :
  parseResourceNameRead "my-inst/blobs/abc/5"
  = ("my-inst", Some (mkDigest "abc" 5)).
Proof. vm_compute. reflexivity. Qed.

Example parse_read_3 : parseResourceNameRead "Blobs/abc/5" = ("", None).
Proof. vm_compute. reflexivity. Qed.

Example parse_read_4 :
  parseResourceNameRead "//blobs//ABC/-5/" = ("", Some (mkDigest "ABC" (-5))).
Proof. vm_compute. reflexivity. Qed.

Example parse_read_5 :
  parseResourceNameRead "blobs/abc/9223372036854775808" = ("", None).
Proof. vm_compute. reflexivity. Qed.

Example parse_write_1 :
  parseResourceNameWrite "i/uploads/u-1/blobs/abc/+12"
  = ("i", Some (mkDigest "abc" 12)).
Proof. vm_compute. reflexivity. Qed.


Lemma append_nil_r s : s +:+ EmptyString = s.
Proof.
  induction s as [|c s IH]; [reflexivity|].
  change (String c (s +:+ EmptyString) = String c s). now rewrite IH.
Qed.

Lemma append_assoc s t u : (s +:+ t) +:+ u = s +:+ (t +:+ u).
Proof.
  induction s as [|c s IH]; [reflexivity|].
  change (String c ((s +:+ t) +:+ u) = String c (s +:+ (t +:+ u))).
  now rewrite IH.
Qed.

Lemma append_length s t :
  String.length (s +:+ t) = (String.length s + String.length t)%nat.
Proof.
  induction s as [|c s IH]; [reflexivity|].
  change (S (String.length (s +:+ t))
          = S (String.length s + String.length t)). now rewrite IH.
Qed.

Lemma append_nonempty s c : s +:+ String c EmptyString <> EmptyString.
Proof. destruct s; discriminate. Qed.

Lemma splitOn_high sep chunk rest cur :
  sep < 128 -> allBytes isHigh chunk = true ->
  splitOn sep (chunk +:+ rest) cur = splitOn sep rest (cur +:+ chunk).
Proof.
  intros Hsep. revert cur. induction chunk as [|c chunk IH]; intros cur Ha.
  - now rewrite append_nil_r.
  - simpl in Ha. apply andb_prop in Ha. destruct Ha as [Hc Ha].
    change (String c chunk +:+ rest) with (String c (chunk +:+ rest)).
    cbn [splitOn]. unfold isHigh in Hc. apply Z.leb_le in Hc.
    destruct (Z.eqb_spec (byteZ c) sep); [lia|].
    rewrite IH by assumption. rewrite append_assoc. reflexivity.
Qed.

Lemma fieldsLoop_segments n : forall s cur,
  (String.length s <= n)%nat -> cur <> Some EmptyString ->
  fieldsLoop isSlash (rangeString s) cur
  = filter (fun x => x <> EmptyString) (splitOn 47 s (default EmptyString cur)).
Proof.
  induction n as [|n IH]; intros s cur Hn Hcur.
  - destruct s; [|simpl in Hn; lia]. simpl.
    destruct cur as [c|]; simpl.
    + rewrite filter_cons_True by congruence. reflexivity.
    + rewrite filter_cons_False by (intros X; now apply X). reflexivity.
  - destruct s as [|c t].
    { simpl. destruct cur as [c0|]; simpl.
      + rewrite filter_cons_True by congruence. reflexivity.
      + rewrite filter_cons_False by (intros X; now apply X). reflexivity. }
    simpl in Hn.
    destruct (Z_lt_le_dec (byteZ c) 128) as [L|L].
    + rewrite rangeString_ascii by assumption. cbn [fieldsLoop splitOn].
      unfold isSlash at 1.
      destruct (Z.eqb_spec (byteZ c) 47) as [E|E].
      * destruct cur as [c0|]; simpl default.
        -- rewrite filter_cons_True by congruence. f_equal.
           apply (IH t None); [lia | discriminate].
        -- rewrite filter_cons_False by (intros X; now apply X).
           apply (IH t None); [lia | discriminate].
      * destruct cur as [c0|]; simpl default.
        -- apply (IH t (Some (c0 +:+ String c EmptyString))); [lia|].
           intros X. inversion X as [X']. now apply append_nonempty in X'.
        -- apply (IH t (Some (String c EmptyString))); [lia | discriminate].
    + destruct (rangeString_high c t L)
        as (r & chunk & rest & Hr & Hge & Happ & Hhigh & Hne).
      rewrite Hr. cbn [fieldsLoop]. unfold isSlash at 1.
      destruct (Z.eqb_spec r 47) as [E|E]; [lia|].
      rewrite <- Happ. rewrite splitOn_high by (auto; lia).
      assert (Hlen : (String.length rest <= n)%nat).
      { assert (X : String.length (chunk +:+ rest)
                    = String.length (String c t)) by now rewrite Happ.
        rewrite append_length in X. simpl in X.
        destruct chunk; [congruence | simpl in X; lia]. }
      destruct cur as [c0|]; simpl default.
      * apply (IH rest (Some (c0 +:+ chunk))); [assumption|].
        intros X. inversion X as [X']. destruct c0; [congruence | discriminate].
      * apply (IH rest (Some chunk)); [assumption | congruence].
Qed.

(** strings.FieldsFunc on '/' yields the non-empty pieces between slash
    bytes: decoding code points changes nothing for an ASCII separator. *)
Lemma FieldsFunc_segments s : FieldsFunc s isSlash = segments s.
Proof.
  unfold FieldsFunc, segments.
  apply (fieldsLoop_segments (String.length s) s None); [lia | discriminate].
Qed.

Lemma wrap64_id z : int64Range z -> wrap64 z = z.
Proof.
  unfold int64Range, wrap64. intros H.
  rewrite Z.mod_small by lia. lia.
Qed.

Lemma isDigit_range b : isDigit b = true <-> 48 <= b <= 57.
Proof.
  unfold isDigit. rewrite andb_true_iff, !Z.leb_le. tauto.
Qed.

Lemma decimalValue_nonneg ds :
  allBytes isDigit ds = true -> 0 <= decimalValue ds.
Proof.
  induction ds as [|c t IH]; simpl; [lia|].
  intros H. apply andb_prop in H. destruct H as [Hc Ht].
  apply isDigit_range in Hc. specialize (IH Ht).
  assert (0 < 10 ^ Z.of_nat (String.length t)) by (apply Z.pow_pos_nonneg; lia).
  nia.
Qed.

Lemma parseUintLoop_spec s : forall n v,
  0 <= n < 2 ^ 64 ->
  parseUintLoop s n = inl v <->
  allBytes isDigit s = true /\
  v = n * 10 ^ Z.of_nat (String.length s) + decimalValue s /\ v < 2 ^ 64.
Proof.
  induction s as [|c t IH]; intros n v Hn.
  - simpl. split.
    + intros E. inversion E; subst. repeat split; lia.
    + intros (_ & -> & _). f_equal. lia.
  - cbn [parseUintLoop allBytes decimalValue String.length].
    rewrite Nat2Z.inj_succ, Z.pow_succ_r by lia.
    set (k := 10 ^ Z.of_nat (String.length t)).
    assert (Hk : 0 < k) by (apply Z.pow_pos_nonneg; lia).
    destruct (isDigit (byteZ c)) eqn:Dc.
    + apply isDigit_range in Dc.
      destruct (Z.leb_spec (2 ^ 64) (n * 10 + (byteZ c - 48))) as [Hov|Hok].
      * split; [discriminate|].
        intros (Ht & -> & Hlt). exfalso.
        pose proof (decimalValue_nonneg t Ht). nia.
      * rewrite IH by lia. fold k. simpl andb.
        split; intros (Ht & -> & Hlt); repeat split; auto; lia.
    + simpl andb. split; [discriminate | intros (X & _); discriminate].
Qed.

Lemma ParseUint_spec s v :
  ParseUint s = inl v <-> isDigits s /\ v = decimalValue s /\ v < 2 ^ 64.
Proof.
  unfold ParseUint, isDigits. destruct s as [|c t].
  - split; [discriminate | intros ((X & _) & _); congruence].
  - rewrite parseUintLoop_spec by lia. rewrite Z.mul_0_l, Z.add_0_l.
    split.
    + intros (A & B & C). repeat split; auto; discriminate.
    + intros ((_ & A) & B & C). auto.
Qed.

Lemma isDigits_head c t : isDigits (String c t) -> 48 <= byteZ c <= 57.
Proof.
  intros (_ & H). simpl in H. apply andb_prop in H.
  now apply isDigit_range.
Qed.

Lemma byteZ_inj c1 c2 : byteZ c1 = byteZ c2 -> c1 = c2.
Proof.
  unfold byteZ. intros E. apply Nat2Z.inj in E.
  rewrite <- (ascii_nat_embedding c1), <- (ascii_nat_embedding c2).
  now rewrite E.
Qed.

(** strconv.ParseInt(s, 10, 64) accepts exactly the decimal integers, with
    an optional sign, that a signed 64-bit integer holds. *)
Lemma ParseInt_spec s z :
  ParseInt s = inl z <-> decimalInteger s z /\ int64Range z.
Proof.
  unfold ParseInt. destruct s as [|c t].
  { split; [discriminate|]. intros (D & _).
    inversion D as [ds (X & _) | |]; subst; congruence. }
  destruct (Z.eqb_spec (byteZ c) 45) as [Em|Nm].
  - (* '-' *)
    assert (c = "-"%char) by (apply byteZ_inj; rewrite Em; reflexivity).
    subst c. rewrite orb_true_r. cbn [orb negb andb].
    split.
    + destruct (ParseUint t) as [un|e] eqn:P; [|discriminate].
      apply ParseUint_spec in P. destruct P as (Dg & -> & Hlt).
      pose proof (decimalValue_nonneg t (proj2 Dg)) as Hnn.
      destruct (Z.ltb_spec (2 ^ 63) (decimalValue t)); [discriminate|].
      intros E. inversion E; subst.
      assert (R : int64Range (- decimalValue t)) by (unfold int64Range; lia).
      rewrite wrap64_id by assumption. split; [now constructor | assumption].
    + intros (Dc & R). inversion Dc as [ds Dg | | ds Dg]; subst.
      * apply isDigits_head in Dg. rewrite Em in Dg. lia.
      * assert (P : ParseUint t = inl (decimalValue t)).
        { apply ParseUint_spec. repeat split; try apply Dg.
          unfold int64Range in R. lia. }
        rewrite P. unfold int64Range in R.
        destruct (Z.ltb_spec (2 ^ 63) (decimalValue t)); [lia|].
        now rewrite wrap64_id.
  - destruct (Z.eqb_spec (byteZ c) 43) as [Ep|Np].
    + (* '+' *)
      assert (c = "+"%char) by (apply byteZ_inj; rewrite Ep; reflexivity).
      subst c. cbn [orb negb andb].
      split.
      * destruct (ParseUint t) as [un|e] eqn:P; [|discriminate].
        apply ParseUint_spec in P. destruct P as (Dg & -> & Hlt).
        pose proof (decimalValue_nonneg t (proj2 Dg)) as Hnn.
        destruct (Z.leb_spec (2 ^ 63) (decimalValue t)); [discriminate|].
        intros E. inversion E; subst.
        assert (R : int64Range (decimalValue t)) by (unfold int64Range; lia).
        rewrite wrap64_id by assumption. split; [now constructor | assumption].
      * intros (Dc & R). inversion Dc as [ds Dg | ds Dg | ]; subst.
        -- apply isDigits_head in Dg. rewrite Ep in Dg. lia.
        -- assert (P : ParseUint t = inl (decimalValue t)).
           { apply ParseUint_spec. repeat split; try apply Dg.
             unfold int64Range in R. lia. }
           rewrite P. unfold int64Range in R.
           destruct (Z.leb_spec (2 ^ 63) (decimalValue t)); [lia|].
           now rewrite wrap64_id.
    + (* no sign *)
      cbn [orb negb andb].
      split.
      * destruct (ParseUint (String c t)) as [un|e] eqn:P; [|discriminate].
        apply ParseUint_spec in P. destruct P as (Dg & -> & Hlt).
        pose proof (decimalValue_nonneg _ (proj2 Dg)) as Hnn.
        destruct (Z.leb_spec (2 ^ 63) (decimalValue (String c t)));
          [discriminate|].
        intros E. inversion E; subst.
        assert (R : int64Range (decimalValue (String c t)))
          by (unfold int64Range; lia).
        rewrite wrap64_id by assumption. split; [now constructor | assumption].
      * intros (Dc & R). inversion Dc as [ds Dg | ds Dg | ds Dg]; subst.
        -- assert (P : ParseUint (String c t)
                       = inl (decimalValue (String c t))).
           { apply ParseUint_spec. repeat split; try apply Dg.
             unfold int64Range in R. lia. }
           rewrite P. unfold int64Range in R.
           destruct (Z.leb_spec (2 ^ 63) (decimalValue (String c t))); [lia|].
           now rewrite wrap64_id.
        -- exfalso. apply Np. reflexivity.
        -- exfalso. apply Nm. reflexivity.
Qed.

Lemma segments_nonempty name x : x ∈ segments name -> x <> EmptyString.
Proof. unfold segments. intros H. now apply list_elem_of_filter in H. Qed.

Lemma parseResourceNameRead_spec name instance digest :
  parseResourceNameRead name = (instance, Some digest)
  <-> readForm name instance digest.
Proof.
  unfold parseResourceNameRead, readForm, readSegments.
  rewrite FieldsFunc_segments.
  destruct (segments name) as [|f0 [|f1 [|f2 [|f3 [|f4 fs]]]]] eqn:Seg;
    cbn [length Nat.eqb negb andb orb Nat.sub field nth].
  1-3, 6: split; [discriminate|];
    intros (size & [(_ & E) | E] & _); discriminate.
  - (* three fields *)
    destruct (String.eqb_spec f0 "blobs") as [E0|N0]; cbn [negb].
    + subst f0. split.
      * destruct (ParseInt f2) as [z|e] eqn:P; [|discriminate].
        intros E. inversion E; subst. exists f2.
        apply ParseInt_spec in P. simpl. tauto.
      * intros (size & [(-> & E) | E] & Dc & R); [|discriminate].
        inversion E; subst.
        assert (P : ParseInt size = inl (SizeBytes digest))
          by (apply ParseInt_spec; auto).
        rewrite P. destruct digest; reflexivity.
    + split; [discriminate|].
      intros (size & [(_ & E) | E] & _); [|discriminate].
      inversion E; congruence.
  - (* four fields *)
    destruct (String.eqb_spec f1 "blobs") as [E1|N1]; cbn [negb].
    + subst f1. split.
      * destruct (ParseInt f3) as [z|e] eqn:P; [|discriminate].
        intros E. inversion E; subst. exists f3.
        apply ParseInt_spec in P. simpl. tauto.
      * intros (size & [(_ & E) | E] & Dc & R); [discriminate|].
        inversion E; subst.
        assert (P : ParseInt size = inl (SizeBytes digest))
          by (apply ParseInt_spec; auto).
        rewrite P. destruct digest; reflexivity.
    + split; [discriminate|].
      intros (size & [(_ & E) | E] & _); [discriminate|].
      inversion E; congruence.
Qed.

Lemma parseResourceNameWrite_spec name instance digest :
  parseResourceNameWrite name = (instance, Some digest)
  <-> writeForm name instance digest.
Proof.
  unfold parseResourceNameWrite, writeForm, writeSegments.
  rewrite FieldsFunc_segments.
  destruct (segments name) as [|f0 [|f1 [|f2 [|f3 [|f4 [|f5 [|f6 fs]]]]]]]
    eqn:Seg;
    cbn [length Nat.eqb negb andb orb Nat.sub field nth].
  1-5, 8: split; [discriminate|];
    intros (size & (uuid & [(_ & E) | E]) & _); discriminate.
  - (* five fields *)
    destruct (String.eqb_spec f0 "uploads") as [E0|N0]; cbn [negb orb].
    + destruct (String.eqb_spec f2 "blobs") as [E2|N2]; cbn [negb].
      * subst f0 f2. split.
        -- destruct (ParseInt f4) as [z|e] eqn:P; [|discriminate].
           intros E. inversion E; subst. exists f4.
           apply ParseInt_spec in P. simpl.
           split; [exists f1; tauto | tauto].
        -- intros (size & (uuid & [(-> & E) | E]) & Dc & R); [|discriminate].
           inversion E; subst.
           assert (P : ParseInt size = inl (SizeBytes digest))
             by (apply ParseInt_spec; auto).
           rewrite P. destruct digest; reflexivity.
      * split; [discriminate|].
        intros (size & (uuid & [(_ & E) | E]) & _); [|discriminate].
        inversion E; congruence.
    + split; [discriminate|].
      intros (size & (uuid & [(_ & E) | E]) & _); [|discriminate].
      inversion E; congruence.
  - (* six fields *)
    destruct (String.eqb_spec f1 "uploads") as [E1|N1]; cbn [negb orb].
    + destruct (String.eqb_spec f3 "blobs") as [E3|N3]; cbn [negb].
      * subst f1 f3. split.
        -- destruct (ParseInt f5) as [z|e] eqn:P; [|discriminate].
           intros E. inversion E; subst. exists f5.
           apply ParseInt_spec in P. simpl.
           split; [exists f2; tauto | tauto].
        -- intros (size & (uuid & [(_ & E) | E]) & Dc & R); [discriminate|].
           inversion E; subst.
           assert (P : ParseInt size = inl (SizeBytes digest))
             by (apply ParseInt_spec; auto).
           rewrite P. destruct digest; reflexivity.
      * split; [discriminate|].
        intros (size & (uuid & [(_ & E) | E]) & _); [discriminate|].
        inversion E; congruence.
    + split; [discriminate|].
      intros (size & (uuid & [(_ & E) | E]) & _); [discriminate|].
      inversion E; congruence.
Qed.

Lemma parseResourceNameRead_total name :
  parseResourceNameRead name = (EmptyString, None) \/
  exists instance digest,
    parseResourceNameRead name = (instance, Some digest).
Proof.
  unfold parseResourceNameRead.
  destruct (_ || _); [now left|].
  destruct (ParseInt _); [right; eauto | now left].
Qed.

Lemma parseResourceNameWrite_total name :
  parseResourceNameWrite name = (EmptyString, None) \/
  exists instance digest,
    parseResourceNameWrite name = (instance, Some digest).
Proof.
  unfold parseResourceNameWrite.
  destruct (_ || _); [now left|].
  destruct (ParseInt _); [right; eauto | now left].
Qed.

(** C6, counterexample: a name of the documented read form whose size is a
    decimal integer just beyond the signed 64-bit range is rejected, and so
    is the corresponding upload name. *)
Lemma documented_size_beyond_int64_is_rejected :
  (readFormDocumented "blobs/abc/9223372036854775808" /\
   parseResourceNameRead "blobs/abc/9223372036854775808"
   = (EmptyString, None)) /\
  (writeFormDocumented "uploads/u/blobs/abc/9223372036854775808" /\
   parseResourceNameWrite "uploads/u/blobs/abc/9223372036854775808"
   = (EmptyString, None)).
Proof.
  split; split; try (vm_compute; reflexivity).
  - exists EmptyString, "abc", "9223372036854775808",
      (decimalValue "9223372036854775808").
    split.
    + left. split; [reflexivity | vm_compute; reflexivity].
    + apply dec_unsigned. split; [discriminate | vm_compute; reflexivity].
  - exists EmptyString, "abc", "9223372036854775808",
      (decimalValue "9223372036854775808").
    split.
    + exists "u". left. split; [reflexivity | vm_compute; reflexivity].
    + apply dec_unsigned. split; [discriminate | vm_compute; reflexivity].
Qed.

(** A Read request for part of a blob is answered Unimplemented before its
    name is looked at. *)
Example partial_read_is_unimplemented :
  ByteStream.byteStreamServer_Read Scenario.nullGet
    (fun _ w => (None, w)) 64%nat 8
    (ByteStream.mkReadRequest "Blobs/abc/5" 1 0) Scenario.quiet
  = Some (Some (StatusError Unimplemented
                  "This service does not support downloading partial files"
                  []), Scenario.quiet).
Proof. reflexivity. Qed.

(** C6, as the code has it: the parsers accept exactly the names whose
    non-empty slash-delimited segments are [{instance}] blobs {hash} {size}
    (read) or [{instance}] uploads {uuid} blobs {hash} {size} (write), the
    size being a decimal integer with an optional sign that fits a signed
    64-bit integer; every other name yields no digest, and a Read request
    without offset and limit, or a Write stream whose first request carries
    such a name, fails with InvalidArgument. *)
Theorem resource_names_accepted_exactly :
  (forall name instance digest,
     parseResourceNameRead name = (instance, Some digest)
     <-> readForm name instance digest) /\
  (forall name instance digest,
     parseResourceNameWrite name = (instance, Some digest)
     <-> writeForm name instance digest) /\
  (forall name,
     ~ (exists instance digest, readForm name instance digest) ->
     parseResourceNameRead name = (EmptyString, None)) /\
  (forall name,
     ~ (exists instance digest, writeForm name instance digest) ->
     parseResourceNameWrite name = (EmptyString, None)) /\
  (forall W RC (rc : ReadCloser W RC) Get Send chunk fuel req (w : W),
     ByteStream.ReadOffset req = 0 -> ByteStream.ReadLimit req = 0 ->
     ~ (exists instance digest,
          readForm (ByteStream.rdResourceName req) instance digest) ->
     ByteStream.byteStreamServer_Read Get Send chunk fuel req w
     = Some (Some (StatusError InvalidArgument
                     "Invalid resource naming scheme" []), w)) /\
  (forall W Put first rest e (w : W),
     ~ (exists instance digest,
          writeForm (ByteStream.ResourceName first) instance digest) ->
     ByteStream.byteStreamServer_Write Put
       (ByteStream.mkWriteServer (first :: rest) e) w
     = Returned (Some (StatusError InvalidArgument
                         "Invalid resource naming scheme" []))
         (ByteStream.mkWriteServer rest e) w).
Proof.
  assert (R : forall name,
    ~ (exists instance digest, readForm name instance digest) ->
    parseResourceNameRead name = (EmptyString, None)).
  { intros name N. destruct (parseResourceNameRead_total name)
      as [E | (i & d & E)]; [assumption|].
    exfalso. apply N. exists i, d. now apply parseResourceNameRead_spec. }
  assert (Wr : forall name,
    ~ (exists instance digest, writeForm name instance digest) ->
    parseResourceNameWrite name = (EmptyString, None)).
  { intros name N. destruct (parseResourceNameWrite_total name)
      as [E | (i & d & E)]; [assumption|].
    exfalso. apply N. exists i, d. now apply parseResourceNameWrite_spec. }
  repeat split.
  - apply parseResourceNameRead_spec.
  - apply parseResourceNameRead_spec.
  - apply parseResourceNameWrite_spec.
  - apply parseResourceNameWrite_spec.
  - assumption.
  - assumption.
  - intros W RC rc Get Send chunk fuel req w Ho Hl N.
    unfold ByteStream.byteStreamServer_Read.
    rewrite Ho, Hl. simpl. now rewrite (R _ N).
  - intros W Put first rest e w N.
    unfold ByteStream.byteStreamServer_Write. simpl.
    now rewrite (Wr _ N).
Qed.

(** ** ByteStream Write *)

Lemma exec_bind {W R A B} `{ReadCloser W R} (p : Prog W A)
    (f : A -> Prog W B) : forall (r : R) (w : W),
  exec (bind p f) r w
  = match exec p r w with
    | Returned a r1 w1 => exec (f a) r1 w1
    | Exited msg => Exited msg
    end.
Proof.
  induction p as [a | len k IH | k IH | k IH | w0 k IH | msg];
    intros r w; cbn [bind exec]; auto.
  - destruct (Read r len w) as [[res r1] w1]. apply IH.
  - destruct (Close r w) as [[e r1] w1]. apply IH.
Qed.

Import ByteStream.

Lemma readLoop_view reqs1 : forall reqs2 e wo d p n,
  laterView reqs1 = laterView reqs2 ->
  fst (readLoop reqs1 e wo d p n) = fst (readLoop reqs2 e wo d p n) /\
  readerView (snd (readLoop reqs1 e wo d p n))
  = readerView (snd (readLoop reqs2 e wo d p n)).
Proof.
  induction reqs1 as [|q1 reqs1 IH]; intros reqs2 e wo d p n Hv;
    destruct reqs2 as [|q2 reqs2]; try discriminate.
  - split; reflexivity.
  - cbn [laterView map] in Hv. inversion Hv as [[Ho Hd Hr]].
    cbn [readLoop]. rewrite Ho, Hd.
    destruct (_ =? 0)%nat.
    + split; [reflexivity|]. unfold readerView. simpl.
      unfold laterView in *. now rewrite Ho, Hd, Hr.
    + destruct (negb _).
      * split; [reflexivity|]. unfold readerView. simpl.
        unfold laterView in *. now rewrite Hr.
      * apply IH. exact Hr.
Qed.

Lemma reader_Read_view r1 r2 p :
  readerView r1 = readerView r2 ->
  fst (byteStreamWriteServerReader_Read r1 p)
  = fst (byteStreamWriteServerReader_Read r2 p) /\
  readerView (snd (byteStreamWriteServerReader_Read r1 p))
  = readerView (snd (byteStreamWriteServerReader_Read r2 p)).
Proof.
  unfold readerView at 1 2, byteStreamWriteServerReader_Read. intros E.
  inversion E as [[Hv He Ho Hd]]. rewrite He, Ho, Hd.
  now apply readLoop_view.
Qed.

Lemma exec_view {W A} (p : Prog W A) : forall r1 r2 (w : W),
  readerView r1 = readerView r2 ->
  match exec p r1 w, exec p r2 w with
  | Returned a1 s1 w1, Returned a2 s2 w2 =>
    a1 = a2 /\ w1 = w2 /\ readerView s1 = readerView s2
  | Exited m1, Exited m2 => m1 = m2
  | _, _ => False
  end.
Proof.
  induction p as [a | len k IH | k IH | k IH | w0 k IH | msg];
    intros r1 r2 w E; cbn [exec]; auto.
  - cbn [Read byteStreamWriteServerReader_ReadCloser].
    destruct (reader_Read_view r1 r2 len E) as [E1 E2].
    destruct (byteStreamWriteServerReader_Read r1 len) as [res1 s1].
    destruct (byteStreamWriteServerReader_Read r2 len) as [res2 s2].
    simpl in E1, E2. subst res2. now apply IH.
  - cbn [Close byteStreamWriteServerReader_ReadCloser]. now apply IH.
  - now apply IH.
  - now apply IH.
Qed.

(** C10: the Write handler reads the resource name and the data of the
    first request and the offset and the data of every later request, and
    nothing else: two streams that agree on these end the same way, whatever
    the store behind the service does with the reader. *)
Theorem write_depends_only_on_what_it_reads :
  forall W (Put : string -> Digest -> Z -> Prog W (option error))
         (s1 s2 : WriteServer) (w : W),
    streamView s1 = streamView s2 ->
    outcomeView (byteStreamServer_Write Put s1 w)
    = outcomeView (byteStreamServer_Write Put s2 w).
Proof.
  intros W Put s1 s2 w E.
  unfold byteStreamServer_Write, Recv, streamView in *.
  destruct s1 as [[|q1 in1] e1], s2 as [[|q2 in2] e2]; simpl in *;
    try discriminate.
  - inversion E; subst. reflexivity.
  - inversion E as [[Hn Hd Hv He]]. rewrite Hn, Hd.
    destruct (parseResourceNameWrite (ResourceName q2)) as [instance [d|]].
    + match goal with
      | |- context [exec ?p ?r1 w] =>
        match goal with
        | |- context [outcomeView (match exec p ?r2 w with _ => _ end)
                      = outcomeView (match exec p ?r3 w with _ => _ end)] =>
          pose proof (exec_view p r2 r3 w) as X
        end
      end.
      lapply X; [clear X; intros X | unfold readerView; simpl; now rewrite Hv].
      destruct (exec _ _ w) as [a1 r1 w1|m1];
        destruct (exec _ _ w) as [a2 r2 w2|m2]; try contradiction.
      * destruct X as (-> & -> & X). unfold readerView in X.
        inversion X. simpl. congruence.
      * now subst.
    + simpl. now rewrite Hv.
Qed.

Lemma dataOf_cons q g : dataOf (q :: g) = Data q ++ dataOf g.
Proof. reflexivity. Qed.

(** One call of Read on a reader whose pending requests agree with the
    running total up to [rest]: either the buffer is filled, or everything
    up to [rest] is delivered together with the error that stops there. *)
Lemma readLoop_agree good : forall rest e wo d p n,
  offsetsAgree wo good ->
  stopsAt (wo + Z.of_nat (length (dataOf good))) rest ->
  0 <= wo -> wo + Z.of_nat (length (dataOf good)) < 2 ^ 63 ->
  (1 <= p)%nat ->
  ((p <= length (d ++ dataOf good))%nat ->
   exists d1 good1 wo1,
     readLoop (good ++ rest) e wo d p n
     = ((n ++ take p (d ++ dataOf good), None),
        mkReader (mkWriteServer (good1 ++ rest) e) wo1 d1) /\
     d1 ++ dataOf good1 = drop p (d ++ dataOf good) /\
     offsetsAgree wo1 good1 /\
     wo1 + Z.of_nat (length (dataOf good1))
     = wo + Z.of_nat (length (dataOf good)) /\
     0 <= wo1) /\
  ((length (d ++ dataOf good) < p)%nat ->
   readLoop (good ++ rest) e wo d p n
   = ((n ++ d ++ dataOf good,
       Some (stopError e (wo + Z.of_nat (length (dataOf good))) rest)),
      mkReader (mkWriteServer (tl rest) e)
        (wo + Z.of_nat (length (dataOf good))) [])).
Proof.
  induction good as [|q g IH]; intros rest e wo d p n Hag Hstop Hwo Hlt Hp.
  - (* nothing left that agrees *)
    cbn [dataOf map concat app] in *. rewrite app_nil_r in *.
    rewrite Z.add_0_r in *.
    split.
    + intros Hle. exists (drop p d), [], wo.
      destruct rest as [|bad rest]; cbn [readLoop app];
        rewrite Nat.min_l by lia;
        replace (p - p)%nat with 0%nat by lia; cbn [Nat.eqb];
        cbn [dataOf map concat]; rewrite app_nil_r, Z.add_0_r; auto.
    + intros Hgt.
      destruct rest as [|bad rest]; cbn [readLoop app];
        rewrite Nat.min_r by lia;
        destruct (Nat.eqb_spec (p - length d) 0); try lia;
        rewrite firstn_all, drop_all; cbn [stopError tl].
      * reflexivity.
      * simpl in Hstop.
        destruct (Z.eqb_spec (WriteOffset bad) wo); [contradiction|].
        reflexivity.
  - destruct Hag as [Hq Hag]. rewrite dataOf_cons in *.
    rewrite length_app, Nat2Z.inj_add in *.
    change ((q :: g) ++ rest) with (q :: (g ++ rest)).
    destruct (le_lt_dec p (length d)) as [Hpd|Hpd].
    + (* the buffer is filled from the data at hand *)
      split; [|rewrite length_app; lia].
      intros _. exists (drop p d), (q :: g), wo.
      cbn [readLoop]. rewrite Nat.min_l by lia.
      replace (p - p)%nat with 0%nat by lia. cbn [Nat.eqb].
      rewrite take_app_le, drop_app_le by lia.
      rewrite dataOf_cons, length_app, Nat2Z.inj_add. cbn [offsetsAgree].
      repeat split; auto.
    + (* the next request is received *)
      assert (Hstep :
        readLoop (q :: g ++ rest) e wo d p n
        = readLoop (g ++ rest) e (wo + Z.of_nat (length (Data q))) (Data q)
            (p - length d) (n ++ d)).
      { cbn [readLoop]. rewrite Nat.min_r by lia.
        destruct (Nat.eqb_spec (p - length d) 0); try lia.
        rewrite Hq. rewrite Z.eqb_refl. cbn [negb].
        rewrite firstn_all.
        rewrite wrap64_id by (unfold int64Range; lia). reflexivity. }
      rewrite Hstep.
      specialize (IH rest e (wo + Z.of_nat (length (Data q))) (Data q)
                    (p - length d)%nat (n ++ d) Hag).
      rewrite <- Z.add_assoc in IH.
      specialize (IH Hstop ltac:(lia) ltac:(lia) ltac:(lia)).
      destruct IH as [IHa IHb]. split.
      * intros Hle. rewrite !length_app in Hle.
        destruct IHa as (d1 & good1 & wo1 & E & Hd & Hag1 & Hw & Hwo1).
        { rewrite length_app. lia. }
        exists d1, good1, wo1. rewrite E.
        rewrite (take_app_ge d), (drop_app_ge d) by lia.
        rewrite <- app_assoc. repeat split; auto.
        rewrite length_app, Nat2Z.inj_add. lia.
      * intros Hgt. rewrite !length_app in Hgt.
        rewrite IHb by (rewrite length_app; lia).
        rewrite <- !app_assoc. rewrite length_app, Nat2Z.inj_add.
        reflexivity.
Qed.

Lemma readAllFrom_agree fuel : forall W (w : W) bufs good rest e wo d i acc,
  (forall j, (1 <= bufs j)%nat) ->
  offsetsAgree wo good ->
  stopsAt (wo + Z.of_nat (length (dataOf good))) rest ->
  0 <= wo -> wo + Z.of_nat (length (dataOf good)) < 2 ^ 63 ->
  (length (d ++ dataOf good) < fuel)%nat ->
  exec (readAllFrom fuel bufs i acc)
    (mkReader (mkWriteServer (good ++ rest) e) wo d) w
  = Returned
      (Some (acc ++ d ++ dataOf good,
             nilIfEOF
               (stopError e (wo + Z.of_nat (length (dataOf good))) rest)))
      (mkReader (mkWriteServer (tl rest) e)
         (wo + Z.of_nat (length (dataOf good))) []) w.
Proof.
  induction fuel as [|f IH];
    intros W w bufs good rest e wo d i acc Hb Hag Hstop Hwo Hlt Hf;
    [lia|].
  cbn [readAllFrom exec Read byteStreamWriteServerReader_ReadCloser].
  unfold byteStreamWriteServerReader_Read.
  cbn [stream incoming recvError writeOffset data].
  destruct (readLoop_agree good rest e wo d (bufs i) [] Hag Hstop Hwo Hlt
              (Hb i)) as [Ha Hbig].
  destruct (le_lt_dec (bufs i) (length (d ++ dataOf good))) as [Hle|Hgt].
  - destruct (Ha Hle) as (d1 & good1 & wo1 & E & Hd & Hag1 & Hw & Hwo1).
    rewrite E. cbn [app].
    assert (Hlen : (length (d1 ++ dataOf good1) < f)%nat).
    { rewrite Hd, length_drop. specialize (Hb i). lia. }
    rewrite <- Hw in Hstop, Hlt.
    rewrite (IH W w bufs good1 rest e wo1 d1 (S i) _ Hb Hag1 Hstop Hwo1 Hlt
               Hlen).
    rewrite Hw. rewrite Hd. rewrite <- app_assoc, take_drop. reflexivity.
  - rewrite (Hbig Hgt). reflexivity.
Qed.

(** C7: once the first request is in, a later request whose write_offset
    differs from the number of data bytes of all requests before it makes
    the reader of the stream deliver those bytes and then fail with the
    offset error, and the Write (here into the Redis store) fails with it,
    storing nothing; requests that carry the running total are read
    through to the end of the stream. *)
Theorem write_offset_must_equal_bytes_so_far :
  forall (blobKeyer : string -> Digest -> string + error)
         (bufs : nat -> nat) (fuel : nat)
         (first : WriteRequest) (good : list WriteRequest)
         (bad : WriteRequest) (rest : list WriteRequest) (e : error)
         (instance : string) (digest : Digest) (w : Redis.World),
    parseResourceNameWrite (ResourceName first) = (instance, Some digest) ->
    Redis.ctxErr w = None ->
    (forall j, (1 <= bufs j)%nat) ->
    offsetsAgree (Z.of_nat (length (Data first))) good ->
    WriteOffset bad <> Z.of_nat (length (Data first ++ dataOf good)) ->
    Z.of_nat (length (Data first ++ dataOf good)) < 2 ^ 63 ->
    (length (Data first ++ dataOf good) < fuel)%nat ->
    exec (ReadAll fuel bufs)
      (mkReader (mkWriteServer (good ++ bad :: rest) e)
         (Z.of_nat (length (Data first))) (Data first)) w
    = Returned
        (Some (Data first ++ dataOf good,
               Some (offsetError (WriteOffset bad)
                       (Z.of_nat (length (Data first ++ dataOf good))))))
        (mkReader (mkWriteServer rest e)
           (Z.of_nat (length (Data first ++ dataOf good))) []) w /\
    byteStreamServer_Write
      (fun i d _ => Redis.Put blobKeyer fuel bufs i d)
      (mkWriteServer (first :: good ++ bad :: rest) e) w
    = Returned
        (Some (offsetError (WriteOffset bad)
                 (Z.of_nat (length (Data first ++ dataOf good)))))
        (mkWriteServer rest e) w /\
    (forall later,
       offsetsAgree (Z.of_nat (length (Data first))) later ->
       Z.of_nat (length (Data first ++ dataOf later)) < 2 ^ 63 ->
       (length (Data first ++ dataOf later) < fuel)%nat ->
       exec (ReadAll fuel bufs)
         (mkReader (mkWriteServer later e)
            (Z.of_nat (length (Data first))) (Data first)) w
       = Returned
           (Some (Data first ++ dataOf later,
                  nilIfEOF e))
           (mkReader (mkWriteServer [] e)
              (Z.of_nat (length (Data first ++ dataOf later))) []) w).
Proof.
  intros blobKeyer bufs fuel first good bad rest e instance digest w
    Hparse Hctx Hb Hag Hbad Hlt Hf.
  rewrite length_app, Nat2Z.inj_add in Hbad, Hlt.
  assert (Hread :
    exec (ReadAll fuel bufs)
      (mkReader (mkWriteServer (good ++ bad :: rest) e)
         (Z.of_nat (length (Data first))) (Data first)) w
    = Returned
        (Some (Data first ++ dataOf good,
               Some (offsetError (WriteOffset bad)
                       (Z.of_nat (length (Data first ++ dataOf good))))))
        (mkReader (mkWriteServer rest e)
           (Z.of_nat (length (Data first ++ dataOf good))) []) w).
  { unfold ReadAll.
    rewrite (readAllFrom_agree fuel Redis.World w bufs good (bad :: rest) e
               (Z.of_nat (length (Data first))) (Data first) 0%nat []
               Hb Hag Hbad ltac:(lia) Hlt Hf).
    cbn [stopError tl app]. rewrite length_app, Nat2Z.inj_add.
    reflexivity. }
  split; [exact Hread|]. split.
  - unfold byteStreamServer_Write, Recv. cbn [incoming recvError].
    rewrite Hparse. unfold Redis.Put. cbn [exec]. rewrite Hctx.
    rewrite exec_bind. rewrite Hread.
    cbn [exec Close byteStreamWriteServerReader_ReadCloser].
    reflexivity.
  - intros later Hag' Hlt' Hf'. unfold ReadAll.
    rewrite length_app, Nat2Z.inj_add in Hlt'.
    pose proof (readAllFrom_agree fuel Redis.World w bufs later [] e
               (Z.of_nat (length (Data first))) (Data first) 0%nat []
               Hb Hag' I ltac:(lia) Hlt' Hf') as X.
    rewrite app_nil_r in X. rewrite X.
    cbn [stopError tl app]. rewrite length_app, Nat2Z.inj_add.
    reflexivity.
Qed.

(** The theorem on C7 at a three-request upload whose last request claims
    offset 7 after 3 bytes. *)
Lemma write_offset_witness :
  byteStreamServer_Write Scenario.redisPut
    (mkWriteServer
       [Scenario.uploadFirst; Scenario.uploadSecond; Scenario.uploadBad] EOF)
    Scenario.emptyRedis
  = Returned (Some (offsetError 7 3)) (mkWriteServer [] EOF)
      Scenario.emptyRedis.
Proof.
  refine (proj1 (proj2
    (write_offset_must_equal_bytes_so_far Scenario.keyByHash
       Scenario.fourBytes 8 Scenario.uploadFirst [Scenario.uploadSecond]
       Scenario.uploadBad [] EOF EmptyString (mkDigest "abc" 3)
       Scenario.emptyRedis _ _ _ _ _ _ _))).
  - vm_compute. reflexivity.
  - reflexivity.
  - intros j. unfold Scenario.fourBytes. lia.
  - simpl. split; [reflexivity | exact I].
  - simpl. lia.
  - simpl. lia.
  - simpl. lia.
Defined.

(** The theorem on C10 at two uploads that differ in the write_offset and
    finish_write of the first request and in the resource_name of the
    second. *)
Lemma write_ignored_fields_witness :
  outcomeView
    (byteStreamServer_Write Scenario.redisPut
       (mkWriteServer [Scenario.uploadFirst; Scenario.uploadSecond] EOF)
       Scenario.emptyRedis)
  = outcomeView
      (byteStreamServer_Write Scenario.redisPut
         (mkWriteServer [Scenario.uploadFirst'; Scenario.uploadSecond'] EOF)
         Scenario.emptyRedis).
Proof.
  apply write_depends_only_on_what_it_reads. reflexivity.
Defined.

(** ** Integrity adapter *)

Import Merkle.

Section ValidatingReader.

Context {W : Type}.
Implicit Types (r : checksumValidatingReader W) (w : W).

Lemma Read_longer r p err w :
  sizeLeft r < Z.of_nat (length p) ->
  checksumValidatingReader_Read r (p, err) w
  = (([], Some (StatusError (errorCode r) "Blob is longer than expected" [])),
     tooLong r p, invalidator r w).
Proof.
  intros H. unfold checksumValidatingReader_Read. cbn [sizeLeft].
  destruct (Z.ltb_spec (sizeLeft r) (Z.of_nat (length p))); [|lia].
  reflexivity.
Qed.

Lemma Read_shorter r p w :
  0 <= sizeLeft r < 2 ^ 63 ->
  Z.of_nat (length p) < sizeLeft r ->
  checksumValidatingReader_Read r (p, Some EOF) w
  = (([], Some (StatusError (errorCode r)
                  "Blob is %d bytes shorter than expected"
                  [ArgInt (sizeLeft r - Z.of_nat (length p))])),
     advanced r p, invalidator r w).
Proof.
  intros R H. unfold checksumValidatingReader_Read. cbn [sizeLeft].
  destruct (Z.ltb_spec (sizeLeft r) (Z.of_nat (length p))); [lia|].
  cbn [sizeLeft errorCode invalidator expectedChecksum partialChecksum].
  rewrite wrap64_id by (unfold int64Range; lia).
  destruct (Z.eqb_spec (sizeLeft r - Z.of_nat (length p)) 0); [lia|].
  reflexivity.
Qed.

Lemma Read_end r p w :
  0 <= sizeLeft r < 2 ^ 63 ->
  Z.of_nat (length p) = sizeLeft r ->
  checksumValidatingReader_Read r (p, Some EOF) w
  = if bool_decide (family (partialChecksum r)
                      (written (partialChecksum r) ++ p)
                    = expectedChecksum r)
    then ((p, Some EOF), advanced r p, w)
    else (([], Some (StatusError (errorCode r)
                       "Checksum of blob is %s, while %s was expected"
                       [ArgStr (hexEncodeToString
                                  (family (partialChecksum r)
                                     (written (partialChecksum r) ++ p)));
                        ArgStr (hexEncodeToString (expectedChecksum r))])),
          advanced r p, invalidator r w).
Proof.
  intros R H. unfold checksumValidatingReader_Read. cbn [sizeLeft].
  destruct (Z.ltb_spec (sizeLeft r) (Z.of_nat (length p))); [lia|].
  cbn [sizeLeft errorCode invalidator expectedChecksum partialChecksum].
  rewrite wrap64_id by (unfold int64Range; lia).
  destruct (Z.eqb_spec (sizeLeft r - Z.of_nat (length p)) 0); [|lia].
  cbn [negb]. unfold hashSum, hashWrite. cbn [family written].
  destruct (bool_decide _); reflexivity.
Qed.

Lemma Read_middle r p err w :
  0 <= sizeLeft r < 2 ^ 63 ->
  Z.of_nat (length p) <= sizeLeft r ->
  err <> Some EOF ->
  checksumValidatingReader_Read r (p, err) w = ((p, err), advanced r p, w).
Proof.
  intros R H Herr. unfold checksumValidatingReader_Read. cbn [sizeLeft].
  destruct (Z.ltb_spec (sizeLeft r) (Z.of_nat (length p))); [lia|].
  rewrite wrap64_id by (unfold int64Range; lia).
  destruct err as [[| | |]|]; try reflexivity. congruence.
Qed.

(** A corrupt result fails the read with the reader's code and runs the
    invalidator once; any other result is handed on as it came. *)
Lemma Read_corrupt r under w :
  0 <= sizeLeft r < 2 ^ 63 -> corrupt r under ->
  exists format args r1,
    checksumValidatingReader_Read r under w
    = (([], Some (StatusError (errorCode r) format args)), r1,
       invalidator r w).
Proof.
  intros R. destruct under as [p err]. unfold corrupt. cbn [fst snd].
  intros [Hl | (-> & Hc)].
  - rewrite Read_longer by assumption. eauto.
  - destruct (Z_lt_le_dec (sizeLeft r) (Z.of_nat (length p))) as [Hl|Hl].
    { rewrite Read_longer by assumption. eauto. }
    destruct (Z.eq_dec (Z.of_nat (length p)) (sizeLeft r)) as [He|Hne].
    + rewrite Read_end by assumption.
      destruct Hc as [Hc|Hc]; [lia|].
      rewrite bool_decide_eq_false_2 by assumption. eauto.
    + rewrite Read_shorter by lia. eauto.
Qed.

Lemma Read_sound r under w :
  0 <= sizeLeft r < 2 ^ 63 -> ~ corrupt r under ->
  checksumValidatingReader_Read r under w
  = (under, advanced r (fst under), w).
Proof.
  intros R. destruct under as [p err]. unfold corrupt. cbn [fst snd].
  intros Hn.
  assert (Hl : Z.of_nat (length p) <= sizeLeft r) by lia.
  assert (Hcase : err = Some EOF \/ err <> Some EOF)
    by (destruct err as [[| | |]|]; auto; right; discriminate).
  destruct Hcase as [->|Hne].
  - assert (He : Z.of_nat (length p) = sizeLeft r).
    { destruct (Z.eq_dec (Z.of_nat (length p)) (sizeLeft r)); [assumption|].
      exfalso. apply Hn. right. split; [reflexivity|]. left. lia. }
    rewrite Read_end by assumption.
    rewrite bool_decide_eq_true_2; [reflexivity|].
    destruct (decide (family (partialChecksum r)
                        (written (partialChecksum r) ++ p)
                      = expectedChecksum r)); [assumption|].
    exfalso. apply Hn. right. split; [reflexivity|]. now right.
  - now apply Read_middle.
Qed.

End ValidatingReader.

Section ValidatingReaderRuns.

Context {W : Type}.
Implicit Types (r : checksumValidatingReader W) (w : W).

Lemma corrupt_or_not r under : corrupt r under \/ ~ corrupt r under.
Proof.
  unfold corrupt. destruct under as [p err]. cbn [fst snd].
  destruct (Z_lt_le_dec (sizeLeft r) (Z.of_nat (length p)));
    [left; left; assumption|].
  assert (Hcase : err = Some EOF \/ err <> Some EOF)
    by (destruct err as [[| | |]|]; auto; right; discriminate).
  destruct Hcase as [->|Hne]; [|right; intros [?|(? & _)]; [lia | congruence]].
  destruct (Z.eq_dec (sizeLeft r - Z.of_nat (length p)) 0);
    [|left; right; auto].
  destruct (decide (family (partialChecksum r)
                      (written (partialChecksum r) ++ p)
                    = expectedChecksum r));
    [|left; right; auto].
  right. intros [?|(_ & [?|?])]; [lia | lia | congruence].
Qed.

Lemma advanced_nil r : advanced r [] = r.
Proof.
  destruct r as [e [f wr] s i c]. unfold advanced, hashWrite. simpl.
  rewrite app_nil_r, Z.sub_0_r. reflexivity.
Qed.

Lemma advanced_app r p q : advanced (advanced r p) q = advanced r (p ++ q).
Proof.
  unfold advanced, hashWrite. simpl.
  rewrite length_app, Nat2Z.inj_add, app_assoc.
  f_equal. lia.
Qed.

(** Reads that were handed on as they came leave the world alone and the
    reader with the bytes delivered hashed and subtracted. *)
Lemma feed_passed us : forall r0 r w w',
  0 <= sizeLeft r0 < 2 ^ 63 ->
  feed r0 us w = (us, r, w') ->
  w' = w /\ r = advanced r0 (delivered us) /\
  Z.of_nat (length (delivered us)) <= sizeLeft r0.
Proof.
  induction us as [|u rest IH]; intros r0 r w w' R E.
  - cbn in E. inversion E; subst. rewrite advanced_nil. simpl. auto with lia.
  - cbn [feed] in E.
    destruct (corrupt_or_not r0 u) as [Hc|Hn].
    + exfalso.
      destruct (Read_corrupt r0 u w R Hc) as (fmt & args & r1 & E1).
      rewrite E1 in E.
      destruct (feed r1 rest (invalidator r0 w)) as [[ress r2] w2].
      inversion E as [[Hu Hr Hw]]. subst u.
      unfold corrupt in Hc. cbn [fst snd length] in Hc.
      destruct Hc as [?|(X & _)]; [lia | discriminate].
    + rewrite (Read_sound r0 u w R Hn) in E.
      destruct (feed (advanced r0 (fst u)) rest w) as [[ress r2] w2] eqn:F.
      inversion E; subst.
      assert (Hl : Z.of_nat (length (fst u)) <= sizeLeft r0).
      { unfold corrupt in Hn. lia. }
      destruct (IH (advanced r0 (fst u)) r w w') as (Hw & Hr & Hlen);
        [cbn [advanced sizeLeft]; lia | assumption |].
      cbn [advanced sizeLeft] in Hlen.
      unfold delivered in *. cbn [map concat].
      rewrite length_app, Nat2Z.inj_add.
      rewrite Hr, advanced_app. repeat split; auto. lia.
Qed.

Lemma feed_stream chunks : forall r0 last w,
  0 <= sizeLeft r0 < 2 ^ 63 ->
  Z.of_nat (length (concat chunks ++ last)) = sizeLeft r0 ->
  family (partialChecksum r0)
    (written (partialChecksum r0) ++ concat chunks ++ last)
  = expectedChecksum r0 ->
  feed r0 (streamOf chunks last) w
  = (streamOf chunks last, advanced r0 (concat chunks ++ last), w).
Proof.
  induction chunks as [|c chunks IH]; intros r0 last w R Hlen Hsum.
  - cbn [streamOf map app feed concat] in *.
    rewrite Read_end by assumption.
    rewrite bool_decide_eq_true_2 by assumption. reflexivity.
  - cbn [streamOf map app feed concat] in *.
    rewrite <- app_assoc in Hlen, Hsum.
    rewrite length_app, Nat2Z.inj_add in Hlen.
    rewrite Read_middle by (auto with lia; discriminate).
    fold (streamOf chunks last).
    rewrite IH.
    + rewrite advanced_app, <- app_assoc. reflexivity.
    + cbn [advanced sizeLeft]. lia.
    + cbn [advanced sizeLeft]. lia.
    + cbn [advanced partialChecksum expectedChecksum hashWrite family
             written]. rewrite <- app_assoc. exact Hsum.
Qed.

End ValidatingReaderRuns.

(** C1: after reads that were handed on unchanged, a read that brings the
    bytes delivered beyond the size fails with "longer than expected"; a
    read that reports EOF fails with "shorter than expected" while bytes
    remain and with the checksum error when none remain and the hash
    differs; each failure runs the invalidator once; every other read, and
    so every read of a stream of exactly the size whose hash is the expected
    one, is handed on unchanged without running the invalidator. *)
Theorem verifying_reader_checks_size_and_hash :
  forall (W : Type) (r0 r : checksumValidatingReader W)
         (us : list ReadResult) (w w' : W) (p : bytes) (err : option error),
    0 <= sizeLeft r0 < 2 ^ 63 ->
    feed r0 us w = (us, r, w') ->
    (sizeLeft r0 < Z.of_nat (length (delivered us ++ p)) ->
     exists r1,
       checksumValidatingReader_Read r (p, err) w'
       = (([], Some (StatusError (errorCode r0)
                       "Blob is longer than expected" [])),
          r1, invalidator r0 w)) /\
    (err = Some EOF ->
     Z.of_nat (length (delivered us ++ p)) < sizeLeft r0 ->
     exists r1,
       checksumValidatingReader_Read r (p, err) w'
       = (([], Some (StatusError (errorCode r0)
                       "Blob is %d bytes shorter than expected"
                       [ArgInt (sizeLeft r0
                                - Z.of_nat (length (delivered us ++ p)))])),
          r1, invalidator r0 w)) /\
    (err = Some EOF ->
     Z.of_nat (length (delivered us ++ p)) = sizeLeft r0 ->
     family (partialChecksum r0)
       (written (partialChecksum r0) ++ delivered us ++ p)
     <> expectedChecksum r0 ->
     exists r1,
       checksumValidatingReader_Read r (p, err) w'
       = (([], Some (StatusError (errorCode r0)
                       "Checksum of blob is %s, while %s was expected"
                       [ArgStr (hexEncodeToString
                                  (family (partialChecksum r0)
                                     (written (partialChecksum r0)
                                      ++ delivered us ++ p)));
                        ArgStr (hexEncodeToString (expectedChecksum r0))])),
          r1, invalidator r0 w)) /\
    (err = Some EOF ->
     Z.of_nat (length (delivered us ++ p)) = sizeLeft r0 ->
     family (partialChecksum r0)
       (written (partialChecksum r0) ++ delivered us ++ p)
     = expectedChecksum r0 ->
     exists r1,
       checksumValidatingReader_Read r (p, err) w' = ((p, err), r1, w)) /\
    (err <> Some EOF ->
     Z.of_nat (length (delivered us ++ p)) <= sizeLeft r0 ->
     exists r1,
       checksumValidatingReader_Read r (p, err) w' = ((p, err), r1, w)) /\
    (forall chunks last,
       Z.of_nat (length (concat chunks ++ last)) = sizeLeft r0 ->
       family (partialChecksum r0)
         (written (partialChecksum r0) ++ concat chunks ++ last)
       = expectedChecksum r0 ->
       exists r1,
         feed r0 (streamOf chunks last) w = (streamOf chunks last, r1, w)).
Proof.
  intros W r0 r us w w' p err R F.
  destruct (feed_passed us r0 r w w' R F) as (-> & -> & Hlen).
  rewrite length_app, Nat2Z.inj_add.
  assert (R1 : 0 <= sizeLeft (advanced r0 (delivered us)) < 2 ^ 63)
    by (cbn [advanced sizeLeft]; lia).
  assert (Hsum :
    family (partialChecksum (advanced r0 (delivered us)))
      (written (partialChecksum (advanced r0 (delivered us))) ++ p)
    = family (partialChecksum r0)
        (written (partialChecksum r0) ++ delivered us ++ p)).
  { cbn [advanced partialChecksum hashWrite family written].
    now rewrite <- app_assoc. }
  repeat split.
  - intros H. eexists. rewrite Read_longer by (cbn [advanced sizeLeft]; lia).
    reflexivity.
  - intros -> H. eexists.
    rewrite Read_shorter by (auto; cbn [advanced sizeLeft]; lia).
    cbn [advanced sizeLeft errorCode invalidator].
    rewrite Z.sub_add_distr. reflexivity.
  - intros -> H Hne. eexists.
    rewrite Read_end by (auto; cbn [advanced sizeLeft]; lia).
    rewrite Hsum. rewrite bool_decide_eq_false_2 by assumption.
    reflexivity.
  - intros -> H He. eexists.
    rewrite Read_end by (auto; cbn [advanced sizeLeft]; lia).
    rewrite Hsum. rewrite bool_decide_eq_true_2 by assumption.
    reflexivity.
  - intros Hne H. eexists.
    rewrite Read_middle by (auto; cbn [advanced sizeLeft]; lia).
    reflexivity.
  - intros chunks last Hl Hs. eexists. now apply feed_stream.
Qed.

(** The theorem on C1 at a reader for the five bytes "hello" that has handed
    on "he" and is given "llo!": one byte too many. *)
Lemma verifying_reader_witness :
  exists r1,
    checksumValidatingReader_Read
      (advanced Scenario.countingReader (list_ascii_of_string "he"))
      (list_ascii_of_string "llo!", None) 0%nat
    = (([], Some (StatusError Internal "Blob is longer than expected" [])),
       r1, 1%nat).
Proof.
  exact (proj1
    (verifying_reader_checks_size_and_hash nat Scenario.countingReader
       (advanced Scenario.countingReader (list_ascii_of_string "he"))
       [(list_ascii_of_string "he", None)] 0%nat 0%nat
       (list_ascii_of_string "llo!") None
       ltac:(simpl; lia) ltac:(reflexivity))
    ltac:(simpl; lia)).
Defined.

Lemma nonHex_isLowerHex c : nonHex c = negb (isLowerHex c).
Proof.
  unfold nonHex, isLowerHex.
  destruct (Z.ltb_spec c 48), (Z.ltb_spec 57 c), (Z.ltb_spec c 97),
    (Z.ltb_spec 102 c), (Z.leb_spec 48 c), (Z.leb_spec c 57),
    (Z.leb_spec 97 c), (Z.leb_spec c 102); try reflexivity; lia.
Qed.

Lemma isLowerHex_ascii b : isLowerHex b = true -> b < 128.
Proof.
  unfold isLowerHex. intros H. apply orb_prop in H.
  destruct H as [H|H]; apply andb_prop in H; destruct H as [_ H];
    apply Z.leb_le in H; lia.
Qed.

(** The loop over the code points of the hash finds no offender exactly
    when every byte is one of 0-9 and a-f. *)
Lemma firstNonHex_runes n : forall s,
  (String.length s <= n)%nat ->
  firstNonHex (runes s) = None <-> allBytes isLowerHex s = true.
Proof.
  induction n as [|n IH]; intros s Hn.
  - destruct s; [|simpl in Hn; lia]. split; reflexivity.
  - destruct s as [|c t]; [split; reflexivity|]. simpl in Hn.
    unfold runes in *.
    destruct (Z_lt_le_dec (byteZ c) 128) as [L|L].
    + rewrite rangeString_ascii by assumption.
      cbn [map fst firstNonHex allBytes].
      rewrite nonHex_isLowerHex.
      destruct (isLowerHex (byteZ c)); cbn [negb andb].
      * apply IH. lia.
      * split; discriminate.
    + destruct (rangeString_high c t L)
        as (r & chunk & rest & Hr & Hge & _).
      rewrite Hr. cbn [map fst firstNonHex allBytes].
      rewrite nonHex_isLowerHex.
      destruct (isLowerHex r) eqn:Er.
      { apply isLowerHex_ascii in Er. lia. }
      destruct (isLowerHex (byteZ c)) eqn:Ec.
      { apply isLowerHex_ascii in Ec. lia. }
      cbn [negb andb]. split; discriminate.
Qed.

Lemma validateDigest_accepts DFL digest :
  (exists df, validateDigest DFL digest = inl df) <->
  (exists df, DFL (String.length (Hash digest)) = inl df) /\
  allBytes isLowerHex (Hash digest) = true /\ 0 <= SizeBytes digest.
Proof.
  unfold validateDigest.
  pose proof (firstNonHex_runes _ (Hash digest) (Nat.le_refl _)) as Hx.
  destruct (DFL (String.length (Hash digest))) as [df|e].
  - destruct (firstNonHex (runes (Hash digest))) as [c|].
    + split.
      * intros (x & X). discriminate.
      * intros (_ & Hh & _). apply Hx in Hh. discriminate.
    + destruct (Z.ltb_spec (SizeBytes digest) 0).
      * split; [intros (x & X); discriminate | intros (_ & _ & ?); lia].
      * split; [|eauto]. intros _. repeat split; eauto. now apply Hx.
  - split; [intros (x & X); discriminate|].
    intros ((x & X) & _). discriminate.
Qed.

Lemma validateDigest_code DFL digest e :
  (forall n e, DFL n = inr e -> codeOf e = InvalidArgument) ->
  validateDigest DFL digest = inr e -> codeOf e = InvalidArgument.
Proof.
  intros HD. unfold validateDigest.
  destruct (DFL (String.length (Hash digest))) as [df|e0] eqn:E.
  - destruct (firstNonHex (runes (Hash digest))) as [c|].
    + intros X. inversion X. reflexivity.
    + destruct (SizeBytes digest <? 0); intros X; inversion X. reflexivity.
  - intros X. inversion X; subst. eapply HD. eassumption.
Qed.

Lemma validateAll_fails DFL digests digest e :
  validateDigest DFL digest = inr e -> digest ∈ digests ->
  exists e' d', d' ∈ digests /\ validateDigest DFL d' = inr e' /\
                validateAll DFL digests = Some e'.
Proof.
  intros Hv. induction digests as [|d rest IH]; intros Hin.
  - inversion Hin.
  - cbn [validateAll]. destruct (validateDigest DFL d) as [df|e0] eqn:E.
    + apply elem_of_cons in Hin. destruct Hin as [->|Hin]; [congruence|].
      destruct (IH Hin) as (e' & d' & Hd & Hv' & Ha).
      exists e', d'. split; [apply elem_of_cons; now right | auto].
    + exists e0, d. split; [apply elem_of_cons; now left | auto].
Qed.

(** C3: a digest passes validation exactly when its hash has a recognized
    length and only the characters 0-9 and a-f and its size is not negative;
    for any other digest Get returns a reader that fails with
    InvalidArgument, Put closes the reader it was given and returns that
    error, and Delete and FindMissing return it, none of them reaching the
    wrapped store. *)
Theorem invalid_digests_are_refused :
  forall (St RC : Type) (rc : ReadCloser (World St) RC)
         (DFL : nat -> DigestFormat + error)
         (ba_Get : string -> Digest -> World St -> RC * World St)
         (ba_Put : string -> Digest -> Z -> Prog (World St) (option error))
         (ba_Delete : string -> Digest -> World St -> option error * World St)
         (ba_FindMissing : string -> list Digest -> World St ->
                           list Digest * option error * World St),
    (forall n e, DFL n = inr e -> codeOf e = InvalidArgument) ->
    (forall digest,
       (exists df, validateDigest DFL digest = inl df) <->
       (exists df, DFL (String.length (Hash digest)) = inl df) /\
       allBytes isLowerHex (Hash digest) = true /\ 0 <= SizeBytes digest) /\
    (forall digest e,
       validateDigest DFL digest = inr e ->
       codeOf e = InvalidArgument /\
       (forall instance w,
          Get DFL ba_Get ba_Delete instance digest w = (errorReader e, w)) /\
       (forall len (w : World St),
          Read (errorReader (RC := RC) e) len w
          = (([], Some e), errorReader e, w)) /\
       (forall instance sizeBytes,
          Put DFL ba_Put instance digest sizeBytes
          = CloseOp (fun _ => Ret (Some e))) /\
       (forall instance sizeBytes (r : scriptReader) w,
          exec (Put DFL ba_Put instance digest sizeBytes) r w
          = Returned (Some e)
              {| script := script r; closed := S (closed r) |} w) /\
       (forall instance w,
          Delete DFL ba_Delete instance digest w = (Some e, w)) /\
       (forall instance digests w,
          digest ∈ digests ->
          exists e',
            FindMissing DFL ba_FindMissing instance digests w
            = ([], Some e', w) /\
            codeOf e' = InvalidArgument)).
Proof.
  intros St RC rc DFL ba_Get ba_Put ba_Delete ba_FindMissing HD.
  split; [intros digest; apply validateDigest_accepts|].
  intros digest e Hv.
  split; [eapply validateDigest_code; eassumption|].
  split; [intros; unfold Get; now rewrite Hv|].
  split; [reflexivity|].
  split; [intros; unfold Put; now rewrite Hv|].
  split; [intros; unfold Put; rewrite Hv; reflexivity|].
  split; [intros; unfold Delete; now rewrite Hv|].
  intros instance digests w Hin.
  destruct (validateAll_fails DFL digests digest e Hv Hin)
    as (e' & d' & _ & Hv' & Ha).
  exists e'. unfold FindMissing. rewrite Ha.
  split; [reflexivity|]. eapply validateDigest_code; eassumption.
Qed.

Lemma toyFormat_errors n e :
  Scenario.toyFormatFromLength n = inr e -> codeOf e = InvalidArgument.
Proof.
  unfold Scenario.toyFormatFromLength. destruct (n =? 10)%nat; intros X;
    inversion X. reflexivity.
Defined.

(** The theorem on C3 at a Put of a digest whose hash is in uppercase: the
    reader is closed once and the error names the first offender, 'F'. *)
Lemma invalid_digest_witness :
  exec (Put Scenario.toyFormatFromLength Scenario.nullPut EmptyString
          Scenario.shoutedDigest 5)
    {| script := []; closed := 0 |} Scenario.quiet
  = Returned
      (Some (StatusError InvalidArgument
               "Non-hexadecimal character in digest hash: %#U" [ArgRune 70]))
      {| script := []; closed := 1 |} Scenario.quiet.
Proof.
  refine (proj1 (proj2 (proj2 (proj2 (proj2
    (proj2 (invalid_digests_are_refused unit scriptReader _
              Scenario.toyFormatFromLength Scenario.nullGet Scenario.nullPut
              Scenario.nullDelete Scenario.nullFindMissing
              toyFormat_errors)
       Scenario.shoutedDigest _ _)))))
    EmptyString 5 {| script := []; closed := 0 |} Scenario.quiet).
  vm_compute. reflexivity.
Defined.

Section ReaderFields.

Context {W : Type}.
Implicit Types (r : checksumValidatingReader W) (w : W).

(** No read changes what the reader expects, calls or reports, and the
    size left never grows nor drops below zero. *)
Lemma Read_fields r under w :
  0 <= sizeLeft r < 2 ^ 63 ->
  let r1 := snd (fst (checksumValidatingReader_Read r under w)) in
  expectedChecksum r1 = expectedChecksum r /\
  invalidator r1 = invalidator r /\
  errorCode r1 = errorCode r /\
  0 <= sizeLeft r1 <= sizeLeft r.
Proof.
  intros R. destruct (corrupt_or_not r under) as [Hc|Hn].
  - destruct under as [p err]. unfold corrupt in Hc. cbn [fst snd] in Hc.
    destruct (Z_lt_le_dec (sizeLeft r) (Z.of_nat (length p))) as [Hl|Hl].
    { rewrite Read_longer by assumption. cbn. auto with lia. }
    destruct Hc as [?|(-> & Hc)]; [lia|].
    destruct (Z.eq_dec (Z.of_nat (length p)) (sizeLeft r)) as [He|Hne].
    + rewrite Read_end by assumption.
      destruct (bool_decide _); cbn; auto with lia.
    + rewrite Read_shorter by lia. cbn. auto with lia.
  - rewrite Read_sound by assumption. cbn.
    unfold corrupt in Hn. auto with lia.
Qed.

Lemma feed_fields us : forall r0 ress r w w',
  0 <= sizeLeft r0 < 2 ^ 63 ->
  feed r0 us w = (ress, r, w') ->
  expectedChecksum r = expectedChecksum r0 /\
  invalidator r = invalidator r0 /\
  errorCode r = errorCode r0 /\
  0 <= sizeLeft r <= sizeLeft r0.
Proof.
  induction us as [|u rest IH]; intros r0 ress r w w' R E.
  - cbn in E. inversion E; subst. auto with lia.
  - cbn [feed] in E.
    pose proof (Read_fields r0 u w R) as F. cbn zeta in F.
    destruct (checksumValidatingReader_Read r0 u w) as [[res r1] w1].
    cbn [fst snd] in F. destruct F as (Fe & Fi & Fc & Fs).
    destruct (feed r1 rest w1) as [[ress2 r2] w2] eqn:G.
    inversion E; subst.
    destruct (IH r1 ress2 r w1 w' ltac:(lia) G) as (Ie & Ii & Ic & Is).
    repeat split; try congruence; lia.
Qed.

End ReaderFields.

(** ** Leaves: Redis, the gRPC relay and the HTTP cache *)

(** C9, counterexample: with a cancelled context the Redis store answers an
    empty FindMissing with the context's error. *)
Lemma redis_FindMissing_reports_a_cancelled_context :
  Redis.FindMissing Scenario.keyByHash EmptyString [] Scenario.cancelled
  = ([], Some (OtherError "context canceled"), Scenario.cancelled).
Proof. reflexivity. Qed.

Lemma existsKeys_length blobKeyer instance digests keys :
  Redis.existsKeys blobKeyer instance digests = inl keys ->
  length keys = length digests.
Proof.
  revert keys. induction digests as [|d rest IH]; intros keys E.
  - inversion E. reflexivity.
  - cbn [Redis.existsKeys] in E.
    destruct (blobKeyer instance d); [|discriminate].
    destruct (Redis.existsKeys blobKeyer instance rest) eqn:R;
      [|discriminate].
    inversion E; subst. simpl. f_equal. now apply IH.
Qed.

(** C9, as the code has it: FindMissing of an empty list returns an empty
    list and leaves the back end alone, whatever its state: the gRPC relay
    always without error, the Redis store without error unless the context
    of the call already carries one, which it then returns.  A list that is
    not empty does reach the back end. *)
Theorem empty_FindMissing_contacts_no_back_end :
  (forall blobKeyer instance (w : Redis.World),
     Redis.ctxErr w = None ->
     Redis.FindMissing blobKeyer instance [] w = ([], None, w)) /\
  (forall blobKeyer instance (w : Redis.World) err,
     Redis.ctxErr w = Some err ->
     Redis.FindMissing blobKeyer instance [] w = ([], Some err, w)) /\
  (forall (D : Type) (GetInstance : D -> string) (GetRawDigest : D -> Digest)
          (NewDigest : string -> Digest -> D + error) (w : Relay.World),
     Relay.FindMissing GetInstance GetRawDigest NewDigest [] w
     = ([], None, w)) /\
  (forall blobKeyer instance (w : Redis.World) d digests keys,
     Redis.ctxErr w = None ->
     Redis.existsKeys blobKeyer instance (d :: digests) = inl keys ->
     Redis.sent (Redis.FindMissing blobKeyer instance (d :: digests) w).2
     = Redis.sent w ++ map Redis.CmdExists keys) /\
  (forall (D : Type) (GetInstance : D -> string) (GetRawDigest : D -> Digest)
          (NewDigest : string -> Digest -> D + error) (w : Relay.World)
          d digests raws,
     Relay.rawDigests GetInstance GetRawDigest (GetInstance d) (d :: digests)
       [] = inl raws ->
     Relay.issued
       (Relay.FindMissing GetInstance GetRawDigest NewDigest (d :: digests)
          w).2
     = Relay.issued w ++ [Relay.mkRequest (GetInstance d) raws]).
Proof.
  repeat split.
  - intros blobKeyer instance w H. unfold Redis.FindMissing. now rewrite H.
  - intros blobKeyer instance w err H. unfold Redis.FindMissing.
    now rewrite H.
  - intros blobKeyer instance w d digests keys H E.
    unfold Redis.FindMissing. rewrite H. cbn [length Nat.eqb].
    rewrite E. unfold Redis.pipelineExists.
    destruct (Redis.down w); reflexivity.
  - intros D GetInstance GetRawDigest NewDigest w d digests raws E.
    unfold Relay.FindMissing. rewrite E. unfold Relay.FindMissingBlobs.
    destruct (Relay.answer w _) as [resp|err]; [|reflexivity].
    destruct (Relay.convertBack _ _ _ _); reflexivity.
Qed.

(** C8, the failing input: the server answers the PUT of the five bytes
    "hello" with status 500, and Put reports success. *)
Lemma http_put_reports_success_on_status_500 :
  exec (Remote.Put "http://cache" "cas" Scenario.wellFormed
          (Scenario.answerPut 500) EmptyString Scenario.helloDigest 5)
    {| script := [(Scenario.hello, Some EOF)]; closed := 0 |} []
  = Returned None {| script := []; closed := 1 |}
      [(Remote.MethodPut, "http://cache/cas/6f6c6c6568")].
Proof. vm_compute. reflexivity. Qed.

(** Whatever status the server answers a PUT with, Put returns nil. *)
Lemma http_put_ignores_the_status W address prefix doPut instance digest
    sizeBytes (r : scriptReader) (w : W) resp r1 w1 :
  exec (doPut (Remote.urlOf address prefix digest) sizeBytes) r w
  = Returned (inl resp) r1 w1 ->
  exec (Remote.Put address prefix (fun _ => None) doPut instance digest
          sizeBytes) r w
  = Returned None r1 w1.
Proof.
  intros E. unfold Remote.Put. rewrite exec_bind, E. reflexivity.
Qed.

(** Get maps 404 to NotFound, 200 to the body and any other status to
    Unknown with the status text. *)
Lemma http_get_maps_the_status W address prefix roundTrip StatusText
    instance digest (w w1 : W) resp :
  roundTrip Remote.MethodGet (Remote.urlOf address prefix digest) w
  = (inl resp, w1) ->
  Remote.Get address prefix roundTrip StatusText instance digest w
  = (if Remote.StatusCode resp =? 404 then
       Remote.errorReader
         (StatusError NotFound (Remote.urlOf address prefix digest) [])
     else if Remote.StatusCode resp =? 200 then
       Remote.bodyReader (Remote.Body resp)
     else
       Remote.errorReader
         (StatusError Unknown
            "Unexpected status code from remote cache: %d - %s"
            [ArgInt (Remote.StatusCode resp);
             ArgStr (StatusText (Remote.StatusCode resp))]),
     w1).
Proof.
  intros E. unfold Remote.Get. rewrite E.
  unfold Remote.StatusNotFound, Remote.StatusOK.
  destruct (_ =? 404); [reflexivity|]. destruct (_ =? 200); reflexivity.
Qed.

Lemma http_delete_is_unimplemented W instance digest (w : W) :
  exists format,
    Remote.Delete instance digest w
    = (Some (StatusError Unimplemented format []), w).
Proof. eexists. reflexivity. Qed.

(** FindMissing sends one HEAD per digest and reports those answered 404,
    as long as every answer is 200 or 404. *)
Lemma http_findMissing_probes_each_digest address prefix StatusText status
    digests : forall missing w,
  (forall d, d ∈ digests ->
     status (Remote.urlOf address prefix d) = 200 \/
     status (Remote.urlOf address prefix d) = 404) ->
  Remote.findMissingLoop address prefix (Scenario.served status) StatusText
    digests missing w
  = (missing
     ++ filter (fun d => status (Remote.urlOf address prefix d) = 404)
          digests,
     None,
     w ++ map (fun d => (Remote.MethodHead, Remote.urlOf address prefix d))
            digests).
Proof.
  induction digests as [|d rest IH]; intros missing w Hs.
  - cbn. now rewrite !app_nil_r.
  - cbn [Remote.findMissingLoop Scenario.served Remote.StatusCode map].
    unfold Remote.StatusNotFound, Remote.StatusOK.
    assert (Hrest : forall d0, d0 ∈ rest ->
              status (Remote.urlOf address prefix d0) = 200 \/
              status (Remote.urlOf address prefix d0) = 404)
      by (intros; apply Hs; apply elem_of_cons; now right).
    destruct (Hs d ltac:(apply elem_of_cons; now left)) as [E|E]; rewrite E.
    + cbn [Z.eqb Pos.eqb]. rewrite IH by assumption.
      rewrite filter_cons_False by lia.
      rewrite <- app_assoc. reflexivity.
    + cbn [Z.eqb Pos.eqb]. rewrite IH by assumption.
      rewrite filter_cons_True by assumption.
      rewrite <- !app_assoc. reflexivity.
Qed.

(** ** Sharding adapter *)

Import Sharding.

Lemma runes_ascii key :
  allBytes isASCII key = true -> runes key = octets key.
Proof.
  induction key as [|c t IH]; [reflexivity|].
  cbn [allBytes octets]. intros H. apply andb_prop in H.
  destruct H as [Hc Ht]. unfold isASCII in Hc. apply Z.ltb_lt in Hc.
  unfold runes in *. rewrite rangeString_ascii by assumption.
  cbn [map fst]. now rewrite IH.
Qed.

Lemma octets_range key x : x ∈ octets key -> 0 <= x < 2 ^ 64.
Proof.
  induction key as [|c t IH]; cbn [octets]; intros H.
  - inversion H.
  - apply elem_of_cons in H. destruct H as [->|H]; [|auto].
    pose proof (byteZ_range c). lia.
Qed.

Lemma fold_fnvRound l : forall h,
  (forall x, x ∈ l -> 0 <= x < 2 ^ 64) ->
  fold_left fnvRound l h = fnv1a h l.
Proof.
  unfold fnv1a. induction l as [|c l IH]; intros h Hr; [reflexivity|].
  cbn [fold_left]. rewrite IH by (intros; apply Hr, elem_of_cons; now right).
  f_equal. unfold fnvRound, wrapU64.
  rewrite (Z.mod_small c) by (apply Hr, elem_of_cons; now left).
  reflexivity.
Qed.

Section Routing.

Context {B : Type}.
Variable backends : list (option B).

Lemma runSelector_firstLive sel :
  stopsOnLive sel ->
  runSelector backends sel None
  = inSlot backends (firstLive backends (candidates sel)).
Proof.
  induction sel as [shard | index k IH]; intros Hs; [reflexivity|].
  cbn [runSelector candidates firstLive].
  destruct ((index <? 0) || (Z.of_nat (length backends) <=? index));
    [reflexivity|].
  destruct Hs as [(shard & Hstop) Hlive].
  destruct (default None (backends !! Z.to_nat index)) as [b|] eqn:E.
  - cbn [isSome negb]. rewrite Hstop. cbn [runSelector inSlot].
    now rewrite E.
  - cbn [isSome negb]. now apply IH.
Qed.

Lemma firstLive_shape {B'} (backends' : list (option B')) cs :
  sameShape backends backends' ->
  firstLive backends cs = firstLive backends' cs.
Proof.
  unfold sameShape. intros Hshape.
  assert (Hlen : length backends = length backends').
  { rewrite <- (length_map isSome backends), Hshape. apply length_map. }
  induction cs as [|index rest IH]; [reflexivity|].
  cbn [firstLive]. rewrite Hlen.
  destruct ((index <? 0) || (Z.of_nat (length backends') <=? index));
    [reflexivity|].
  assert (Hi : isSome (default None (backends !! Z.to_nat index))
               = isSome (default None (backends' !! Z.to_nat index))).
  { assert (X : map isSome backends !! Z.to_nat index
                = map isSome backends' !! Z.to_nat index) by now rewrite Hshape.
    rewrite !list_lookup_fmap in X.
    destruct (backends !! Z.to_nat index) as [[b|]|],
             (backends' !! Z.to_nat index) as [[b'|]|];
      cbn in X |- *; congruence. }
  destruct (default None (backends !! Z.to_nat index)),
           (default None (backends' !! Z.to_nat index));
    cbn in Hi; try discriminate; auto.
Qed.

End Routing.

(** What holds of the choice of C4: the back end of a digest is the one in
    the first slot that is not drained among those the selector proposes
    for the hash of the digest key, a slot counting as drained exactly when
    its entry is nil; the hash starts from the configured constant and, for
    each code point of the key, takes it in by xor and multiplies by
    1099511628211 modulo 2^64, which is FNV-1a over the bytes of the key
    when the key is ASCII; digests with the same key get the same back end,
    and lists of back ends with the same slots drained pick the same
    slot. *)
Theorem sharding_choice_is_deterministic :
  forall (D F B : Type) (GetKey : D -> F -> string)
         (backends : list (option B)) (GetShard : Z -> Selection)
         (digestKeyFormat : F) (hashInitialization : Z),
    (forall h, stopsOnLive (GetShard h)) ->
    (forall digest,
       getBackend GetKey backends GetShard digestKeyFormat hashInitialization
         digest
       = inSlot backends
           (firstLive backends
              (candidates
                 (GetShard
                    (hashKey hashInitialization
                       (GetKey digest digestKeyFormat)))))) /\
    (forall key,
       hashKey hashInitialization key
       = fold_left
           (fun h c => (Z.lxor h (c mod 2 ^ 64) * 1099511628211) mod 2 ^ 64)
           (runes key) (hashInitialization mod 2 ^ 64)) /\
    (forall key,
       allBytes isASCII key = true ->
       hashKey hashInitialization key
       = fnv1a (hashInitialization mod 2 ^ 64) (octets key)) /\
    (forall d1 d2,
       GetKey d1 digestKeyFormat = GetKey d2 digestKeyFormat ->
       getBackend GetKey backends GetShard digestKeyFormat hashInitialization
         d1
       = getBackend GetKey backends GetShard digestKeyFormat
           hashInitialization d2) /\
    (forall (backends' : list (option B)) cs,
       sameShape backends backends' ->
       firstLive backends cs = firstLive backends' cs).
Proof.
  intros D F B GetKey backends GetShard fmt init Hsel.
  split; [|split; [|split; [|split]]].
  - intros digest. unfold getBackend. now apply runSelector_firstLive.
  - intros key. reflexivity.
  - intros key Ha. unfold hashKey. rewrite runes_ascii by assumption.
    apply fold_fnvRound. intros x Hx. eapply octets_range. eassumption.
  - intros d1 d2 E. unfold getBackend. now rewrite E.
  - intros backends' cs Hs. now apply firstLive_shape.
Qed.

Lemma secondThenFirst_stops h : stopsOnLive (Scenario.secondThenFirst h).
Proof.
  simpl. split; [exists 1; reflexivity|]. split; [exists 0; reflexivity|].
  exact I.
Defined.

(** The theorem above at two shards, A live and B drained, and a selector
    that proposes B first: the digest is routed to A. *)
Lemma sharding_drain_witness :
  getBackend Scenario.keyOf Scenario.liveThenDrained Scenario.secondThenFirst
    tt 14695981039346656037 Scenario.helloDigest
  = Value (Some Scenario.shardA).
Proof.
  rewrite (proj1 (sharding_choice_is_deterministic Digest unit nat
                    Scenario.keyOf Scenario.liveThenDrained
                    Scenario.secondThenFirst tt 14695981039346656037
                    secondThenFirst_stops)).
  reflexivity.
Defined.

Section FanOut.

Context {D F B : Type} `{Countable B}.
Variable GetKey : D -> F -> string.
Variable backends : list (option B).
Variable GetShard : Z -> Selection.
Variable digestKeyFormat : F.
Variable hashInitialization : Z.
Variable backend_FindMissing : B -> list D -> findMissingResults D.

Let chosen (digest : D) : Result (option B) :=
  getBackend GetKey backends GetShard digestKeyFormat hashInitialization
    digest.

Let group :=
  groupDigests GetKey backends GetShard digestKeyFormat hashInitialization.

(** The first loop appends every digest to the list of its back end. *)
Lemma groupDigests_spec digests : forall m0 m,
  group digests m0 = Value m ->
  (forall backend,
     m !!! backend
     = m0 !!! backend ++ filter (fun d => chosen d = Value backend) digests) /\
  (forall backend,
     is_Some (m !! backend) <->
     is_Some (m0 !! backend) \/
     exists d, d ∈ digests /\ chosen d = Value backend).
Proof.
  unfold group. induction digests as [|d rest IH]; intros m0 m E.
  - cbn in E. inversion E; subst. split.
    + intros backend. now rewrite app_nil_r.
    + intros backend. split; [auto|].
      intros [?|(d & Hd & _)]; [assumption | inversion Hd].
  - cbn [groupDigests] in E. fold (chosen d) in E.
    destruct (chosen d) as [backend0|] eqn:Ec; [|discriminate].
    destruct (IH _ _ E) as [IHl IHd]. split.
    + intros backend. rewrite IHl.
      destruct (decide (backend0 = backend)) as [->|Hne].
      * rewrite lookup_total_insert_eq.
        rewrite filter_cons_True by assumption.
        now rewrite <- app_assoc.
      * rewrite lookup_total_insert_ne by assumption.
        rewrite filter_cons_False by congruence. reflexivity.
    + intros backend. rewrite IHd, lookup_insert_is_Some'. split.
      * intros [[->|?]|(d0 & Hd0 & Hc)]; auto.
        -- right. exists d. split; [apply elem_of_cons; now left | auto].
        -- right. exists d0. split; [apply elem_of_cons; now right | auto].
      * intros [?|(d0 & Hd0 & Hc)]; auto.
        apply elem_of_cons in Hd0. destruct Hd0 as [->|Hd0].
        -- left. left. congruence.
        -- right. eauto.
Qed.

Lemma groupDigests_total digests : forall m0,
  (forall d, d ∈ digests -> exists b, chosen d = Value b) ->
  exists m, group digests m0 = Value m.
Proof.
  unfold group. induction digests as [|d rest IH]; intros m0 Hc.
  - eexists. reflexivity.
  - cbn [groupDigests]. fold (chosen d).
    destruct (Hc d ltac:(apply elem_of_cons; now left)) as [b ->].
    apply IH. intros d0 Hd0. apply Hc. apply elem_of_cons. now right.
Qed.

Lemma answers_cons m b rest :
  answers backend_FindMissing m (Some b :: rest)
  = backend_FindMissing b (m !!! Some b)
    :: answers backend_FindMissing m rest.
Proof. reflexivity. Qed.

(** The last loop appends the lists of the back ends that answered without
    error and keeps the error of the last one that failed. *)
Lemma recombine_spec m arrival : forall acc err0,
  (forall a, a ∈ arrival -> exists b, a = Some b) ->
  recombine backend_FindMissing arrival m acc err0
  = Value
      (acc ++ concat (map missing
                        (filter (fun r => err r = None)
                           (answers backend_FindMissing m arrival))),
       match last (omap err (answers backend_FindMissing m arrival)) with
       | Some e => Some e
       | None => err0
       end).
Proof.
  induction arrival as [|a rest IH]; intros acc err0 Hlive.
  - cbn. now rewrite app_nil_r.
  - destruct (Hlive a ltac:(apply elem_of_cons; now left)) as [b ->].
    assert (Hrest : forall a, a ∈ rest -> exists b, a = Some b)
      by (intros; apply Hlive; apply elem_of_cons; now right).
    rewrite answers_cons. cbn [recombine callFindMissing].
    assert (Homap : forall (r : findMissingResults D) rs,
              omap err (r :: rs)
              = match err r with
                | Some e => e :: omap err rs
                | None => omap err rs
                end) by reflexivity.
    rewrite Homap.
    destruct (err (backend_FindMissing b (m !!! Some b))) as [e|] eqn:Ee.
    + rewrite IH by assumption.
      rewrite filter_cons_False by congruence.
      rewrite last_cons.
      destruct (last (omap err (answers backend_FindMissing m rest)));
        reflexivity.
    + rewrite IH by assumption.
      rewrite filter_cons_True by assumption.
      cbn [map concat]. now rewrite <- app_assoc.
Qed.

End FanOut.

Lemma answers_length {D B : Type} `{Countable B}
    (backend_FindMissing : B -> list D -> findMissingResults D) m arrival :
  (forall a, a ∈ arrival -> exists b, a = Some b) ->
  length (answers backend_FindMissing m arrival) = length arrival.
Proof.
  induction arrival as [|a rest IH]; intros Hlive; [reflexivity|].
  destruct (Hlive a ltac:(apply elem_of_cons; now left)) as [b ->].
  cbn. f_equal. apply IH. intros; apply Hlive; apply elem_of_cons; now right.
Qed.

(** C5: when every digest has a live back end, FindMissing returns, and in
    every run it puts each digest on the list of the back end chosen for it,
    calls each of these back ends once, and returns the lists of those that
    answered without error, one after the other in the order of arrival,
    together with the error of the last one that failed (none if none
    failed); what a back end reported missing is in the result whatever the
    others answered. *)
Theorem sharded_FindMissing_joins_partial_results :
  forall (D F B : Type) (eqB : EqDecision B) (cB : Countable B)
         (GetKey : D -> F -> string) (backends : list (option B))
         (GetShard : Z -> Selection) (digestKeyFormat : F)
         (hashInitialization : Z)
         (backend_FindMissing : B -> list D -> findMissingResults D)
         (digests : list D) (res : Result (list D * option error)),
    (forall d, d ∈ digests ->
       exists b,
         getBackend GetKey backends GetShard digestKeyFormat
           hashInitialization d = Value (Some b)) ->
    (exists res0,
       Sharding.FindMissing GetKey backends GetShard digestKeyFormat
         hashInitialization backend_FindMissing digests res0) /\
    (Sharding.FindMissing GetKey backends GetShard digestKeyFormat
       hashInitialization backend_FindMissing digests res ->
     exists m arrival,
      groupDigests GetKey backends GetShard digestKeyFormat
        hashInitialization digests ∅ = Value m /\
      (forall backend,
         m !!! backend
         = filter (fun d => getBackend GetKey backends GetShard
                              digestKeyFormat hashInitialization d
                            = Value backend) digests) /\
      NoDup arrival /\
      (forall backend,
         backend ∈ arrival <->
         exists d, d ∈ digests /\
                   getBackend GetKey backends GetShard digestKeyFormat
                     hashInitialization d = Value backend) /\
      length (answers backend_FindMissing m arrival) = length arrival /\
      res = Value
              (concat (map missing
                         (filter (fun r => err r = None)
                            (answers backend_FindMissing m arrival))),
               last (omap err (answers backend_FindMissing m arrival))) /\
      (forall r x,
         r ∈ answers backend_FindMissing m arrival ->
         err r = None -> x ∈ missing r ->
         exists l e, res = Value (l, e) /\ x ∈ l)).
Proof.
  intros D F B eqB cB GetKey backends GetShard fmt init bFM digests res
    Hlive.
  destruct (groupDigests_total GetKey backends GetShard fmt init digests ∅)
    as [m Hm].
  { intros d Hd. destruct (Hlive d Hd) as [b Hb]. eauto. }
  split.
  { unfold Sharding.FindMissing. rewrite Hm.
    eexists. exists (map_to_list m).*1. split; reflexivity. }
  intros Hrel.
  unfold Sharding.FindMissing in Hrel. rewrite Hm in Hrel.
  destruct Hrel as (arrival & Hperm & Hres).
  destruct (groupDigests_spec GetKey backends GetShard fmt init digests ∅ m
              Hm) as [Hl Hd].
  assert (Hin : forall backend,
    backend ∈ arrival <->
    exists d, d ∈ digests /\
              getBackend GetKey backends GetShard fmt init d = Value backend).
  { intros backend. rewrite Hperm.
    transitivity (is_Some (m !! backend)).
    - rewrite list_elem_of_fmap. split.
      + intros ([a x] & -> & Hx). apply elem_of_map_to_list in Hx.
        exists x. exact Hx.
      + intros [x Hx]. exists (backend, x). split; [reflexivity|].
        now apply elem_of_map_to_list.
    - rewrite Hd. split; [|auto].
      intros [[x X]|?]; [|assumption].
      rewrite lookup_empty in X. discriminate. }
  assert (Hsome : forall a, a ∈ arrival -> exists b, a = Some b).
  { intros a Ha. apply Hin in Ha. destruct Ha as (d & Hd0 & Hc).
    destruct (Hlive d Hd0) as [b Hb]. exists b. congruence. }
  assert (Hval : res = Value
            (concat (map missing
                       (filter (fun r => err r = None)
                          (answers bFM m arrival))),
             last (omap err (answers bFM m arrival)))).
  { rewrite Hres, recombine_spec by assumption. cbn [app].
    destruct (last (omap err (answers bFM m arrival))); reflexivity. }
  exists m, arrival.
  split; [assumption|]. split.
  { intros backend. rewrite Hl, lookup_total_empty. reflexivity. }
  split.
  { rewrite Hperm. apply NoDup_fst_map_to_list. }
  split; [assumption|]. split; [now apply answers_length|].
  split; [assumption|].
  intros r x Hr He Hx. do 2 eexists. split; [exact Hval|].
  apply list_elem_of_In, in_concat. exists (missing r). split.
  - apply in_map. apply list_elem_of_In, list_elem_of_filter. auto.
  - now apply list_elem_of_In.
Qed.

Lemma threeDigests_live d :
  d ∈ Scenario.threeDigests ->
  exists b,
    getBackend Scenario.keyOf Scenario.twoShards Scenario.byParity tt
      Scenario.fnvOffsetBasis d = Value (Some b).
Proof.
  unfold Scenario.threeDigests. intros Hd.
  repeat (apply elem_of_cons in Hd; destruct Hd as [->|Hd]);
    [eexists; vm_compute; reflexivity ..|inversion Hd].
Defined.

Lemma threeDigests_run :
  Sharding.FindMissing Scenario.keyOf Scenario.twoShards Scenario.byParity
    tt Scenario.fnvOffsetBasis Scenario.halfDown Scenario.threeDigests
    (Value ([mkDigest "ab" 1], Some (OtherError "unavailable"))).
Proof.
  unfold Sharding.FindMissing.
  assert (E : groupDigests Scenario.keyOf Scenario.twoShards
                Scenario.byParity tt Scenario.fnvOffsetBasis
                Scenario.threeDigests ∅
              = Value (<[Some 0%nat := [mkDigest "ab" 1]]>
                         (<[Some 1%nat := [mkDigest "aa" 1; mkDigest "ac" 1]]>
                            ∅)))
    by (vm_compute; reflexivity).
  rewrite E. exists [Some 1%nat; Some 0%nat].
  split; [vm_compute; reflexivity | vm_compute; reflexivity].
Defined.

(** The theorem on C5 at three digests over two shards of which the second
    is unavailable: the digest the first shard misses is returned together
    with the error of the second. *)
Lemma fanout_witness :
  exists m arrival,
    groupDigests Scenario.keyOf Scenario.twoShards Scenario.byParity tt
      Scenario.fnvOffsetBasis Scenario.threeDigests ∅ = Value m /\
    NoDup arrival /\
    Value ([mkDigest "ab" 1], Some (OtherError "unavailable"))
    = Value
        (concat (map missing
                   (filter (fun r => err r = None)
                      (answers Scenario.halfDown m arrival))),
         last (omap err (answers Scenario.halfDown m arrival))).
Proof.
  destruct (proj2
              (sharded_FindMissing_joins_partial_results Digest unit nat _ _
                 Scenario.keyOf Scenario.twoShards Scenario.byParity tt
                 Scenario.fnvOffsetBasis Scenario.halfDown
                 Scenario.threeDigests
                 (Value ([mkDigest "ab" 1], Some (OtherError "unavailable")))
                 threeDigests_live)
              threeDigests_run)
    as (m & arrival & Hg & _ & Hnd & _ & _ & Hres & _).
  exists m, arrival. auto.
Defined.

(** ** The adapters composed, on literal inputs *)

(** An upload of "hello" under its digest goes through the integrity
    adapter to the store. *)
Example upload_of_a_matching_blob :
  byteStreamServer_Write
    (Put Scenario.toyFormatFromLength Scenario.readAllPut)
    (mkWriteServer
       [mkWriteRequest "uploads/u/blobs/6f6c6c6568/5" 0 false
          (list_ascii_of_string "hel");
        mkWriteRequest "" 3 true (list_ascii_of_string "lo")] EOF)
    Scenario.untouched
  = Returned None (mkWriteServer [] EOF) Scenario.untouched.
Proof. vm_compute. reflexivity. Qed.

(** The digest declares 5 bytes and the client sends 7. *)
Example upload_longer_than_declared :
  byteStreamServer_Write
    (Put Scenario.toyFormatFromLength Scenario.readAllPut)
    (mkWriteServer
       [mkWriteRequest "uploads/u/blobs/6f6c6c6568/5" 0 true
          (list_ascii_of_string "hello w")] EOF)
    Scenario.untouched
  = Returned
      (Some (StatusError InvalidArgument "Blob is longer than expected" []))
      (mkWriteServer [] EOF) Scenario.untouched.
Proof. vm_compute. reflexivity. Qed.

(** The store serves "hello world" for the digest of "hello": the read
    fails with Internal and the store has been asked to delete the blob. *)
Example download_of_a_corrupted_blob :
  let '(r, w) :=
    Get Scenario.toyFormatFromLength Scenario.corruptGet
      Scenario.recordingDelete EmptyString Scenario.helloDigest
      Scenario.untouched in
  (Read r 64%nat w).1.1
  = ([], Some (StatusError Internal "Blob is longer than expected" [])) /\
  (Read r 64%nat w).2
  = mkWorld [Scenario.helloDigest]
      [mkLog "Successfully deleted corrupted blob %s" Scenario.helloDigest
         None].
Proof. vm_compute. split; reflexivity. Qed.

(** A digest in uppercase is refused although the parser lets the name
    through. *)
Example upload_under_an_uppercase_hash :
  byteStreamServer_Write
    (Put Scenario.toyFormatFromLength Scenario.readAllPut)
    (mkWriteServer
       [mkWriteRequest "uploads/u/blobs/6F6C6C6568/5" 0 true Scenario.hello]
       EOF)
    Scenario.untouched
  = Returned
      (Some (StatusError InvalidArgument
               "Non-hexadecimal character in digest hash: %#U" [ArgRune 70]))
      (mkWriteServer [] EOF) Scenario.untouched.
Proof. vm_compute. reflexivity. Qed.
(** ** Reading a buffer or a scripted reader to the end *)

Lemma readAll_buffer fuel : forall W (w : W) bufs i acc v,
  (forall j, (1 <= bufs j)%nat) -> (length v < fuel)%nat ->
  exec (readAllFrom fuel bufs i acc) (mkBuffer v) w
  = Returned (Some (acc ++ v, None)) (mkBuffer []) w.
Proof.
  induction fuel as [|f IH]; intros W w bufs i acc v Hb Hf; [lia|].
  cbn [readAllFrom exec Read bufferReader_ReadCloser unread].
  destruct v as [|c t].
  - destruct (Nat.eqb_spec (bufs i) 0) as [E|_];
      [specialize (Hb i); lia|].
    cbn [exec]. reflexivity.
  - pose proof (Hb i) as Hi.
    rewrite IH; [|exact Hb|rewrite length_drop; cbn [length] in *; lia].
    now rewrite <- app_assoc, take_drop.
Qed.

Lemma readAll_value fuel : forall W (w : W) bufs i acc v,
  (forall j, (1 <= bufs j)%nat) -> (length v < fuel)%nat ->
  exec (readAllFrom fuel bufs i acc)
    (RedisGet.valueReader (mkBuffer v)) w
  = Returned (Some (acc ++ v, None)) (RedisGet.valueReader (mkBuffer [])) w.
Proof.
  induction fuel as [|f IH]; intros W w bufs i acc v Hb Hf; [lia|].
  cbn [readAllFrom exec Read RedisGet.redisReader_ReadCloser
       bufferReader_ReadCloser unread].
  destruct v as [|c t].
  - destruct (Nat.eqb_spec (bufs i) 0) as [E|_];
      [specialize (Hb i); lia|].
    cbn [exec]. reflexivity.
  - pose proof (Hb i) as Hi.
    rewrite IH; [|exact Hb|rewrite length_drop; cbn [length] in *; lia].
    now rewrite <- app_assoc, take_drop.
Qed.

(** A scripted reader that hands over [chunks] and ends with [last] and the
    error [e]. *)
Lemma readAll_script fuel : forall W (w : W) bufs i acc chunks last e c,
  (length chunks < fuel)%nat ->
  exec (readAllFrom fuel bufs i acc)
    {| script := map (fun c => (c, None)) chunks ++ [(last, Some e)];
       closed := c |} w
  = Returned (Some (acc ++ concat chunks ++ last, nilIfEOF e))
      {| script := []; closed := c |} w.
Proof.
  induction fuel as [|f IH]; intros W w bufs i acc chunks last e c Hf;
    [lia|].
  destruct chunks as [|ch rest].
  - reflexivity.
  - cbn [readAllFrom exec Read scriptReader_ReadCloser script map app closed].
    rewrite IH by (cbn [length] in Hf; lia).
    cbn [concat]. now rewrite <- !app_assoc.
Qed.

(** ** Redis store: what is stored can be read back *)

(** X1.  A Put that meets no failure stores the bytes its reader handed
    over, in one SET, and closes the reader once; from then on Get returns
    a reader over exactly these bytes, and FindMissing no longer reports the
    digest. *)
Theorem redis_put_then_get_returns_the_blob :
  forall (blobKeyer : string -> Digest -> string + error)
         (fuel : nat) (bufs : nat -> nat) (instance : string)
         (digest : Digest) (key : string) (chunks : list bytes)
         (last : bytes) (w : Redis.World),
    Redis.ctxErr w = None -> Redis.down w = None ->
    blobKeyer instance digest = inl key ->
    (length chunks < fuel)%nat ->
    let blob := concat chunks ++ last in
    let w1 := Redis.mkWorld None (<[key := blob]> (Redis.kv w)) None
                (Redis.sent w ++ [Redis.CmdSet key blob]) in
    exec (Redis.Put blobKeyer fuel bufs instance digest)
      {| script := streamOf chunks last; closed := 0 |} w
    = Returned None {| script := []; closed := 1 |} w1 /\
    RedisGet.Get blobKeyer instance digest w1
    = (RedisGet.valueReader (mkBuffer blob), w1) /\
    (forall fuel' bufs',
       (forall j, (1 <= bufs' j)%nat) -> (length blob < fuel')%nat ->
       exec (ReadAll fuel' bufs') (RedisGet.valueReader (mkBuffer blob)) w1
       = Returned (Some (blob, None)) (RedisGet.valueReader (mkBuffer []))
           w1) /\
    fst (Redis.FindMissing blobKeyer instance [digest] w1) = ([], None).
Proof.
  intros blobKeyer fuel bufs instance digest key chunks last w
    Hctx Hdown Hkey Hf blob w1.
  split; [|split; [|split]].
  - unfold Redis.Put. cbn [exec]. rewrite Hctx, exec_bind.
    unfold ReadAll, streamOf. rewrite readAll_script by exact Hf.
    cbn [nilIfEOF isEOF exec Close scriptReader_ReadCloser script closed app].
    rewrite Hkey. cbn [exec]. unfold Redis.clientSet, Redis.issue.
    cbn [Redis.down Redis.ctxErr Redis.kv Redis.sent].
    rewrite Hdown. cbn [exec]. rewrite Hctx. reflexivity.
  - unfold RedisGet.Get, RedisGet.clientGet, w1.
    cbn [Redis.ctxErr Redis.down Redis.kv]. rewrite Hkey.
    now rewrite lookup_insert_eq.
  - intros fuel' bufs' Hb Hf'. unfold ReadAll.
    now rewrite readAll_value.
  - unfold Redis.FindMissing, w1. cbn [Redis.ctxErr length Nat.eqb].
    cbn [Redis.existsKeys]. rewrite Hkey.
    unfold Redis.pipelineExists. cbn [Redis.down Redis.kv map].
    rewrite lookup_insert_eq. reflexivity.
Qed.

(** ** Redis store: FindMissing and the failures of Put *)

Lemma collectMissing_absent blobKeyer instance kv digests : forall keys,
  Redis.existsKeys blobKeyer instance digests = inl keys ->
  Redis.collectMissing
    (map (fun k => match kv !! k with Some _ => 1 | None => 0 end) keys)
    digests
  = filter (fun d => Wire.absent blobKeyer instance kv d = true) digests.
Proof.
  induction digests as [|d rest IH]; intros keys E.
  - cbn in E. injection E as <-. reflexivity.
  - cbn [Redis.existsKeys] in E.
    destruct (blobKeyer instance d) as [key|err] eqn:K; [|discriminate].
    destruct (Redis.existsKeys blobKeyer instance rest) as [ks|err] eqn:R;
      [|discriminate].
    injection E as <-. cbn [map Redis.collectMissing].
    rewrite (IH ks eq_refl).
    destruct (kv !! key) as [v|] eqn:L.
    + cbn [Z.eqb Pos.eqb]. rewrite filter_cons_False; [reflexivity|].
      unfold Wire.absent. rewrite K, L. discriminate.
    + cbn [Z.eqb]. rewrite filter_cons_True; [reflexivity|].
      unfold Wire.absent. now rewrite K, L.
Qed.

Lemma existsKeys_fails blobKeyer instance digests d err :
  d ∈ digests -> blobKeyer instance d = inr err ->
  exists err', Redis.existsKeys blobKeyer instance digests = inr err'.
Proof.
  induction digests as [|d0 rest IH]; intros Hin K.
  - now apply elem_of_nil in Hin.
  - cbn [Redis.existsKeys].
    destruct (blobKeyer instance d0) as [key|e0] eqn:K0; [|now exists e0].
    apply elem_of_cons in Hin as [->|Hin]; [congruence|].
    destruct (IH Hin K) as [e' ->]. now exists e'.
Qed.

(** X2.  With a live context and a list that is not empty, FindMissing
    sends one EXISTS per digest, in order and in one pipeline, and returns
    exactly the digests whose key is not in the store, in the order of the
    request; the store is left as it was.  When the pipeline fails it
    returns the failure and no digest; when the keyer refuses one of the
    digests it returns an error before anything is sent. *)
Theorem redis_FindMissing_reports_the_absent_keys :
  forall (blobKeyer : string -> Digest -> string + error)
         (instance : string) (digests : list Digest) (w : Redis.World),
    Redis.ctxErr w = None -> digests <> [] ->
    (forall keys,
       Redis.existsKeys blobKeyer instance digests = inl keys ->
       length keys = length digests /\
       (Redis.down w = None ->
        Redis.FindMissing blobKeyer instance digests w
        = (filter
             (fun d => Wire.absent blobKeyer instance (Redis.kv w) d = true)
             digests,
           None,
           Redis.mkWorld None (Redis.kv w) None
             (Redis.sent w ++ map Redis.CmdExists keys))) /\
       (forall e,
          Redis.down w = Some e ->
          Redis.FindMissing blobKeyer instance digests w
          = ([], Some e,
             Redis.mkWorld None (Redis.kv w) (Some e)
               (Redis.sent w ++ map Redis.CmdExists keys)))) /\
    (forall d err,
       d ∈ digests -> blobKeyer instance d = inr err ->
       exists err',
         Redis.FindMissing blobKeyer instance digests w = ([], Some err', w)).
Proof.
  intros blobKeyer instance digests w Hctx Hne.
  assert (Hlen : (length digests =? 0)%nat = false)
    by (destruct digests; [congruence|reflexivity]).
  split.
  - intros keys E. split; [|split].
    + exact (existsKeys_length _ _ _ _ E).
    + intros Hdown. unfold Redis.FindMissing.
      rewrite Hctx, Hlen, E. unfold Redis.pipelineExists.
      rewrite Hdown, Hctx.
      now rewrite (collectMissing_absent _ _ _ _ _ E).
    + intros e Hdown. unfold Redis.FindMissing.
      rewrite Hctx, Hlen, E. unfold Redis.pipelineExists.
      now rewrite Hdown, Hctx.
  - intros d err Hin K.
    destruct (existsKeys_fails _ _ _ _ _ Hin K) as [err' E].
    exists err'. unfold Redis.FindMissing. now rewrite Hctx, Hlen, E.
Qed.

(** X3.  Put stores nothing unless every step succeeded.  With a context
    that is already done it returns the context's error without reading or
    closing the reader; when the reader fails it returns the reader's
    error, and when the keyer fails the keyer's, after the reader was read
    and closed once: in each case no command reaches the server.  When the
    SET itself fails the store keeps what it held. *)
Theorem redis_put_stores_nothing_on_failure :
  forall (blobKeyer : string -> Digest -> string + error)
         (fuel : nat) (bufs : nat -> nat) (instance : string)
         (digest : Digest) (w : Redis.World),
    (forall RC (rc : ReadCloser Redis.World RC) (r : RC) err,
       Redis.ctxErr w = Some err ->
       exec (Redis.Put blobKeyer fuel bufs instance digest) r w
       = Returned (Some err) r w) /\
    (forall chunks last e,
       Redis.ctxErr w = None -> e <> EOF -> (length chunks < fuel)%nat ->
       exec (Redis.Put blobKeyer fuel bufs instance digest)
         {| script := map (fun c => (c, None)) chunks ++ [(last, Some e)];
            closed := 0 |} w
       = Returned (Some e) {| script := []; closed := 1 |} w) /\
    (forall chunks last err,
       Redis.ctxErr w = None -> blobKeyer instance digest = inr err ->
       (length chunks < fuel)%nat ->
       exec (Redis.Put blobKeyer fuel bufs instance digest)
         {| script := streamOf chunks last; closed := 0 |} w
       = Returned (Some err) {| script := []; closed := 1 |} w) /\
    (forall chunks last key e,
       Redis.ctxErr w = None -> blobKeyer instance digest = inl key ->
       Redis.down w = Some e -> (length chunks < fuel)%nat ->
       exists w1,
         exec (Redis.Put blobKeyer fuel bufs instance digest)
           {| script := streamOf chunks last; closed := 0 |} w
         = Returned (Some e) {| script := []; closed := 1 |} w1 /\
         Redis.kv w1 = Redis.kv w).
Proof.
  intros blobKeyer fuel bufs instance digest w.
  split; [|split; [|split]].
  - intros RC rc r err Hctx. unfold Redis.Put. cbn [exec].
    now rewrite Hctx.
  - intros chunks last e Hctx He Hf. unfold Redis.Put. cbn [exec].
    rewrite Hctx, exec_bind. unfold ReadAll.
    rewrite readAll_script by exact Hf.
    cbn [exec Close scriptReader_ReadCloser script closed].
    unfold nilIfEOF. destruct e; try congruence; reflexivity.
  - intros chunks last err Hctx K Hf. unfold Redis.Put. cbn [exec].
    rewrite Hctx, exec_bind. unfold ReadAll, streamOf.
    rewrite readAll_script by exact Hf.
    cbn [nilIfEOF isEOF exec Close scriptReader_ReadCloser script closed].
    now rewrite K.
  - intros chunks last key e Hctx K Hdown Hf.
    eexists. split.
    + unfold Redis.Put. cbn [exec].
      rewrite Hctx, exec_bind. unfold ReadAll, streamOf.
      rewrite readAll_script by exact Hf.
      cbn [nilIfEOF isEOF exec Close scriptReader_ReadCloser script closed].
      rewrite K. cbn [exec]. unfold Redis.clientSet, Redis.issue.
      cbn [Redis.down]. rewrite Hdown. cbn [exec]. reflexivity.
    + reflexivity.
Qed.

(** ** Action cache over the Redis store *)

(** X4.  An action result put into the cache is the one got back: when
    the result marshals to bytes that unmarshal to it, PutActionResult
    stores these bytes under the digest's key, and GetActionResult then
    returns the result.  Without an entry under the key GetActionResult
    reports NotFound. *)
Theorem action_result_put_then_get :
  forall (AR : Type) (Marshal : AR -> bytes + error)
         (Unmarshal : bytes -> AR + error)
         (blobKeyer : string -> Digest -> string + error)
         (fuel : nat) (bufs : nat -> nat) (instance : string)
         (digest : Digest) (key : string) (w : Redis.World),
    Redis.ctxErr w = None -> Redis.down w = None ->
    blobKeyer instance digest = inl key ->
    (forall j, (1 <= bufs j)%nat) ->
    (forall result data,
       Marshal result = inl data -> Unmarshal data = inl result ->
       (length data < fuel)%nat ->
       let w1 := Redis.mkWorld None (<[key := data]> (Redis.kv w)) None
                   (Redis.sent w ++ [Redis.CmdSet key data]) in
       ActionCache.PutActionResult (Redis.Put blobKeyer fuel bufs) Marshal
         instance digest result w
       = Returned None tt w1 /\
       ActionCache.GetActionResult (RedisGet.Get blobKeyer) Unmarshal fuel
         bufs instance digest w1
       = Returned (inl result) (RedisGet.valueReader (mkBuffer [])) w1) /\
    (Redis.kv w !! key = None -> (1 <= fuel)%nat ->
     ActionCache.GetActionResult (RedisGet.Get blobKeyer) Unmarshal fuel
       bufs instance digest w
     = Returned (inr (StatusError NotFound "redis: nil" []))
         (RedisGet.errorReader (StatusError NotFound "redis: nil" [])) w).
Proof.
  intros AR Marshal Unmarshal blobKeyer fuel bufs instance digest key w
    Hctx Hdown Hkey Hb.
  split.
  - intros result data HM HU Hf w1. split.
    + unfold ActionCache.PutActionResult. rewrite HM.
      unfold Redis.Put. cbn [exec]. rewrite Hctx, exec_bind.
      unfold ReadAll. rewrite readAll_buffer by assumption.
      cbn [exec Close bufferReader_ReadCloser app]. rewrite Hkey.
      cbn [exec]. unfold Redis.clientSet, Redis.issue.
      cbn [Redis.down Redis.ctxErr Redis.kv Redis.sent].
      rewrite Hdown. cbn [exec]. rewrite Hctx. reflexivity.
    + unfold ActionCache.GetActionResult, RedisGet.Get, RedisGet.clientGet,
        w1.
      cbn [Redis.ctxErr Redis.down Redis.kv]. rewrite Hkey.
      rewrite lookup_insert_eq, exec_bind. unfold ReadAll.
      rewrite readAll_value by assumption.
      cbn [exec Close RedisGet.redisReader_ReadCloser app].
      now rewrite HU.
  - intros Hnone Hf.
    unfold ActionCache.GetActionResult, RedisGet.Get, RedisGet.clientGet.
    rewrite Hctx, Hkey, Hdown, Hnone, exec_bind. unfold ReadAll.
    destruct fuel as [|f]; [lia|].
    cbn [readAllFrom exec Read Close RedisGet.redisReader_ReadCloser app
         nilIfEOF isEOF].
    reflexivity.
Qed.

(** ** Downloads served from the Redis store *)

Lemma chunksOf_fuels n : (1 <= n)%nat -> forall k k' blob,
  (length blob <= k)%nat -> (length blob <= k')%nat ->
  Wire.chunksOf k n blob = Wire.chunksOf k' n blob.
Proof.
  intros Hn k. induction k as [|k IH]; intros k' blob Hk Hk'.
  - destruct blob; [now destruct k'|cbn in Hk; lia].
  - destruct blob as [|c t]; [now destruct k'|].
    destruct k' as [|k']; [cbn in Hk'; lia|].
    cbn [Wire.chunksOf]. f_equal.
    apply IH; rewrite length_drop; cbn [length] in *; lia.
Qed.

Lemma chunksOf_fuel n : (1 <= n)%nat -> forall k blob,
  (length blob <= k)%nat -> Wire.chunksOf k n blob = Wire.chunked n blob.
Proof.
  intros Hn k blob Hk. unfold Wire.chunked.
  apply chunksOf_fuels; [exact Hn|exact Hk|lia].
Qed.

Lemma chunked_cons n c t :
  (1 <= n)%nat ->
  Wire.chunked n (c :: t)
  = take n (c :: t) :: Wire.chunked n (drop n (c :: t)).
Proof.
  intros Hn. unfold Wire.chunked at 1. cbn [length Wire.chunksOf].
  f_equal. apply chunksOf_fuel; [exact Hn|].
  rewrite length_drop. cbn [length]. lia.
Qed.

Lemma chunked_spec n : (1 <= n)%nat -> forall k blob,
  (length blob <= k)%nat ->
  concat (Wire.chunked n blob) = blob /\
  Forall (fun c => (1 <= length c <= n)%nat) (Wire.chunked n blob).
Proof.
  intros Hn k. induction k as [|k IH]; intros blob Hk.
  - destruct blob; [split; [reflexivity|constructor]|cbn in Hk; lia].
  - destruct blob as [|c t]; [split; [reflexivity|constructor]|].
    rewrite chunked_cons by exact Hn.
    destruct (IH (drop n (c :: t))) as [IH1 IH2].
    { rewrite length_drop. cbn [length] in *. lia. }
    split.
    + cbn [concat]. rewrite IH1. apply take_drop.
    + constructor; [|exact IH2].
      rewrite length_take. cbn [length]. lia.
Qed.

Lemma readChunks_value n : (1 <= n)%nat ->
  forall fuel blob (w : Redis.World) out,
  (length blob < fuel)%nat ->
  ByteStream.readChunks Wire.sendTo n fuel
    (RedisGet.valueReader (mkBuffer blob)) (w, out)
  = Some (None, RedisGet.valueReader (mkBuffer []),
          (w, out ++ Wire.chunked n blob)).
Proof.
  intros Hn fuel. induction fuel as [|f IH]; intros blob w out Hf; [lia|].
  cbn [ByteStream.readChunks Read RedisGet.redisReader_ReadCloser
       bufferReader_ReadCloser unread].
  destruct blob as [|c t].
  - destruct (Nat.eqb_spec n 0) as [E|_]; [lia|].
    cbn. now rewrite app_nil_r.
  - cbn [isSome isEOF andb negb].
    assert (Hpos : (0 <? length (take n (c :: t)))%nat = true).
    { apply Nat.ltb_lt. rewrite length_take. cbn [length]. lia. }
    rewrite Hpos. unfold Wire.sendTo at 1. cbn [fst snd].
    rewrite IH by (rewrite length_drop; cbn [length] in *; lia).
    rewrite chunked_cons by exact Hn.
    now rewrite <- app_assoc.
Qed.

(** X5.  A Read request for a blob held by the Redis store sends the blob
    cut into chunks of readChunkSize bytes, the last one possibly shorter
    and none of them empty, so that the chunks put together are the blob;
    for an empty blob nothing is sent.  When the key is not in the store
    the request fails with NotFound and nothing is sent. *)
Theorem download_sends_the_blob_in_chunks :
  forall (blobKeyer : string -> Digest -> string + error)
         (readChunkSize fuel : nat) (name instance : string)
         (digest : Digest) (key : string) (w : Redis.World)
         (out : list bytes),
    parseResourceNameRead name = (instance, Some digest) ->
    Redis.ctxErr w = None -> Redis.down w = None ->
    blobKeyer instance digest = inl key ->
    (1 <= readChunkSize)%nat ->
    (forall blob,
       Redis.kv w !! key = Some blob -> (length blob < fuel)%nat ->
       ByteStream.byteStreamServer_Read (Wire.getBeside blobKeyer)
         Wire.sendTo readChunkSize fuel (ByteStream.mkReadRequest name 0 0)
         (w, out)
       = Some (None, (w, out ++ Wire.chunked readChunkSize blob)) /\
       concat (Wire.chunked readChunkSize blob) = blob /\
       Forall (fun c => (1 <= length c <= readChunkSize)%nat)
         (Wire.chunked readChunkSize blob)) /\
    (Redis.kv w !! key = None -> (1 <= fuel)%nat ->
     ByteStream.byteStreamServer_Read (Wire.getBeside blobKeyer)
       Wire.sendTo readChunkSize fuel (ByteStream.mkReadRequest name 0 0)
       (w, out)
     = Some (Some (StatusError NotFound "redis: nil" []), (w, out))).
Proof.
  intros blobKeyer readChunkSize fuel name instance digest key w out
    Hparse Hctx Hdown Hkey Hn.
  split.
  - intros blob Hblob Hf. split.
    + unfold ByteStream.byteStreamServer_Read.
      cbn [ByteStream.ReadOffset ByteStream.ReadLimit
           ByteStream.rdResourceName Z.eqb negb orb].
      rewrite Hparse. unfold Wire.getBeside, RedisGet.Get, RedisGet.clientGet.
      cbn [fst]. rewrite Hctx, Hkey, Hdown, Hblob. cbn [fst].
      rewrite (readChunks_value _ Hn) by exact Hf.
      reflexivity.
    + apply (chunked_spec _ Hn (length blob)). lia.
  - intros Hnone Hf.
    unfold ByteStream.byteStreamServer_Read.
    cbn [ByteStream.ReadOffset ByteStream.ReadLimit
         ByteStream.rdResourceName Z.eqb negb orb].
    rewrite Hparse. unfold Wire.getBeside, RedisGet.Get, RedisGet.clientGet.
    cbn [fst]. rewrite Hctx, Hkey, Hdown, Hnone. cbn [fst].
    destruct fuel as [|f]; [lia|]. reflexivity.
Qed.

(** ** gRPC CAS relay: downloads *)

Lemma readAll_blobReader fuel : forall W (w : W) bufs i acc partial chunks e,
  (forall j, (1 <= bufs j)%nat) ->
  (length (partial ++ concat chunks) + length chunks < fuel)%nat ->
  exec (readAllFrom fuel bufs i acc)
    (RelayStream.mkBlobReader (RelayStream.mkReadClient chunks e) partial) w
  = Returned (Some (acc ++ partial ++ concat chunks, nilIfEOF e))
      (RelayStream.mkBlobReader (RelayStream.mkReadClient [] e) []) w.
Proof.
  induction fuel as [|f IH]; intros W w bufs i acc partial chunks e Hb Hf;
    [lia|].
  pose proof (Hb i) as Hi.
  cbn [readAllFrom exec Read RelayStream.byteStreamBlobReader_ReadCloser].
  unfold RelayStream.byteStreamBlobReader_Read.
  cbn [RelayStream.partial RelayStream.client].
  destruct partial as [|c t].
  - cbn [length Nat.ltb Nat.leb]. unfold RelayStream.Recv.
    cbn [RelayStream.pending RelayStream.endError].
    destruct chunks as [|ch rest].
    + cbn [exec app concat]. reflexivity.
    + rewrite IH; [|exact Hb|].
      * cbn [concat app]. now rewrite <- !app_assoc, (app_assoc (take _ _)),
          take_drop.
      * cbn [concat app length] in Hf. rewrite !length_app in *.
        rewrite length_drop. lia.
  - replace (0 <? length (c :: t))%nat with true
      by (symmetry; apply Nat.ltb_lt; cbn [length]; lia).
    rewrite IH; [|exact Hb|].
    + now rewrite <- !app_assoc, (app_assoc (take _ _)), take_drop.
    + rewrite !length_app in *. rewrite length_drop. cbn [length] in *. lia.
Qed.

(** X6.  A download through the relay hands over the data of the
    responses of the remote service, in order and without loss, whatever
    the sizes of the buffers it is read with and of the responses: Get
    issues one Read request under the resource name of the digest, takes
    the first response at once, and its reader, read to the end, yields the
    data of all responses and the error that ended the stream, io.EOF
    counting as none. *)
Theorem relay_download_reassembles_the_responses :
  forall (D : Type) (GetInstance : D -> string) (GetHash : D -> bytes)
         (GetSizeBytes : D -> Z) (digest : D) (w : RelayStream.Downloads)
         (first : bytes) (rest : list bytes) (e : error)
         (fuel : nat) (bufs : nat -> nat),
    let request :=
      ByteStream.mkReadRequest
        (RelayStream.readResourceName (GetInstance digest) (GetHash digest)
           (GetSizeBytes digest)) 0 0 in
    RelayStream.serve w request
    = inl (RelayStream.mkReadClient (first :: rest) e) ->
    (forall j, (1 <= bufs j)%nat) ->
    (length (first ++ concat rest) + length rest < fuel)%nat ->
    RelayStream.Get GetInstance GetHash GetSizeBytes digest w
    = (RelayStream.Value
         (inl (GetSizeBytes digest,
               RelayStream.mkBlobReader (RelayStream.mkReadClient rest e)
                 first)),
       RelayStream.mkDownloads (RelayStream.requested w ++ [request])
         (RelayStream.serve w)) /\
    exec (ReadAll fuel bufs)
      (RelayStream.mkBlobReader (RelayStream.mkReadClient rest e) first) w
    = Returned (Some (first ++ concat rest, nilIfEOF e))
        (RelayStream.mkBlobReader (RelayStream.mkReadClient [] e) []) w.
Proof.
  intros D GetInstance GetHash GetSizeBytes digest w first rest e fuel bufs
    request Hserve Hb Hf.
  split.
  - unfold RelayStream.Get, RelayStream.byteStreamClient_Read.
    fold request. rewrite Hserve. reflexivity.
  - unfold ReadAll. now rewrite readAll_blobReader.
Qed.

Lemma chunked_length n blob :
  (1 <= n)%nat -> (length (Wire.chunked n blob) <= length blob)%nat.
Proof.
  intros Hn.
  destruct (chunked_spec n Hn (length blob) blob (Nat.le_refl _)) as [Hc HF].
  rewrite <- Hc at 2. clear Hc.
  induction HF as [|c cs [H1 _] _ IH]; [reflexivity|].
  cbn [concat length]. rewrite length_app. lia.
Qed.

(** X7.  A download relayed from a ByteStream server, which sends a blob
    cut into chunks of its readChunkSize and then ends the stream: when
    the blob is not empty, Get returns a reader that, read to the end,
    yields exactly the blob; when the blob is empty the stream ends before
    any response, the first response is nil, and Get panics on its Data. *)
Theorem relayed_download_returns_the_blob_unless_empty :
  forall (D : Type) (GetInstance : D -> string) (GetHash : D -> bytes)
         (GetSizeBytes : D -> Z) (digest : D) (w : RelayStream.Downloads)
         (readChunkSize : nat) (blob : bytes)
         (fuel : nat) (bufs : nat -> nat),
    let request :=
      ByteStream.mkReadRequest
        (RelayStream.readResourceName (GetInstance digest) (GetHash digest)
           (GetSizeBytes digest)) 0 0 in
    RelayStream.serve w request
    = inl (RelayStream.mkReadClient (Wire.chunked readChunkSize blob) EOF) ->
    (1 <= readChunkSize)%nat ->
    (forall j, (1 <= bufs j)%nat) ->
    (2 * length blob < fuel)%nat ->
    (blob <> [] ->
     exists r,
       fst (RelayStream.Get GetInstance GetHash GetSizeBytes digest w)
       = RelayStream.Value (inl (GetSizeBytes digest, r)) /\
       exec (ReadAll fuel bufs) r w
       = Returned (Some (blob, None))
           (RelayStream.mkBlobReader (RelayStream.mkReadClient [] EOF) [])
           w) /\
    (blob = [] ->
     fst (RelayStream.Get GetInstance GetHash GetSizeBytes digest w)
     = RelayStream.Panic).
Proof.
  intros D GetInstance GetHash GetSizeBytes digest w n blob fuel bufs
    request Hserve Hn Hb Hf.
  split.
  - intros Hne. destruct blob as [|c t]; [congruence|].
    pose proof (chunked_length n (c :: t) Hn) as Hlen.
    destruct (chunked_spec n Hn _ (c :: t) (Nat.le_refl _)) as [Hc _].
    rewrite chunked_cons in Hserve, Hlen, Hc by exact Hn.
    eexists. split.
    + unfold RelayStream.Get, RelayStream.byteStreamClient_Read.
      fold request. rewrite Hserve. reflexivity.
    + unfold ReadAll. rewrite readAll_blobReader; [|exact Hb|].
      * cbn [concat] in Hc. now rewrite Hc.
      * cbn [concat] in Hc. rewrite Hc. cbn [length] in *. lia.
  - intros ->.
    unfold RelayStream.Get, RelayStream.byteStreamClient_Read.
    fold request. rewrite Hserve. reflexivity.
Qed.

(** ** Resource names: what the relay prints, the service parses *)

Lemma byteZ_byteOfZ z : 0 <= z < 256 -> byteZ (byteOfZ z) = z.
Proof.
  intros Hz. unfold byteZ, byteOfZ.
  rewrite nat_ascii_embedding by lia. lia.
Qed.

Lemma allBytes_mono (P Q : Z -> bool) s :
  (forall b, P b = true -> Q b = true) ->
  allBytes P s = true -> allBytes Q s = true.
Proof.
  intros HPQ. induction s as [|c t IH]; [reflexivity|].
  cbn [allBytes]. rewrite !andb_true_iff. intros [H1 H2]. auto.
Qed.

Lemma digit_isDigit u : 0 <= u < 10 -> isDigit (byteZ (digit u)) = true.
Proof.
  intros Hu. unfold digit. rewrite byteZ_byteOfZ by lia.
  apply isDigit_range. lia.
Qed.

Lemma formatBits_spec fuel : forall u acc,
  0 <= u < 10 ^ Z.of_nat fuel -> allBytes isDigit acc = true ->
  allBytes isDigit (formatBits fuel u acc) = true /\
  decimalValue (formatBits fuel u acc)
  = u * 10 ^ Z.of_nat (String.length acc) + decimalValue acc.
Proof.
  induction fuel as [|f IH]; intros u acc Hu Hacc.
  - cbn [formatBits]. split; [exact Hacc|].
    change (10 ^ Z.of_nat 0) with 1 in Hu. assert (u = 0) as -> by lia. lia.
  - cbn [formatBits]. destruct (Z.ltb_spec u 10) as [Hlt|Hge].
    + split.
      * cbn [allBytes]. rewrite digit_isDigit by lia. exact Hacc.
      * cbn [decimalValue]. unfold digit. rewrite byteZ_byteOfZ by lia. lia.
    + rewrite Nat2Z.inj_succ, Z.pow_succ_r in Hu by lia.
      pose proof (Z.div_mod u 10 ltac:(lia)) as Hdm.
      pose proof (Z.mod_pos_bound u 10 ltac:(lia)) as Hm.
      destruct (IH (u / 10) (String (digit (u mod 10)) acc)) as [I1 I2].
      * split; [apply Z.div_pos; lia|].
        apply Z.div_lt_upper_bound; lia.
      * cbn [allBytes]. rewrite digit_isDigit by lia. exact Hacc.
      * split; [exact I1|]. rewrite I2.
        cbn [decimalValue String.length]. unfold digit.
        rewrite byteZ_byteOfZ by lia.
        rewrite Nat2Z.inj_succ, Z.pow_succ_r by lia.
        set (P := 10 ^ Z.of_nat (String.length acc)).
        replace (48 + u mod 10 - 48) with (u mod 10) by lia.
        rewrite Hdm at 3. ring.
Qed.

Lemma formatBits_nonempty fuel : forall u acc,
  fuel <> 0%nat \/ acc <> EmptyString ->
  formatBits fuel u acc <> EmptyString.
Proof.
  induction fuel as [|f IH]; intros u acc H.
  - cbn [formatBits]. destruct H; congruence.
  - cbn [formatBits]. destruct (u <? 10); [discriminate|].
    apply IH. right. discriminate.
Qed.

Lemma FormatUint_spec u :
  0 <= u < 2 ^ 64 ->
  isDigits (FormatUint u) /\ decimalValue (FormatUint u) = u.
Proof.
  intros Hu. unfold FormatUint.
  destruct (formatBits_spec 20 u EmptyString) as [H1 H2];
    [change (10 ^ Z.of_nat 20) with 100000000000000000000; lia
    |reflexivity|].
  split.
  - split; [apply formatBits_nonempty; left; discriminate|exact H1].
  - rewrite H2. cbn [String.length decimalValue]. cbn. lia.
Qed.

Lemma FormatInt_decimal z :
  int64Range z -> decimalInteger (FormatInt z) z.
Proof.
  unfold int64Range, FormatInt. intros Hz.
  destruct (Z.ltb_spec z 0) as [Hneg|Hpos].
  - destruct (FormatUint_spec (- z)) as [H1 H2]; [lia|].
    replace z with (- decimalValue (FormatUint (- z))) at 2 by lia.
    now apply dec_minus.
  - destruct (FormatUint_spec z) as [H1 H2]; [lia|].
    rewrite <- H2 at 2. now apply dec_unsigned.
Qed.

Lemma isDigit_notSlash b : isDigit b = true -> Wire.notSlash b = true.
Proof.
  rewrite isDigit_range. intros H. unfold Wire.notSlash.
  destruct (Z.eqb_spec b 47); [lia|reflexivity].
Qed.

Lemma FormatInt_plain z :
  int64Range z ->
  allBytes Wire.notSlash (FormatInt z) = true /\ FormatInt z <> EmptyString.
Proof.
  unfold int64Range, FormatInt. intros Hz.
  destruct (Z.ltb_spec z 0) as [Hneg|Hpos].
  - destruct (FormatUint_spec (- z)) as [[_ H1] _]; [lia|].
    split; [|discriminate].
    cbn [allBytes]. rewrite (allBytes_mono _ _ _ isDigit_notSlash H1).
    reflexivity.
  - destruct (FormatUint_spec z) as [[H0 H1] _]; [lia|].
    split; [|exact H0].
    exact (allBytes_mono _ _ _ isDigit_notSlash H1).
Qed.

Lemma hexDigit_lower z : 0 <= z < 16 -> isLowerHex (byteZ (hexDigit z)) = true.
Proof.
  intros Hz. unfold hexDigit, isLowerHex.
  destruct (Z.ltb_spec z 10); rewrite byteZ_byteOfZ by lia.
  - apply orb_true_iff. left. apply andb_true_iff. split; apply Z.leb_le; lia.
  - apply orb_true_iff. right. apply andb_true_iff.
    split; apply Z.leb_le; lia.
Qed.

(** The text hex.EncodeToString prints is made of lowercase hexadecimal
    digits, two for each byte. *)
Lemma hexEncodeToString_lower b :
  allBytes isLowerHex (hexEncodeToString b) = true /\
  String.length (hexEncodeToString b) = (2 * length b)%nat.
Proof.
  induction b as [|c t [IH1 IH2]]; [split; reflexivity|].
  pose proof (byteZ_range c) as Hc.
  cbn [hexEncodeToString allBytes String.length length]. split.
  - rewrite !hexDigit_lower, IH1; [reflexivity| |].
    + assert (E : Z.land (byteZ c) 15 = byteZ c mod 2 ^ 4)
        by (apply (land_low_bits (byteZ c) 4); lia).
      rewrite E. apply Z.mod_pos_bound. lia.
    + rewrite Z.shiftr_div_pow2 by lia. change (2 ^ 4) with 16.
      split; [apply Z.div_pos; lia|apply Z.div_lt_upper_bound; lia].
  - rewrite IH2. lia.
Qed.

Lemma isLowerHex_notSlash b : isLowerHex b = true -> Wire.notSlash b = true.
Proof.
  unfold isLowerHex, Wire.notSlash. intros H.
  destruct (Z.eqb_spec b 47) as [->|_]; [discriminate H|reflexivity].
Qed.

Lemma hexEncodeToString_plain b :
  b <> [] ->
  allBytes Wire.notSlash (hexEncodeToString b) = true /\
  hexEncodeToString b <> EmptyString.
Proof.
  intros Hb. split.
  - exact (allBytes_mono _ _ _ isLowerHex_notSlash
             (proj1 (hexEncodeToString_lower b))).
  - destruct b; [congruence|discriminate].
Qed.

Lemma splitOn_plain a : forall rest cur,
  allBytes Wire.notSlash a = true ->
  splitOn 47 (a +:+ rest) cur = splitOn 47 rest (cur +:+ a).
Proof.
  induction a as [|c t IH]; intros rest cur H.
  - now rewrite append_nil_r.
  - cbn [allBytes] in H. apply andb_true_iff in H as [Hc Ht].
    change (String c t +:+ rest) with (String c (t +:+ rest)).
    cbn [splitOn]. unfold Wire.notSlash in Hc.
    destruct (byteZ c =? 47); [discriminate|].
    rewrite IH by exact Ht. now rewrite append_assoc.
Qed.

Lemma splitOn_field a rest :
  allBytes Wire.notSlash a = true ->
  splitOn 47 (a +:+ String "/"%char rest) EmptyString
  = a :: splitOn 47 rest EmptyString.
Proof.
  intros H. rewrite splitOn_plain by exact H. reflexivity.
Qed.

Lemma splitOn_last a :
  allBytes Wire.notSlash a = true -> splitOn 47 a EmptyString = [a].
Proof.
  intros H. rewrite <- (append_nil_r a) at 1.
  rewrite splitOn_plain by exact H. reflexivity.
Qed.

Lemma segments_of_fields (fs : list string) (lst : string) :
  Forall (fun f => allBytes Wire.notSlash f = true /\ f <> EmptyString) fs ->
  allBytes Wire.notSlash lst = true -> lst <> EmptyString ->
  segments (fold_right (fun f s => f +:+ String "/"%char s) lst fs)
  = fs ++ [lst].
Proof.
  unfold segments. intros HF Hl Hne.
  induction HF as [|f fs [H1 H2] _ IH].
  - cbn [fold_right app]. rewrite splitOn_last by exact Hl.
    now rewrite filter_cons_True, filter_nil.
  - cbn [fold_right app]. rewrite splitOn_field by exact H1.
    rewrite filter_cons_True by exact H2. now rewrite IH.
Qed.

Lemma splitOn_pieces s : forall cur x,
  allBytes Wire.notSlash cur = true -> x ∈ splitOn 47 s cur ->
  allBytes Wire.notSlash x = true.
Proof.
  induction s as [|c t IH]; intros cur x Hcur Hx.
  - cbn [splitOn] in Hx. apply list_elem_of_singleton in Hx. now subst.
  - cbn [splitOn] in Hx. destruct (Z.eqb_spec (byteZ c) 47) as [E|E].
    + apply elem_of_cons in Hx as [->|Hx]; [exact Hcur|].
      now apply (IH EmptyString).
    + apply (IH (cur +:+ String c EmptyString)); [|exact Hx].
      clear -Hcur E. induction cur as [|c0 t0 IHc].
      * change (EmptyString +:+ String c EmptyString)
          with (String c EmptyString).
        cbn [allBytes]. unfold Wire.notSlash.
        destruct (Z.eqb_spec (byteZ c) 47); [contradiction|reflexivity].
      * change (String c0 t0 +:+ String c EmptyString)
          with (String c0 (t0 +:+ String c EmptyString)).
        cbn [allBytes] in *. apply andb_true_iff in Hcur as [H1 H2].
        rewrite H1. now apply IHc.
Qed.

Lemma segments_plain s x :
  x ∈ segments s -> allBytes Wire.notSlash x = true.
Proof.
  unfold segments. intros Hx. apply list_elem_of_filter in Hx as [_ Hx].
  now apply (splitOn_pieces s EmptyString).
Qed.

Lemma resource_names_parse instance uuid hash size :
  hash <> [] -> int64Range size ->
  uuid <> EmptyString -> allBytes Wire.notSlash uuid = true ->
  allBytes Wire.notSlash instance = true ->
  parseResourceNameRead (RelayStream.readResourceName instance hash size)
  = (instance, Some (mkDigest (hexEncodeToString hash) size)) /\
  parseResourceNameWrite
    (RelayStream.writeResourceName instance uuid hash size)
  = (instance, Some (mkDigest (hexEncodeToString hash) size)).
Proof.
  intros Hhash Hsize Huuid Huplain Hi.
  destruct (hexEncodeToString_plain hash Hhash) as [Hh1 Hh2].
  destruct (FormatInt_plain size Hsize) as [Hs1 Hs2].
  pose proof (FormatInt_decimal size Hsize) as Hdec.
  split.
  - apply parseResourceNameRead_spec. exists (FormatInt size).
    split; [|split; [exact Hdec|exact Hsize]].
    unfold readSegments, RelayStream.readResourceName.
    destruct (String.eqb_spec instance EmptyString) as [->|Hne].
    + left. split; [reflexivity|].
      change ("blobs/" +:+ hexEncodeToString hash +:+ "/" +:+ FormatInt size)
        with (fold_right (fun f s => f +:+ String "/"%char s)
                (FormatInt size) ["blobs"; hexEncodeToString hash]).
      rewrite segments_of_fields; [reflexivity| |exact Hs1|exact Hs2].
      repeat constructor; try assumption; discriminate.
    + right.
      change (instance +:+ "/blobs/" +:+ hexEncodeToString hash +:+ "/"
              +:+ FormatInt size)
        with (fold_right (fun f s => f +:+ String "/"%char s)
                (FormatInt size)
                [instance; "blobs"; hexEncodeToString hash]).
      rewrite segments_of_fields; [reflexivity| |exact Hs1|exact Hs2].
      repeat constructor; try assumption; discriminate.
  - apply parseResourceNameWrite_spec. exists (FormatInt size).
    split; [|split; [exact Hdec|exact Hsize]].
    unfold writeSegments, RelayStream.writeResourceName. exists uuid.
    destruct (String.eqb_spec instance EmptyString) as [->|Hne].
    + left. split; [reflexivity|].
      change ("uploads/" +:+ uuid +:+ "/blobs/"
              +:+ hexEncodeToString hash +:+ "/" +:+ FormatInt size)
        with (fold_right (fun f s => f +:+ String "/"%char s)
                (FormatInt size)
                ["uploads"; uuid; "blobs"; hexEncodeToString hash]).
      rewrite segments_of_fields; [reflexivity| |exact Hs1|exact Hs2].
      repeat constructor; try assumption; discriminate.
    + right.
      change (instance +:+ "/uploads/" +:+ uuid +:+ "/blobs/"
              +:+ hexEncodeToString hash +:+ "/" +:+ FormatInt size)
        with (fold_right (fun f s => f +:+ String "/"%char s)
                (FormatInt size)
                [instance; "uploads"; uuid; "blobs";
                 hexEncodeToString hash]).
      rewrite segments_of_fields; [reflexivity| |exact Hs1|exact Hs2].
      repeat constructor; try assumption; discriminate.
Qed.

(** X8.  The resource names the relay prints for a digest are the ones
    the ByteStream service parses back to the same instance, hash and size,
    for every instance name without a slash (the empty one included), every
    hash that is not empty and every size of 64 bits; the upload name also
    needs a UUID text that is not empty and has no slash.  An instance name
    with a slash is never parsed back. *)
Theorem relay_resource_names_parse_back :
  forall (instance uuid : string) (hash : bytes) (size : Z),
    hash <> [] -> int64Range size ->
    uuid <> EmptyString -> allBytes Wire.notSlash uuid = true ->
    let digest := mkDigest (hexEncodeToString hash) size in
    (allBytes Wire.notSlash instance = true ->
     parseResourceNameRead
       (RelayStream.readResourceName instance hash size)
     = (instance, Some digest) /\
     parseResourceNameWrite
       (RelayStream.writeResourceName instance uuid hash size)
     = (instance, Some digest)) /\
    (allBytes Wire.notSlash instance = false ->
     forall name d,
       parseResourceNameRead name <> (instance, Some d) /\
       parseResourceNameWrite name <> (instance, Some d)).
Proof.
  intros instance uuid hash size Hhash Hsize Huuid Huplain digest.
  split.
  - now apply resource_names_parse.
  - intros Hi name d. split.
    + intros E. apply parseResourceNameRead_spec in E.
      destruct E as (sz & [[-> _]|Hseg] & _); [discriminate Hi|].
      assert (Hin : instance ∈ segments name)
        by (rewrite Hseg; apply elem_of_cons; now left).
      apply segments_plain in Hin. congruence.
    + intros E. apply parseResourceNameWrite_spec in E.
      destruct E as (sz & (u & [[-> _]|Hseg]) & _); [discriminate Hi|].
      assert (Hin : instance ∈ segments name)
        by (rewrite Hseg; apply elem_of_cons; now left).
      apply segments_plain in Hin. congruence.
Qed.

(** ** gRPC CAS relay: uploads *)

Lemma putLoop_script n chunks : forall fuel name wo last e
    (w : RelayStream.Uploads) c,
  RelayStream.sendError w = None ->
  0 <= wo -> wo + Z.of_nat (length (concat chunks)) < 2 ^ 63 ->
  (length chunks < fuel)%nat ->
  exec (RelayStream.putLoop n fuel name wo)
    {| script := map (fun c => (c, None)) chunks ++ [(last, Some e)];
       closed := c |} w
  = Returned
      (Some (if isEOF (Some e) then RelayStream.closeError w else Some e))
      {| script := []; closed := c |}
      (RelayStream.mkUploads (RelayStream.openError w)
         (RelayStream.uploaded w
          ++ if isEOF (Some e) then Wire.requestsOf name wo chunks last
             else Wire.partsOf name wo chunks)
         (RelayStream.sendError w) (RelayStream.closeError w)).
Proof.
  induction chunks as [|ch rest IH]; intros fuel name wo last e w c
    Hsend Hwo Hlt Hf; (destruct fuel as [|f]; [cbn [length] in Hf; lia|]).
  - cbn [map app RelayStream.putLoop exec Read scriptReader_ReadCloser script
         closed].
    destruct e.
    + cbn [exec]. unfold RelayStream.Send. rewrite Hsend. cbn [exec].
      unfold RelayStream.CloseAndRecv. cbn [exec RelayStream.closeError isEOF
        Wire.requestsOf RelayStream.openError RelayStream.sendError].
      reflexivity.
    + cbn [exec isEOF Wire.partsOf]. rewrite app_nil_r. now destruct w.
    + cbn [exec isEOF Wire.partsOf]. rewrite app_nil_r. now destruct w.
    + cbn [exec isEOF Wire.partsOf]. rewrite app_nil_r. now destruct w.
  - cbn [map app RelayStream.putLoop exec Read scriptReader_ReadCloser script
         closed].
    unfold RelayStream.Send at 1. rewrite Hsend. cbn [exec].
    cbn [concat] in Hlt. rewrite length_app, Nat2Z.inj_add in Hlt.
    rewrite wrap64_id by (unfold int64Range; lia).
    rewrite IH; [| reflexivity | lia | lia | cbn [length] in Hf; lia].
    cbn [RelayStream.closeError RelayStream.openError RelayStream.sendError
         RelayStream.uploaded].
    destruct (isEOF (Some e));
      cbn [Wire.requestsOf Wire.partsOf]; now rewrite <- app_assoc.
Qed.

Lemma requestsOf_spec chunks : forall name wo last,
  exists first later,
    Wire.requestsOf name wo chunks last = first :: later /\
    ResourceName first = name /\ WriteOffset first = wo /\
    Forall (fun q => ResourceName q = EmptyString) later /\
    offsetsAgree (wo + Z.of_nat (length (Data first))) later /\
    Data first ++ dataOf later = concat chunks ++ last /\
    map FinishWrite (first :: later)
    = repeat false (length chunks) ++ [true].
Proof.
  induction chunks as [|c rest IH]; intros name wo last.
  - eexists; eexists. split; [reflexivity|].
    cbn. rewrite app_nil_r. repeat split; constructor.
  - destruct (IH EmptyString (wo + Z.of_nat (length c)) last)
      as (f & l & E & Hn & Ho & HF & Hag & Hd & Hfin).
    exists (mkWriteRequest name wo false c), (f :: l).
    cbn [Wire.requestsOf ResourceName WriteOffset Data]. rewrite E.
    split; [reflexivity|]. split; [reflexivity|]. split; [reflexivity|].
    split; [constructor; assumption|].
    split; [cbn [offsetsAgree]; split; assumption|].
    split.
    + rewrite dataOf_cons, Hd. cbn [concat]. now rewrite <- app_assoc.
    + cbn [map FinishWrite length repeat app] in *. f_equal. exact Hfin.
Qed.

Lemma partsOf_spec chunks : forall name wo,
  length (Wire.partsOf name wo chunks) = length chunks /\
  Forall (fun q => FinishWrite q = false) (Wire.partsOf name wo chunks) /\
  dataOf (Wire.partsOf name wo chunks) = concat chunks.
Proof.
  induction chunks as [|c rest IH]; intros name wo.
  - repeat split; constructor.
  - destruct (IH EmptyString (wo + Z.of_nat (length c))) as (H1 & H2 & H3).
    cbn [Wire.partsOf length]. split; [now rewrite H1|].
    split; [constructor; [reflexivity|exact H2]|].
    rewrite dataOf_cons, H3. reflexivity.
Qed.

(** X9.  An upload through the relay that meets no failure sends one
    request for every read of its reader, the last read included: the first
    request carries the resource name of the digest and offset 0, every
    later one an empty name and the number of bytes sent before it; only
    the last one is marked as finishing the write, and the data of the
    requests put together are the bytes that were read.  Put then returns
    what CloseAndRecv returns and closes the reader once.  When the reader
    fails, Put returns its error, and none of the requests sent so far
    finishes the write. *)
Theorem relay_upload_sends_the_blob_in_requests :
  forall (D : Type) (GetInstance : D -> string) (GetHash : D -> bytes)
         (GetSizeBytes : D -> Z) (readChunkSize fuel : nat) (uuid : string)
         (digest : D) (sizeBytes : Z) (chunks : list bytes) (last : bytes)
         (w : RelayStream.Uploads),
    RelayStream.openError w = None -> RelayStream.sendError w = None ->
    Z.of_nat (length (concat chunks)) < 2 ^ 63 ->
    (length chunks < fuel)%nat ->
    let name :=
      RelayStream.writeResourceName (GetInstance digest) uuid
        (GetHash digest) (GetSizeBytes digest) in
    (exists first later,
       exec (RelayStream.Put GetInstance GetHash GetSizeBytes readChunkSize
               fuel uuid digest sizeBytes)
         {| script := streamOf chunks last; closed := 0 |} w
       = Returned (Some (RelayStream.closeError w))
           {| script := []; closed := 1 |}
           (RelayStream.mkUploads None
              (RelayStream.uploaded w ++ first :: later)
              None (RelayStream.closeError w)) /\
       ResourceName first = name /\ WriteOffset first = 0 /\
       Forall (fun q => ResourceName q = EmptyString) later /\
       offsetsAgree (Z.of_nat (length (Data first))) later /\
       Data first ++ dataOf later = concat chunks ++ last /\
       map FinishWrite (first :: later)
       = repeat false (length chunks) ++ [true]) /\
    (forall e,
       e <> EOF ->
       exists sentSoFar,
         exec (RelayStream.Put GetInstance GetHash GetSizeBytes readChunkSize
                 fuel uuid digest sizeBytes)
           {| script := map (fun c => (c, None)) chunks ++ [(last, Some e)];
              closed := 0 |} w
         = Returned (Some (Some e)) {| script := []; closed := 1 |}
             (RelayStream.mkUploads None
                (RelayStream.uploaded w ++ sentSoFar)
                None (RelayStream.closeError w)) /\
         length sentSoFar = length chunks /\
         Forall (fun q => FinishWrite q = false) sentSoFar /\
         dataOf sentSoFar = concat chunks).
Proof.
  intros D GetInstance GetHash GetSizeBytes n fuel uuid digest sizeBytes
    chunks last w Hopen Hsend Hlt Hf name.
  split.
  - destruct (requestsOf_spec chunks name 0 last)
      as (first & later & E & Hn & Ho & HF & Hag & Hd & Hfin).
    exists first, later.
    split; [|repeat split; assumption].
    unfold RelayStream.Put. cbn [exec]. rewrite Hopen, exec_bind.
    fold name. unfold streamOf.
    rewrite putLoop_script by (try assumption; lia).
    cbn [isEOF exec Close scriptReader_ReadCloser script closed].
    now rewrite E, Hopen, Hsend.
  - intros e He. exists (Wire.partsOf name 0 chunks).
    split; [|apply partsOf_spec].
    unfold RelayStream.Put. cbn [exec]. rewrite Hopen, exec_bind.
    fold name.
    rewrite putLoop_script by (try assumption; lia).
    replace (isEOF (Some e)) with false
      by (destruct e; [congruence|reflexivity..]).
    cbn [exec Close scriptReader_ReadCloser script closed].
    now rewrite Hopen, Hsend.
Qed.

(** X10.  A blob uploaded through the relay to a ByteStream service that
    keeps its blobs in Redis ends up in the store: the requests the relay
    sends are accepted by the Write handler, which parses the resource name
    back to the instance and digest, reads the requests with matching
    offsets to the end of the stream, and stores exactly the bytes the relay
    read, under the key of the digest. *)
Theorem relayed_upload_reaches_the_store :
  forall (D : Type) (GetInstance : D -> string) (GetHash : D -> bytes)
         (GetSizeBytes : D -> Z) (readChunkSize fuel : nat) (uuid : string)
         (digest : D) (sizeBytes : Z) (chunks : list bytes) (last : bytes)
         (up : RelayStream.Uploads)
         (blobKeyer : string -> Digest -> string + error)
         (fuelS : nat) (bufs : nat -> nat) (key : string)
         (w : Redis.World),
    let blob := concat chunks ++ last in
    let stored :=
      mkDigest (hexEncodeToString (GetHash digest)) (GetSizeBytes digest) in
    RelayStream.openError up = None -> RelayStream.sendError up = None ->
    (length chunks < fuel)%nat -> Z.of_nat (length blob) < 2 ^ 63 ->
    allBytes Wire.notSlash (GetInstance digest) = true ->
    GetHash digest <> [] -> int64Range (GetSizeBytes digest) ->
    uuid <> EmptyString -> allBytes Wire.notSlash uuid = true ->
    Redis.ctxErr w = None -> Redis.down w = None ->
    blobKeyer (GetInstance digest) stored = inl key ->
    (forall j, (1 <= bufs j)%nat) -> (length blob < fuelS)%nat ->
    exists requests,
      exec (RelayStream.Put GetInstance GetHash GetSizeBytes readChunkSize
              fuel uuid digest sizeBytes)
        {| script := streamOf chunks last; closed := 0 |} up
      = Returned (Some (RelayStream.closeError up))
          {| script := []; closed := 1 |}
          (RelayStream.mkUploads None (RelayStream.uploaded up ++ requests)
             None (RelayStream.closeError up)) /\
      byteStreamServer_Write
        (fun i d _ => Redis.Put blobKeyer fuelS bufs i d)
        (mkWriteServer requests EOF) w
      = Returned None (mkWriteServer [] EOF)
          (Redis.mkWorld None (<[key := blob]> (Redis.kv w)) None
             (Redis.sent w ++ [Redis.CmdSet key blob])).
Proof.
  intros D GetInstance GetHash GetSizeBytes n fuel uuid digest sizeBytes
    chunks last up blobKeyer fuelS bufs key w blob stored
    Hopen Hsend Hf Hlt Hi Hhash Hsize Huuid Hup Hctx Hdown Hkey Hb HfS.
  set (name := RelayStream.writeResourceName (GetInstance digest) uuid
                 (GetHash digest) (GetSizeBytes digest)).
  destruct (requestsOf_spec chunks name 0 last)
    as (first & later & E & Hn & Ho & HF & Hag & Hd & Hfin).
  assert (Hcl : Z.of_nat (length (concat chunks)) < 2 ^ 63)
    by (unfold blob in Hlt; rewrite length_app in Hlt; lia).
  exists (first :: later). split.
  - unfold RelayStream.Put. cbn [exec]. rewrite Hopen, exec_bind.
    fold name. unfold streamOf.
    rewrite putLoop_script by (try assumption; lia).
    cbn [isEOF exec Close scriptReader_ReadCloser script closed].
    now rewrite E, Hopen, Hsend.
  - destruct (resource_names_parse (GetInstance digest) uuid (GetHash digest)
                (GetSizeBytes digest) Hhash Hsize Huuid Hup Hi)
      as [_ Hparse].
    fold name stored in Hparse.
    unfold byteStreamServer_Write, Recv. cbn [incoming recvError].
    rewrite Hn, Hparse. unfold Redis.Put. cbn [exec].
    rewrite Hctx, exec_bind. unfold ReadAll.
    assert (Hlen : length (Data first ++ dataOf later) = length blob)
      by now rewrite Hd.
    rewrite length_app in Hlen.
    pose proof (readAllFrom_agree fuelS Redis.World w bufs later [] EOF
               (Z.of_nat (length (Data first))) (Data first) 0%nat []
               Hb Hag I ltac:(lia) ltac:(lia)
               ltac:(rewrite length_app; lia)) as X.
    rewrite app_nil_r in X. rewrite X.
    cbn [stopError tl app nilIfEOF isEOF exec Close
         byteStreamWriteServerReader_ReadCloser].
    rewrite Hkey. cbn [exec]. unfold Redis.clientSet, Redis.issue.
    cbn [Redis.down Redis.ctxErr Redis.kv Redis.sent].
    rewrite Hdown. cbn [exec stream]. rewrite Hctx, Hd. reflexivity.
Qed.

(** ** gRPC CAS relay: FindMissing *)

Section RelayFindMissing.

Context {D : Type}.
Variable GetInstance : D -> string.
Variable GetRawDigest : D -> Digest.
Variable NewDigest : string -> Digest -> D + error.

Lemma rawDigests_uniform instance digests : forall acc,
  (forall d, d ∈ digests -> GetInstance d = instance) ->
  Relay.rawDigests GetInstance GetRawDigest instance digests acc
  = inl (acc ++ map GetRawDigest digests).
Proof.
  induction digests as [|d rest IH]; intros acc Hall.
  - cbn. now rewrite app_nil_r.
  - cbn [Relay.rawDigests map].
    rewrite (Hall d) by (apply elem_of_cons; now left).
    rewrite String.eqb_refl. cbn [negb].
    rewrite IH by (intros d0 Hd0; apply Hall, elem_of_cons; now right).
    now rewrite <- app_assoc.
Qed.

Lemma rawDigests_mixed instance digests : forall acc d,
  d ∈ digests -> GetInstance d <> instance ->
  Relay.rawDigests GetInstance GetRawDigest instance digests acc
  = inr (StatusError InvalidArgument
           "Cannot use mixed instance names in a single request" []).
Proof.
  induction digests as [|d0 rest IH]; intros acc d Hin Hne.
  - now apply elem_of_nil in Hin.
  - cbn [Relay.rawDigests].
    destruct (String.eqb_spec (GetInstance d0) instance) as [E|E];
      [|reflexivity].
    cbn [negb]. apply elem_of_cons in Hin as [->|Hin]; [contradiction|].
    now apply (IH _ d).
Qed.

Lemma convertBack_all instance raws : forall acc outs,
  Forall2 (fun raw out => NewDigest instance raw = inl out) raws outs ->
  Relay.convertBack NewDigest instance raws acc = inl (acc ++ outs).
Proof.
  induction raws as [|raw rest IH]; intros acc outs HF.
  - apply Forall2_nil_inv_l in HF as ->. cbn. now rewrite app_nil_r.
  - apply Forall2_cons_inv_l in HF as (out & outs' & Hout & HF & ->).
    cbn [Relay.convertBack]. rewrite Hout, (IH _ outs' HF).
    now rewrite <- app_assoc.
Qed.

Lemma convertBack_fails instance raws : forall acc raw err,
  raw ∈ raws -> NewDigest instance raw = inr err ->
  exists err', Relay.convertBack NewDigest instance raws acc = inr err'.
Proof.
  induction raws as [|r0 rest IH]; intros acc raw err Hin He.
  - now apply elem_of_nil in Hin.
  - cbn [Relay.convertBack].
    destruct (NewDigest instance r0) as [d0|e0] eqn:E0; [|now exists e0].
    apply elem_of_cons in Hin as [->|Hin]; [congruence|].
    now apply (IH _ raw err).
Qed.

End RelayFindMissing.

(** X11.  FindMissing of the relay asks the remote service once, for the
    raw digests of the whole list in order and under the instance of the
    first digest, and returns its answer converted back, or its error, or
    the first conversion error.  When one digest of the list belongs to
    another instance it returns InvalidArgument and asks nothing. *)
Theorem relay_FindMissing_asks_once_for_one_instance :
  forall (D : Type) (GetInstance : D -> string) (GetRawDigest : D -> Digest)
         (NewDigest : string -> Digest -> D + error)
         (first : D) (rest : list D) (w : Relay.World),
    let instance := GetInstance first in
    let request :=
      Relay.mkRequest instance (map GetRawDigest (first :: rest)) in
    let result :=
      Relay.FindMissing GetInstance GetRawDigest NewDigest (first :: rest)
        w in
    ((exists d, d ∈ rest /\ GetInstance d <> instance) ->
     result
     = ([], Some (StatusError InvalidArgument
                    "Cannot use mixed instance names in a single request"
                    []), w)) /\
    ((forall d, d ∈ rest -> GetInstance d = instance) ->
     Relay.issued result.2 = Relay.issued w ++ [request] /\
     (forall err,
        Relay.answer w request = inr err -> result.1 = ([], Some err)) /\
     (forall response outs,
        Relay.answer w request = inl response ->
        Forall2 (fun raw out => NewDigest instance raw = inl out)
          (Relay.MissingBlobDigests response) outs ->
        result.1 = (outs, None)) /\
     (forall response raw err,
        Relay.answer w request = inl response ->
        raw ∈ Relay.MissingBlobDigests response ->
        NewDigest instance raw = inr err ->
        exists err', result.1 = ([], Some err'))).
Proof.
  intros D GetInstance GetRawDigest NewDigest first rest w instance request
    result.
  split.
  - intros (d & Hin & Hne). unfold result, Relay.FindMissing.
    cbv zeta. fold instance.
    rewrite (rawDigests_mixed GetInstance GetRawDigest instance
               (first :: rest) [] d);
      [reflexivity|apply elem_of_cons; now right|exact Hne].
  - intros Hall.
    assert (Hraw : Relay.rawDigests GetInstance GetRawDigest instance
                     (first :: rest) []
                   = inl (map GetRawDigest (first :: rest))).
    { rewrite rawDigests_uniform; [reflexivity|].
      intros d Hd. apply elem_of_cons in Hd as [->|Hd]; [reflexivity|].
      now apply Hall. }
    unfold result, Relay.FindMissing. cbv zeta. fold instance.
    rewrite Hraw. fold request. unfold Relay.FindMissingBlobs.
    split; [|split; [|split]].
    + destruct (Relay.answer w request) as [resp|err]; [|reflexivity].
      destruct (Relay.convertBack _ _ _ _); reflexivity.
    + intros err ->. reflexivity.
    + intros response outs -> HF.
      now rewrite (convertBack_all NewDigest instance _ [] outs HF).
    + intros response raw err -> Hin He.
      destruct (convertBack_fails NewDigest instance _ [] raw err Hin He)
        as [err' ->].
      now exists err'.
Qed.

(** ** HTTP cache back end: FindMissing *)

(** X12.  FindMissing of the HTTP back end sends one HEAD request per
    digest, in order.  When every answer is 200 or 404 it returns the
    digests answered with 404, in the order of the request.  At the first
    other status it stops: the digests after it are not asked for, the
    error carries the status, and the digests already found missing are
    not returned. *)
Theorem http_FindMissing_probes_in_order_and_stops_at_a_failure :
  forall (address prefix : string) (StatusText : Z -> string)
         (status : string -> Z) (instance : string)
         (w : list (Remote.Method * string)),
    let url := Remote.urlOf address prefix in
    let head := fun d => (Remote.MethodHead, url d) in
    (forall digests,
       (forall d,
          d ∈ digests -> status (url d) = 200 \/ status (url d) = 404) ->
       Remote.FindMissing address prefix (Scenario.served status) StatusText
         instance digests w
       = (filter (fun d => status (url d) = 404) digests, None,
          w ++ map head digests)) /\
    (forall good bad rest,
       (forall d, d ∈ good -> status (url d) = 200 \/ status (url d) = 404) ->
       status (url bad) <> 200 -> status (url bad) <> 404 ->
       Remote.FindMissing address prefix (Scenario.served status) StatusText
         instance (good ++ bad :: rest) w
       = ([],
          Some (StatusError Unknown
                  "Unexpected status code from remote cache: %d - %s"
                  [ArgInt (status (url bad));
                   ArgStr (StatusText (status (url bad)))]),
          w ++ map head (good ++ [bad]))).
Proof.
  intros address prefix StatusText status instance w url head.
  split.
  - intros digests Hs. unfold Remote.FindMissing.
    now rewrite http_findMissing_probes_each_digest.
  - intros good bad rest Hs H200 H404. unfold Remote.FindMissing.
    enough (Hloop : forall missing w0,
              Remote.findMissingLoop address prefix (Scenario.served status)
                StatusText (good ++ bad :: rest) missing w0
              = ([],
                 Some (StatusError Unknown
                         "Unexpected status code from remote cache: %d - %s"
                         [ArgInt (status (url bad));
                          ArgStr (StatusText (status (url bad)))]),
                 w0 ++ map head (good ++ [bad]))) by apply Hloop.
    clear w.
    induction good as [|d good' IH]; intros missing w.
    + cbn [app Remote.findMissingLoop Scenario.served Remote.StatusCode map].
      unfold Remote.StatusNotFound, Remote.StatusOK.
      fold (url bad).
      destruct (Z.eqb_spec (status (url bad)) 404); [contradiction|].
      destruct (Z.eqb_spec (status (url bad)) 200); [contradiction|].
      reflexivity.
    + cbn [app Remote.findMissingLoop Scenario.served Remote.StatusCode map].
      unfold Remote.StatusNotFound, Remote.StatusOK.
      fold (url d).
      assert (Hrest : forall d0, d0 ∈ good' ->
                status (url d0) = 200 \/ status (url d0) = 404)
        by (intros; apply Hs; apply elem_of_cons; now right).
      destruct (Hs d ltac:(apply elem_of_cons; now left)) as [E|E];
        rewrite E; cbn [Z.eqb Pos.eqb]; rewrite (IH Hrest);
        now rewrite <- app_assoc.
Qed.

(** ** Integrity adapter: what a reader can ever hand on *)

Section ValidatingReaderBounds.

Context {W : Type}.
Implicit Types (r : checksumValidatingReader W) (w : W).

Lemma Read_step r under w :
  0 <= sizeLeft r < 2 ^ 63 ->
  let res := fst (fst (checksumValidatingReader_Read r under w)) in
  let r1 := snd (fst (checksumValidatingReader_Read r under w)) in
  0 <= sizeLeft r1 <= sizeLeft r - Z.of_nat (length (fst res)) /\
  (res = under \/
   exists format args,
     res = ([], Some (StatusError (errorCode r) format args))).
Proof.
  intros R. destruct under as [p err].
  destruct (Z_lt_le_dec (sizeLeft r) (Z.of_nat (length p))) as [Hl|Hl].
  { rewrite Read_longer by assumption. cbn. split; [lia|]. right. eauto. }
  destruct (decide (err = Some EOF)) as [->|Hne].
  - destruct (Z.eq_dec (Z.of_nat (length p)) (sizeLeft r)) as [He|Hne].
    + rewrite Read_end by assumption.
      destruct (bool_decide _); cbn; (split; [lia|]); [left|right]; eauto.
    + rewrite Read_shorter by lia. cbn. split; [lia|]. right. eauto.
  - rewrite Read_middle by assumption. cbn. split; [lia|]. now left.
Qed.

Lemma feed_bound us : forall r0 w,
  0 <= sizeLeft r0 < 2 ^ 63 ->
  Z.of_nat (length (delivered (feed r0 us w).1.1))
  <= sizeLeft r0 - sizeLeft (feed r0 us w).1.2 /\
  0 <= sizeLeft (feed r0 us w).1.2 /\
  Forall2
    (fun u res =>
       res = u \/
       exists format args,
         res = ([], Some (StatusError (errorCode r0) format args)))
    us (feed r0 us w).1.1.
Proof.
  induction us as [|u rest IH]; intros r0 w R.
  - cbn. split; [lia|]. split; [lia|constructor].
  - cbn [feed].
    pose proof (Read_step r0 u w R) as S1. cbn zeta in S1.
    pose proof (Read_fields r0 u w R) as F1. cbn zeta in F1.
    destruct (checksumValidatingReader_Read r0 u w) as [[res r1] w1].
    cbn [fst snd] in S1, F1. destruct S1 as [Hs Hres].
    destruct F1 as (_ & _ & Hcode & _).
    specialize (IH r1 w1 ltac:(lia)).
    destruct (feed r1 rest w1) as [[ress r2] w2].
    cbn [fst snd] in *. destruct IH as (I1 & I2 & I3).
    unfold delivered in *. cbn [map concat]. rewrite length_app.
    split; [lia|]. split; [lia|].
    constructor; [exact Hres|]. now rewrite <- Hcode.
Qed.

End ValidatingReaderBounds.

(** X13.  Whatever the wrapped reader returns, and however often it is
    read, a validating reader hands every result on as it is or replaces it
    by an error of its own code that carries no data, and the bytes it
    hands on in total never exceed the size of the digest. *)
Theorem validating_reader_never_exceeds_the_size :
  forall (W : Type) (r0 : checksumValidatingReader W)
         (us : list ReadResult) (w : W),
    0 <= sizeLeft r0 < 2 ^ 63 ->
    Z.of_nat (length (delivered (feed r0 us w).1.1)) <= sizeLeft r0 /\
    Forall2
      (fun u res =>
         res = u \/
         exists format args,
           res = ([], Some (StatusError (errorCode r0) format args)))
      us (feed r0 us w).1.1.
Proof.
  intros W r0 us w R.
  destruct (feed_bound us r0 w R) as (H1 & H2 & H3).
  split; [lia|exact H3].
Qed.

(** ** Integrity adapter: a download read to the end *)

Section ValidatedDownload.

Context {St : Type}.
Implicit Types (r : checksumValidatingReader (World St)) (w : World St).

Lemma nilIfEOF_None e : nilIfEOF e = None -> e = EOF.
Proof. destruct e; cbn; congruence. Qed.

Lemma readAll_validating_sound bufs fuel : forall i acc us c r w data mr w',
  0 <= sizeLeft r < 2 ^ 63 ->
  exec (readAllFrom fuel bufs i acc)
    (validating {| script := us; closed := c |} r) w
  = Returned (Some (data, None)) mr w' ->
  exists rest,
    data = acc ++ rest /\
    Z.of_nat (length rest) = sizeLeft r /\
    family (partialChecksum r) (written (partialChecksum r) ++ rest)
    = expectedChecksum r /\
    w' = w.
Proof.
  induction fuel as [|f IH]; intros i acc us c r w data mr w' R E;
    [discriminate E|].
  cbn [readAllFrom exec Read merkleReader_ReadCloser] in E.
  set (under := match us with [] => ([], Some EOF) | u :: _ => u end).
  set (left := match us with [] => [] | _ :: t => t end).
  assert (RD : Read {| script := us; closed := c |} (bufs i) w
               = (under, {| script := left; closed := c |}, w))
    by (destruct us; reflexivity).
  rewrite RD in E. clear RD. rename E into E'.
  clearbody under left.
  destruct (corrupt_or_not r under) as [Hc|Hn].
  - destruct (Read_corrupt r under w R Hc) as (fmt & args & r1 & X).
    rewrite X in E'. cbn [exec nilIfEOF isEOF] in E'. discriminate E'.
  - rewrite (Read_sound r under w R Hn) in E'.
    destruct under as [p err]. cbn [fst snd] in *.
    unfold corrupt in Hn. cbn [fst snd] in Hn.
    assert (Hle : Z.of_nat (length p) <= sizeLeft r) by lia.
    destruct err as [e|].
    + cbn [exec] in E'. injection E' as Hd He _ Hw.
      apply nilIfEOF_None in He. subst e. exists p.
      split; [now symmetry|].
      split; [|split; [|now symmetry]].
      * destruct (Z.eq_dec (Z.of_nat (length p)) (sizeLeft r));
          [assumption|]. exfalso. apply Hn. right. split; [reflexivity|].
        left. lia.
      * destruct (decide (family (partialChecksum r)
                            (written (partialChecksum r) ++ p)
                          = expectedChecksum r)) as [Heq|Hneq];
          [assumption|]. exfalso. apply Hn. right. split; [reflexivity|].
        now right.
    + destruct (IH (S i) (acc ++ p) left c (advanced r p) w data mr w')
        as (rest & Hd & Hlen & Hh & Hw).
      * unfold advanced. cbn [sizeLeft]. lia.
      * exact E'.
      * exists (p ++ rest). rewrite app_assoc. split; [exact Hd|].
        unfold advanced in Hlen, Hh.
        cbn [sizeLeft partialChecksum expectedChecksum hashWrite family
             written] in Hlen, Hh.
        rewrite length_app. rewrite <- app_assoc in Hh.
        split; [lia|]. split; [exact Hh|exact Hw].
Qed.

Lemma readAll_validating_stream bufs chunks : forall fuel i acc r c w last,
  0 <= sizeLeft r < 2 ^ 63 ->
  Z.of_nat (length (concat chunks ++ last)) = sizeLeft r ->
  family (partialChecksum r)
    (written (partialChecksum r) ++ concat chunks ++ last)
  = expectedChecksum r ->
  (length chunks < fuel)%nat ->
  exec (readAllFrom fuel bufs i acc)
    (validating {| script := streamOf chunks last; closed := c |} r) w
  = Returned (Some (acc ++ concat chunks ++ last, None))
      (validating {| script := []; closed := c |}
         (advanced r (concat chunks ++ last))) w.
Proof.
  induction chunks as [|ch rest IH]; intros fuel i acc r c w last R Hlen Hh Hf;
    (destruct fuel as [|f]; [cbn [length] in Hf; lia|]).
  - cbn [streamOf map app concat] in *.
    cbn [readAllFrom exec Read merkleReader_ReadCloser
         scriptReader_ReadCloser script closed].
    rewrite Read_end by assumption.
    rewrite bool_decide_eq_true_2 by exact Hh.
    reflexivity.
  - unfold streamOf in *. cbn [map app concat] in *.
    rewrite !length_app, !Nat2Z.inj_add in Hlen.
    cbn [readAllFrom exec Read merkleReader_ReadCloser
         scriptReader_ReadCloser script closed].
    rewrite Read_middle by (try assumption; try discriminate; lia).
    rewrite IH.
    + rewrite advanced_app. now rewrite <- !app_assoc.
    + unfold advanced. cbn [sizeLeft]. lia.
    + unfold advanced. cbn [sizeLeft].
      rewrite length_app, Nat2Z.inj_add. lia.
    + unfold advanced.
      cbn [partialChecksum expectedChecksum hashWrite family written].
      now rewrite <- !app_assoc in *.
    + cbn [length] in Hf. lia.
Qed.

End ValidatedDownload.

(** X14.  A download through the integrity adapter that is read to the
    end without error has the size and the hash of its digest, whatever the
    wrapped store returned: ReadAll on the reader of Get reports success
    only with bytes whose number is the digest's size and whose hash is the
    digest's hash, and then nothing was deleted or logged.  And it does
    report success, with exactly the bytes of the store, when these have
    that size and hash. *)
Theorem download_read_to_the_end_has_the_digest :
  forall (St : Type) (DFL : nat -> DigestFormat + error)
         (ba_Delete : string -> Digest -> World St -> option error * World St)
         (instance : string) (digest : Digest) (df : DigestFormat)
         (us : list ReadResult) (fuel : nat) (bufs : nat -> nat)
         (w : World St),
    validateDigest DFL digest = inl df ->
    SizeBytes digest < 2 ^ 63 ->
    let ba_Get := fun (_ : string) (_ : Digest) (w0 : World St) =>
                    ({| script := us; closed := 0 |}, w0) in
    let reader := (Get DFL ba_Get ba_Delete instance digest w).1 in
    (forall data mr w',
       exec (ReadAll fuel bufs) reader w = Returned (Some (data, None)) mr w' ->
       Z.of_nat (length data) = SizeBytes digest /\
       df data = hexDecodeString (Hash digest) /\
       w' = w) /\
    (forall chunks last,
       us = streamOf chunks last -> (length chunks < fuel)%nat ->
       Z.of_nat (length (concat chunks ++ last)) = SizeBytes digest ->
       df (concat chunks ++ last) = hexDecodeString (Hash digest) ->
       exists mr,
         exec (ReadAll fuel bufs) reader w
         = Returned (Some (concat chunks ++ last, None)) mr w).
Proof.
  intros St DFL ba_Delete instance digest df us fuel bufs w Hv Hlt ba_Get
    reader.
  assert (Hsize : 0 <= SizeBytes digest).
  { assert (X : exists df, validateDigest DFL digest = inl df) by eauto.
    apply validateDigest_accepts in X. tauto. }
  assert (Hr : reader
               = validating {| script := us; closed := 0 |}
                   (getReader ba_Delete instance digest df))
    by (unfold reader, Get; now rewrite Hv).
  rewrite Hr. split.
  - intros data mr w' E. unfold ReadAll in E.
    apply readAll_validating_sound in E;
      [|unfold getReader; cbn [sizeLeft]; lia].
    destruct E as (rest & -> & Hlen & Hh & Hw).
    unfold getReader in Hlen, Hh.
    cbn [sizeLeft partialChecksum expectedChecksum newHash family written
         app] in Hlen, Hh.
    auto.
  - intros chunks last -> Hf Hlen Hh. eexists. unfold ReadAll.
    rewrite readAll_validating_stream; [reflexivity| | | |exact Hf].
    + unfold getReader; cbn [sizeLeft]; lia.
    + exact Hlen.
    + exact Hh.
Qed.

(** ** Integrity adapter in front of the Redis store *)

Section ValidatedUpload.

Variable blobKeyer : string -> Digest -> string + error.
Variable bufs : nat -> nat.
Variables (instance : string) (digest : Digest).

Implicit Types (r : checksumValidatingReader (World Redis.World))
  (w : World Redis.World).

Section AnyReader.

(** A reader of the upload that leaves the store and the log alone. *)
Context {RC : Type} `{ReadCloser (World Redis.World) RC}.
Hypothesis Read_world : forall (rc : RC) len w, (Read rc len w).2 = w.
Hypothesis Close_world : forall (rc : RC) w, (Close rc w).2 = w.

Lemma upload_outcome fuel : forall i acc (rc : RC) r w,
  0 <= sizeLeft r < 2 ^ 63 -> invalidator r = (fun w => w) ->
  Wire.uploadOutcome blobKeyer instance digest r w acc
    (exec
       (through r
          (Wire.inStore
             (bind (readAllFrom fuel bufs i acc)
                (Wire.afterReadAll blobKeyer instance digest))))
       rc w).
Proof.
  induction fuel as [|f IH]; intros i acc rc r w R Hinv.
  - cbn [readAllFrom bind Wire.inStore through Wire.afterReadAll exec].
    pose proof (Close_world rc w) as HC.
    destruct (Close rc w) as [[e rc1] w1]. cbn [snd] in HC. subst w1.
    cbn. exact I.
  - cbn [readAllFrom bind Wire.inStore through exec].
    pose proof (Read_world rc (bufs i) w) as HR.
    destruct (Read rc (bufs i) w) as [[under rc1] w1]. cbn [snd] in HR.
    subst w1.
    destruct (corrupt_or_not r under) as [Hc|Hn].
    + destruct (Read_corrupt r under w R Hc) as (fmt & args & r1 & X).
      rewrite X, Hinv.
      cbn [exec bind Wire.inStore through nilIfEOF isEOF Wire.afterReadAll].
      pose proof (Close_world rc1 w) as HC.
      destruct (Close rc1 w) as [[e rc2] w1]. cbn [snd] in HC. subst w1.
      cbn [exec Wire.inStore through Wire.uploadOutcome].
      split; reflexivity.
    + rewrite (Read_sound r under w R Hn).
      destruct under as [p err]. cbn [fst snd] in *.
      unfold corrupt in Hn. cbn [fst snd] in Hn.
      assert (Hle : Z.of_nat (length p) <= sizeLeft r) by lia.
      destruct err as [e|].
      * cbn [exec bind Wire.inStore through Wire.afterReadAll].
        pose proof (Close_world rc1 w) as HC.
        destruct (Close rc1 w) as [[ce rc2] w1]. cbn [snd] in HC. subst w1.
        destruct e; cbn [nilIfEOF isEOF exec Wire.inStore through
                         Wire.uploadOutcome]; try (split; reflexivity).
        destruct (blobKeyer instance digest) as [key|kerr] eqn:K;
          cbn [exec Wire.inStore through Wire.uploadOutcome];
          [|split; reflexivity].
        unfold Redis.clientSet, Redis.issue.
        destruct (Redis.down (store w)) as [derr|] eqn:Hd;
          cbn [exec Wire.inStore through Wire.uploadOutcome store logged
               Redis.kv]; [split; reflexivity|].
        exists p, key.
        split.
        { destruct (Z.eq_dec (Z.of_nat (length p)) (sizeLeft r));
            [assumption|]. exfalso. apply Hn. right.
          split; [reflexivity|]. left. lia. }
        split.
        { destruct (decide (family (partialChecksum r)
                              (written (partialChecksum r) ++ p)
                            = expectedChecksum r)) as [Heq|Hneq];
            [assumption|]. exfalso. apply Hn. right.
          split; [reflexivity|]. now right. }
        split; [exact K|]. split; reflexivity.
      * cbn [exec].
        assert (R1 : 0 <= sizeLeft (advanced r p) < 2 ^ 63)
          by (unfold advanced; cbn [sizeLeft]; lia).
        pose proof (IH (S i) (acc ++ p) rc1 (advanced r p) w R1 Hinv)
          as X.
        destruct (exec _ rc1 w)
          as [[e|] r' w'|msg]; cbn [Wire.uploadOutcome] in *;
          [exact X| |exact I].
        destruct X as (rest & key & Hlen & Hh & K & Hkv & Hlog).
        exists (p ++ rest), key.
        unfold advanced in Hlen, Hh.
        cbn [sizeLeft partialChecksum expectedChecksum hashWrite family
             written] in Hlen, Hh.
        rewrite length_app. rewrite <- app_assoc in Hh.
        rewrite (app_assoc acc).
        split; [lia|]. split; [exact Hh|]. split; [exact K|].
        split; [exact Hkv|exact Hlog].
Qed.

(** Put of the adapter in front of the Redis store, on any such reader. *)
Lemma validated_put_outcome DFL fuel (rc : RC) w df :
  validateDigest DFL digest = inl df ->
  SizeBytes digest < 2 ^ 63 ->
  Wire.uploadOutcome blobKeyer instance digest
    (putReader (S := Redis.World) digest df) w []
    (exec
       (Put DFL
          (fun i d _ => Wire.inStore (Redis.Put blobKeyer fuel bufs i d))
          instance digest (SizeBytes digest))
       rc w).
Proof.
  intros Hv Hlt.
  assert (Hsize : 0 <= SizeBytes digest).
  { assert (X : exists df, validateDigest DFL digest = inl df) by eauto.
    apply validateDigest_accepts in X. tauto. }
  unfold Put. rewrite Hv, Z.eqb_refl. cbn [negb].
  unfold Redis.Put. cbn [Wire.inStore through exec].
  destruct (Redis.ctxErr (store w)) as [cerr|].
  - cbn [Wire.inStore through exec Wire.uploadOutcome]. split; reflexivity.
  - apply upload_outcome; [|reflexivity].
    unfold putReader. cbn [sizeLeft]. lia.
Qed.

Lemma refused_put_outcome DFL fuel (rc : RC) w err size :
  validateDigest DFL digest = inr err ->
  exists rc1,
    exec
      (Put DFL
         (fun i d _ => Wire.inStore (Redis.Put blobKeyer fuel bufs i d))
         instance digest size)
      rc w
    = Returned (Some err) rc1 w.
Proof.
  intros Hv. unfold Put. rewrite Hv. cbn [exec].
  pose proof (Close_world rc w) as HC.
  destruct (Close rc w) as [[e rc1] w1]. cbn [snd] in HC. subst w1.
  now exists rc1.
Qed.

Lemma readAllFrom_prefix fuel : forall i acc (rc rc' : RC) w w' d e,
  exec (readAllFrom fuel bufs i acc) rc w = Returned (Some (d, e)) rc' w' ->
  exists rest, d = acc ++ rest.
Proof.
  induction fuel as [|f IH]; intros i acc rc rc' w w' d e E;
    [discriminate E|].
  cbn [readAllFrom exec] in E.
  destruct (Read rc (bufs i) w) as [[[p err] rc1] w1].
  destruct err as [e0|].
  - cbn [exec] in E. injection E as <- _ _ _. now exists p.
  - apply IH in E as [rest ->]. exists (p ++ rest). now rewrite app_assoc.
Qed.

(** When reading the reader to the end yields bytes of the size and hash
    the validating reader expects, the upload through it stores them. *)
Lemma validated_run fuel : forall i acc (rc rc' : RC) r w blob key,
  0 <= sizeLeft r < 2 ^ 63 ->
  exec (readAllFrom fuel bufs i acc) rc w
  = Returned (Some (acc ++ blob, None)) rc' w ->
  Z.of_nat (length blob) = sizeLeft r ->
  family (partialChecksum r) (written (partialChecksum r) ++ blob)
  = expectedChecksum r ->
  blobKeyer instance digest = inl key ->
  Redis.down (store w) = None ->
  exists rc2,
    exec
      (through r
         (Wire.inStore
            (bind (readAllFrom fuel bufs i acc)
               (Wire.afterReadAll blobKeyer instance digest))))
      rc w
    = Returned None rc2
        (mkWorld
           (Redis.mkWorld (Redis.ctxErr (store w))
              (<[key := acc ++ blob]> (Redis.kv (store w))) None
              (Redis.sent (store w) ++ [Redis.CmdSet key (acc ++ blob)]))
           (logged w)).
Proof.
  induction fuel as [|f IH]; intros i acc rc rc' r w blob key R E Hlen Hh K Hd;
    [discriminate E|].
  cbn [readAllFrom exec] in E.
  cbn [readAllFrom bind Wire.inStore through exec].
  pose proof (Read_world rc (bufs i) w) as HR.
  destruct (Read rc (bufs i) w) as [[[p err] rc1] w1]. cbn [snd] in HR.
  subst w1. destruct err as [e|].
  - cbn [exec] in E. injection E as Hp He _.
    apply app_inv_head in Hp. subst p.
    apply nilIfEOF_None in He. subst e.
    rewrite Read_end by assumption.
    rewrite bool_decide_eq_true_2 by exact Hh.
    cbn [exec bind Wire.inStore through nilIfEOF isEOF Wire.afterReadAll].
    pose proof (Close_world rc1 w) as HC.
    destruct (Close rc1 w) as [[ce rc2] w1]. cbn [snd] in HC. subst w1.
    rewrite K. cbn [exec Wire.inStore through].
    unfold Redis.clientSet, Redis.issue. rewrite Hd.
    cbn [exec Wire.inStore through Redis.ctxErr Redis.kv Redis.down
         Redis.sent store logged].
    now exists rc2.
  - destruct (readAllFrom_prefix _ _ _ _ _ _ _ _ _ E) as [rest Hrest].
    rewrite <- app_assoc in Hrest. apply app_inv_head in Hrest. subst blob.
    rewrite length_app, Nat2Z.inj_add in Hlen.
    rewrite Read_middle by (try assumption; try discriminate; lia).
    cbn [exec].
    destruct (IH (S i) (acc ++ p) rc1 rc' (advanced r p) w rest key)
      as [rc2 X].
    + unfold advanced. cbn [sizeLeft]. lia.
    + now rewrite <- app_assoc.
    + unfold advanced. cbn [sizeLeft]. lia.
    + unfold advanced.
      cbn [partialChecksum expectedChecksum hashWrite family written].
      now rewrite <- app_assoc.
    + exact K.
    + exact Hd.
    + exists rc2. rewrite X. now rewrite <- !app_assoc.
Qed.

End AnyReader.

Lemma upload_stream chunks : forall fuel i acc r c w last key,
  0 <= sizeLeft r < 2 ^ 63 ->
  Z.of_nat (length (concat chunks ++ last)) = sizeLeft r ->
  family (partialChecksum r)
    (written (partialChecksum r) ++ concat chunks ++ last)
  = expectedChecksum r ->
  (length chunks < fuel)%nat ->
  blobKeyer instance digest = inl key ->
  Redis.down (store w) = None ->
  exec
    (through r
       (Wire.inStore
          (bind (readAllFrom fuel bufs i acc)
             (Wire.afterReadAll blobKeyer instance digest))))
    {| script := streamOf chunks last; closed := c |} w
  = Returned None {| script := []; closed := S c |}
      (mkWorld
         (Redis.mkWorld (Redis.ctxErr (store w))
            (<[key := acc ++ concat chunks ++ last]> (Redis.kv (store w)))
            None
            (Redis.sent (store w)
             ++ [Redis.CmdSet key (acc ++ concat chunks ++ last)]))
         (logged w)).
Proof.
  induction chunks as [|ch rest IH];
    intros fuel i acc r c w last key R Hlen Hh Hf K Hd;
    (destruct fuel as [|f]; [cbn [length] in Hf; lia|]).
  - cbn [streamOf map app concat] in *.
    cbn [readAllFrom bind Wire.inStore through exec Read
         scriptReader_ReadCloser script closed].
    rewrite Read_end by assumption.
    rewrite bool_decide_eq_true_2 by exact Hh.
    cbn [exec bind Wire.inStore through nilIfEOF isEOF Wire.afterReadAll
         Close scriptReader_ReadCloser script closed].
    rewrite K. cbn [exec Wire.inStore through].
    unfold Redis.clientSet, Redis.issue. rewrite Hd.
    cbn [exec Wire.inStore through Redis.ctxErr Redis.kv Redis.down
         Redis.sent store logged].
    reflexivity.
  - unfold streamOf in *. cbn [map app concat] in *.
    rewrite !length_app, !Nat2Z.inj_add in Hlen.
    cbn [readAllFrom bind Wire.inStore through exec Read
         scriptReader_ReadCloser script closed].
    rewrite Read_middle by (try assumption; try discriminate; lia).
    cbn [exec].
    rewrite (IH f (S i) (acc ++ ch) (advanced r ch) c w last key);
      try assumption.
    + now rewrite <- !app_assoc.
    + unfold advanced. cbn [sizeLeft]. lia.
    + unfold advanced. cbn [sizeLeft].
      rewrite length_app, Nat2Z.inj_add. lia.
    + unfold advanced.
      cbn [partialChecksum expectedChecksum hashWrite family written].
      now rewrite <- !app_assoc in *.
    + cbn [length] in Hf. lia.
Qed.

End ValidatedUpload.

(** X15.  With the integrity adapter in front of the Redis store, a blob
    gets into the store only if it has the size and the hash of its digest:
    whatever the reader of an upload returns, when Put reports success the
    store holds, under the key of the digest, bytes of that size and hash,
    and when Put reports an error the store holds what it held before. *)
Theorem only_matching_blobs_reach_the_store :
  forall (DFL : nat -> DigestFormat + error)
         (blobKeyer : string -> Digest -> string + error)
         (fuel : nat) (bufs : nat -> nat) (instance : string)
         (digest : Digest) (df : DigestFormat) (us : list ReadResult)
         (w : World Redis.World),
    validateDigest DFL digest = inl df ->
    SizeBytes digest < 2 ^ 63 ->
    let outcome :=
      exec
        (Put DFL
           (fun i d _ => Wire.inStore (Redis.Put blobKeyer fuel bufs i d))
           instance digest (SizeBytes digest))
        {| script := us; closed := 0 |} w in
    (forall mr w',
       outcome = Returned None mr w' ->
       exists data key,
         Z.of_nat (length data) = SizeBytes digest /\
         df data = hexDecodeString (Hash digest) /\
         blobKeyer instance digest = inl key /\
         Redis.kv (store w') = <[key := data]> (Redis.kv (store w))) /\
    (forall err mr w',
       outcome = Returned (Some err) mr w' ->
       Redis.kv (store w') = Redis.kv (store w)) /\
    (forall chunks last key,
       us = streamOf chunks last -> (length chunks < fuel)%nat ->
       Z.of_nat (length (concat chunks ++ last)) = SizeBytes digest ->
       df (concat chunks ++ last) = hexDecodeString (Hash digest) ->
       Redis.ctxErr (store w) = None -> Redis.down (store w) = None ->
       blobKeyer instance digest = inl key ->
       exists mr w',
         outcome = Returned None mr w' /\
         Redis.kv (store w')
         = <[key := concat chunks ++ last]> (Redis.kv (store w))).
Proof.
  intros DFL blobKeyer fuel bufs instance digest df us w Hv Hlt outcome.
  assert (Hsize : 0 <= SizeBytes digest).
  { assert (X : exists df, validateDigest DFL digest = inl df) by eauto.
    apply validateDigest_accepts in X. tauto. }
  assert (Hout :
    Wire.uploadOutcome blobKeyer instance digest
      (putReader (S := Redis.World) digest df) w [] outcome).
  { apply validated_put_outcome; try assumption.
    - intros rc len w0. cbn. now destruct (script rc).
    - reflexivity. }
  split; [|split].
  - intros mr w' E. rewrite E in Hout. cbn [Wire.uploadOutcome] in Hout.
    destruct Hout as (rest & key & Hlen & Hh & K & Hkv & _).
    exists rest, key.
    unfold putReader in Hlen, Hh.
    cbn [sizeLeft partialChecksum expectedChecksum newHash family written
         app] in Hlen, Hh, Hkv.
    auto.
  - intros err mr w' E. rewrite E in Hout.
    cbn [Wire.uploadOutcome] in Hout. tauto.
  - intros chunks last key -> Hf Hlen Hh Hctx Hd K.
    eexists; eexists. split.
    + unfold outcome, Put. rewrite Hv, Z.eqb_refl. cbn [negb].
      unfold Redis.Put. cbn [Wire.inStore through exec]. rewrite Hctx.
      unfold ReadAll.
      apply (upload_stream blobKeyer bufs instance digest chunks fuel 0 []
               (putReader digest df) 0 w last key);
        try assumption; unfold putReader; cbn [sizeLeft]; lia.
    + reflexivity.
Qed.

(** ** The theorems at concrete inputs *)

(** The theorem on X1 at the blob "hello", read in two pieces into an
    empty Redis server. *)
Lemma redis_put_then_get_witness :
  exec (Redis.Put Scenario.keyByHash 8 Scenario.fourBytes EmptyString
          Scenario.helloDigest)
    {| script := streamOf [Samples.he] Samples.llo; closed := 0 |}
    Scenario.emptyRedis
  = Returned None {| script := []; closed := 1 |}
      (Redis.mkWorld None
         (<["6f6c6c6568" := concat [Samples.he] ++ Samples.llo]>
            (Redis.kv Scenario.emptyRedis))
         None
         (Redis.sent Scenario.emptyRedis
          ++ [Redis.CmdSet "6f6c6c6568"
                (concat [Samples.he] ++ Samples.llo)])).
Proof.
  exact (proj1
    (redis_put_then_get_returns_the_blob Scenario.keyByHash 8
       Scenario.fourBytes EmptyString Scenario.helloDigest "6f6c6c6568"
       [Samples.he] Samples.llo Scenario.emptyRedis eq_refl eq_refl eq_refl
       ltac:(simpl; lia))).
Defined.

(** The theorem on X2 at a server that holds "hello" only, asked for
    "hello" and for another digest. *)
Lemma redis_FindMissing_witness :
  Redis.FindMissing Scenario.keyByHash EmptyString
    [Scenario.helloDigest; mkDigest "aa" 1] Samples.redisWithHello
  = (filter
       (fun d =>
          Wire.absent Scenario.keyByHash EmptyString
            (Redis.kv Samples.redisWithHello) d = true)
       [Scenario.helloDigest; mkDigest "aa" 1],
     None,
     Redis.mkWorld None (Redis.kv Samples.redisWithHello) None
       (Redis.sent Samples.redisWithHello
        ++ map Redis.CmdExists ["6f6c6c6568"; "aa"])).
Proof.
  exact (proj1 (proj2
    (proj1
       (redis_FindMissing_reports_the_absent_keys Scenario.keyByHash
          EmptyString [Scenario.helloDigest; mkDigest "aa" 1]
          Samples.redisWithHello eq_refl ltac:(discriminate))
       ["6f6c6c6568"; "aa"] eq_refl)) eq_refl).
Defined.

(** The theorem on X4 at the result "hello" and an empty Redis server. *)
Lemma action_result_witness :
  ActionCache.GetActionResult (RedisGet.Get Scenario.keyByHash)
    Samples.toyUnmarshal 8 Scenario.fourBytes EmptyString
    Scenario.helloDigest
    (Redis.mkWorld None
       (<["6f6c6c6568" := rev Scenario.hello]>
          (Redis.kv Scenario.emptyRedis))
       None
       (Redis.sent Scenario.emptyRedis
        ++ [Redis.CmdSet "6f6c6c6568" (rev Scenario.hello)]))
  = Returned (inl Scenario.hello) (RedisGet.valueReader (mkBuffer []))
      (Redis.mkWorld None
         (<["6f6c6c6568" := rev Scenario.hello]>
            (Redis.kv Scenario.emptyRedis))
         None
         (Redis.sent Scenario.emptyRedis
          ++ [Redis.CmdSet "6f6c6c6568" (rev Scenario.hello)])).
Proof.
  exact (proj2
    (proj1
       (action_result_put_then_get bytes Samples.toyMarshal
          Samples.toyUnmarshal Scenario.keyByHash 8 Scenario.fourBytes
          EmptyString Scenario.helloDigest "6f6c6c6568" Scenario.emptyRedis
          eq_refl eq_refl eq_refl
          ltac:(intros j; unfold Scenario.fourBytes; lia))
       Scenario.hello (rev Scenario.hello) eq_refl eq_refl
       ltac:(simpl; lia))).
Defined.

(** The theorem on X5 at "hello" served in chunks of two bytes. *)
Lemma download_chunks_witness :
  ByteStream.byteStreamServer_Read (Wire.getBeside Scenario.keyByHash)
    Wire.sendTo 2 8 (ByteStream.mkReadRequest "blobs/6f6c6c6568/5" 0 0)
    (Samples.redisWithHello, [])
  = Some (None, (Samples.redisWithHello, [] ++ Wire.chunked 2 Scenario.hello)).
Proof.
  exact (proj1
    (proj1
       (download_sends_the_blob_in_chunks Scenario.keyByHash 2 8
          "blobs/6f6c6c6568/5" EmptyString Scenario.helloDigest "6f6c6c6568"
          Samples.redisWithHello []
          ltac:(vm_compute; reflexivity) eq_refl eq_refl eq_refl
          ltac:(lia))
       Scenario.hello ltac:(vm_compute; reflexivity) ltac:(simpl; lia))).
Defined.

(** The theorem on X6 at a remote service that answers with "he" and
    "llo", read with buffers of four bytes. *)
Lemma relay_download_witness :
  exec (ReadAll 8 Scenario.fourBytes)
    (RelayStream.mkBlobReader (RelayStream.mkReadClient [Samples.llo] EOF)
       Samples.he)
    (Samples.serving [Samples.he; Samples.llo])
  = Returned (Some (Samples.he ++ concat [Samples.llo], nilIfEOF EOF))
      (RelayStream.mkBlobReader (RelayStream.mkReadClient [] EOF) [])
      (Samples.serving [Samples.he; Samples.llo]).
Proof.
  exact (proj2
    (relay_download_reassembles_the_responses Samples.utilDigest
       Samples.instanceOf Samples.hashOf Samples.sizeOf Samples.helloInMain
       (Samples.serving [Samples.he; Samples.llo]) Samples.he [Samples.llo]
       EOF 8 Scenario.fourBytes eq_refl
       ltac:(intros j; unfold Scenario.fourBytes; lia)
       ltac:(simpl; lia))).
Defined.

(** The theorem on X7 at the empty blob: Get panics. *)
Lemma relayed_download_witness :
  fst (RelayStream.Get Samples.instanceOf Samples.hashOf Samples.sizeOf
         Samples.helloInMain (Samples.serving (Wire.chunked 2 [])))
  = RelayStream.Panic.
Proof.
  exact (proj2
    (relayed_download_returns_the_blob_unless_empty Samples.utilDigest
       Samples.instanceOf Samples.hashOf Samples.sizeOf Samples.helloInMain
       (Samples.serving (Wire.chunked 2 [])) 2 [] 8 Scenario.fourBytes
       eq_refl ltac:(lia)
       ltac:(intros j; unfold Scenario.fourBytes; lia)
       ltac:(simpl; lia))
    eq_refl).
Defined.

(** The theorem on X8 at instance "main", the five bytes "hello" as hash
    and size 5. *)
Lemma relay_resource_names_witness :
  parseResourceNameRead (RelayStream.readResourceName "main" Scenario.hello 5)
  = ("main", Some (mkDigest (hexEncodeToString Scenario.hello) 5)) /\
  parseResourceNameWrite
    (RelayStream.writeResourceName "main" "u-1" Scenario.hello 5)
  = ("main", Some (mkDigest (hexEncodeToString Scenario.hello) 5)).
Proof.
  exact (proj1
    (relay_resource_names_parse_back "main" "u-1" Scenario.hello 5
       ltac:(discriminate) ltac:(unfold int64Range; lia)
       ltac:(discriminate) eq_refl)
    eq_refl).
Defined.

(** The theorem on X9 at "hello" read in two pieces. *)
Lemma relay_upload_witness :
  exists first later,
    exec (RelayStream.Put Samples.instanceOf Samples.hashOf Samples.sizeOf
            4 8 "u-1" Samples.helloInMain 5)
      {| script := streamOf [Samples.he] Samples.llo; closed := 0 |}
      Samples.accepting
    = Returned (Some (RelayStream.closeError Samples.accepting))
        {| script := []; closed := 1 |}
        (RelayStream.mkUploads None
           (RelayStream.uploaded Samples.accepting ++ first :: later)
           None (RelayStream.closeError Samples.accepting)) /\
    ResourceName first
    = RelayStream.writeResourceName (Samples.instanceOf Samples.helloInMain)
        "u-1" (Samples.hashOf Samples.helloInMain)
        (Samples.sizeOf Samples.helloInMain) /\
    WriteOffset first = 0 /\
    Forall (fun q => ResourceName q = EmptyString) later /\
    offsetsAgree (Z.of_nat (length (Data first))) later /\
    Data first ++ dataOf later = concat [Samples.he] ++ Samples.llo /\
    map FinishWrite (first :: later)
    = repeat false (length [Samples.he]) ++ [true].
Proof.
  exact (proj1
    (relay_upload_sends_the_blob_in_requests Samples.utilDigest
       Samples.instanceOf Samples.hashOf Samples.sizeOf 4 8 "u-1"
       Samples.helloInMain 5 [Samples.he] Samples.llo Samples.accepting
       eq_refl eq_refl ltac:(simpl; lia) ltac:(simpl; lia))).
Defined.

(** The theorem on X10 at "hello" read in two pieces and an empty Redis
    server. *)
Lemma relayed_upload_witness :
  exists requests,
    exec (RelayStream.Put Samples.instanceOf Samples.hashOf Samples.sizeOf
            4 8 "u-1" Samples.helloInMain 5)
      {| script := streamOf [Samples.he] Samples.llo; closed := 0 |}
      Samples.accepting
    = Returned (Some (RelayStream.closeError Samples.accepting))
        {| script := []; closed := 1 |}
        (RelayStream.mkUploads None
           (RelayStream.uploaded Samples.accepting ++ requests)
           None (RelayStream.closeError Samples.accepting)) /\
    byteStreamServer_Write
      (fun i d _ => Redis.Put Scenario.keyByHash 8 Scenario.fourBytes i d)
      (mkWriteServer requests EOF) Scenario.emptyRedis
    = Returned None (mkWriteServer [] EOF)
        (Redis.mkWorld None
           (<["6f6c6c6568" := concat [Samples.he] ++ Samples.llo]>
              (Redis.kv Scenario.emptyRedis))
           None
           (Redis.sent Scenario.emptyRedis
            ++ [Redis.CmdSet "6f6c6c6568"
                  (concat [Samples.he] ++ Samples.llo)])).
Proof.
  exact (relayed_upload_reaches_the_store Samples.utilDigest
    Samples.instanceOf Samples.hashOf Samples.sizeOf 4 8 "u-1"
    Samples.helloInMain 5 [Samples.he] Samples.llo Samples.accepting
    Scenario.keyByHash 8 Scenario.fourBytes "6f6c6c6568" Scenario.emptyRedis
    eq_refl eq_refl ltac:(simpl; lia) ltac:(simpl; lia) eq_refl
    ltac:(vm_compute; discriminate)
    ltac:(unfold int64Range; cbn [Samples.sizeOf Samples.helloInMain
                                   Scenario.helloDigest snd SizeBytes]; lia)
    ltac:(discriminate) eq_refl eq_refl eq_refl
    ltac:(vm_compute; reflexivity)
    ltac:(intros j; unfold Scenario.fourBytes; lia) ltac:(simpl; lia)).
Defined.

(** The theorem on X13 at the reader for "hello" when the wrapped reader
    returns "he" and then four bytes more. *)
Lemma validating_reader_bound_witness :
  Z.of_nat
    (length
       (delivered
          (feed Scenario.countingReader
             [(Samples.he, None); (list_ascii_of_string "llo!", None)]
             0%nat).1.1))
  <= sizeLeft Scenario.countingReader /\
  Forall2
    (fun u res =>
       res = u \/
       exists format args,
         res = ([], Some (StatusError (errorCode Scenario.countingReader)
                            format args)))
    [(Samples.he, None); (list_ascii_of_string "llo!", None)]
    (feed Scenario.countingReader
       [(Samples.he, None); (list_ascii_of_string "llo!", None)]
       0%nat).1.1.
Proof.
  exact (validating_reader_never_exceeds_the_size nat Scenario.countingReader
           [(Samples.he, None); (list_ascii_of_string "llo!", None)] 0%nat
           ltac:(simpl; lia)).
Defined.

(** The theorem on X14 at a store that serves "hello" in two pieces for
    the digest of "hello". *)
Lemma validated_download_witness :
  exists mr,
    exec (ReadAll 8 Scenario.fourBytes)
      (Get Scenario.toyFormatFromLength
         (fun (_ : string) (_ : Digest) (w0 : World (list Digest)) =>
            ({| script := streamOf [Samples.he] Samples.llo; closed := 0 |},
             w0))
         Scenario.recordingDelete EmptyString Scenario.helloDigest
         Scenario.untouched).1
      Scenario.untouched
    = Returned (Some (concat [Samples.he] ++ Samples.llo, None)) mr
        Scenario.untouched.
Proof.
  exact (proj2
    (download_read_to_the_end_has_the_digest (list Digest)
       Scenario.toyFormatFromLength Scenario.recordingDelete EmptyString
       Scenario.helloDigest Scenario.toyHash
       (streamOf [Samples.he] Samples.llo) 8 Scenario.fourBytes
       Scenario.untouched ltac:(vm_compute; reflexivity) ltac:(simpl; lia))
    [Samples.he] Samples.llo eq_refl ltac:(simpl; lia)
    ltac:(simpl; lia) ltac:(vm_compute; reflexivity)).
Defined.

(** The theorem on X15 at "hello" read in two pieces into an empty Redis
    server behind the adapter. *)
Lemma validated_upload_witness :
  exists mr w',
    exec
      (Put Scenario.toyFormatFromLength
         (fun i d _ =>
            Wire.inStore (Redis.Put Scenario.keyByHash 8 Scenario.fourBytes
                            i d))
         EmptyString Scenario.helloDigest (SizeBytes Scenario.helloDigest))
      {| script := streamOf [Samples.he] Samples.llo; closed := 0 |}
      Samples.behindAdapter
    = Returned None mr w' /\
    Redis.kv (store w')
    = <["6f6c6c6568" := concat [Samples.he] ++ Samples.llo]>
        (Redis.kv (store Samples.behindAdapter)).
Proof.
  exact (proj2 (proj2
    (only_matching_blobs_reach_the_store Scenario.toyFormatFromLength
       Scenario.keyByHash 8 Scenario.fourBytes EmptyString
       Scenario.helloDigest Scenario.toyHash
       (streamOf [Samples.he] Samples.llo) Samples.behindAdapter
       ltac:(vm_compute; reflexivity) ltac:(simpl; lia)))
    [Samples.he] Samples.llo "6f6c6c6568" eq_refl ltac:(simpl; lia)
    ltac:(simpl; lia) ltac:(vm_compute; reflexivity) eq_refl eq_refl
    eq_refl).
Defined.

(** ** The Write handler in front of the integrity adapter and Redis *)

(** X16.  A ByteStream service whose store is the integrity adapter in
    front of Redis lets a blob into the store only if it has the size and
    the hash that the resource name of the upload states: whatever requests
    the client sends, when Write returns without error the store holds,
    under the key of the digest parsed from the first request, bytes of that
    size and hash, and when Write returns an error the store holds what it
    held before. *)
Theorem frontend_upload_stores_only_matching_blobs :
  forall (DFL : nat -> DigestFormat + error)
         (blobKeyer : string -> Digest -> string + error)
         (fuel : nat) (bufs : nat -> nat) (s : WriteServer)
         (w : World Redis.World),
    let outcome :=
      byteStreamServer_Write
        (Put DFL
           (fun i d _ => Wire.inStore (Redis.Put blobKeyer fuel bufs i d)))
        s w in
    (forall s' w',
       outcome = Returned None s' w' ->
       exists first rest instance digest df data key,
         incoming s = first :: rest /\
         parseResourceNameWrite (ResourceName first)
         = (instance, Some digest) /\
         validateDigest DFL digest = inl df /\
         Z.of_nat (length data) = SizeBytes digest /\
         df data = hexDecodeString (Hash digest) /\
         blobKeyer instance digest = inl key /\
         Redis.kv (store w') = <[key := data]> (Redis.kv (store w))) /\
    (forall err s' w',
       outcome = Returned (Some err) s' w' ->
       Redis.kv (store w') = Redis.kv (store w)) /\
    (forall first later instance digest df key,
       incoming s = first :: later -> recvError s = EOF ->
       parseResourceNameWrite (ResourceName first)
       = (instance, Some digest) ->
       validateDigest DFL digest = inl df ->
       offsetsAgree (Z.of_nat (length (Data first))) later ->
       Z.of_nat (length (Data first ++ dataOf later)) = SizeBytes digest ->
       df (Data first ++ dataOf later) = hexDecodeString (Hash digest) ->
       Redis.ctxErr (store w) = None -> Redis.down (store w) = None ->
       blobKeyer instance digest = inl key ->
       (forall j, (1 <= bufs j)%nat) ->
       (length (Data first ++ dataOf later) < fuel)%nat ->
       exists s' w',
         outcome = Returned None s' w' /\
         Redis.kv (store w')
         = <[key := Data first ++ dataOf later]> (Redis.kv (store w))).
Proof.
  intros DFL blobKeyer fuel bufs s w outcome.
  assert (Hrange : forall name instance digest,
            parseResourceNameWrite name = (instance, Some digest) ->
            SizeBytes digest < 2 ^ 63).
  { intros name instance digest Hparse.
    apply parseResourceNameWrite_spec in Hparse.
    destruct Hparse as (sz & _ & _ & Hr). unfold int64Range in Hr. lia. }
  split; [|split].
  - intros s' w'. unfold outcome, byteStreamServer_Write, Recv.
    destruct (incoming s) as [|first rest] eqn:Hin; [discriminate|].
    destruct (parseResourceNameWrite (ResourceName first))
      as [instance [digest|]] eqn:Hparse; [|discriminate].
    set (rc := {| stream := {| incoming := rest; recvError := recvError s |};
                  writeOffset := Z.of_nat (length (Data first));
                  data := Data first |}).
    destruct (validateDigest DFL digest) as [df|verr] eqn:Hv.
    + pose proof (@validated_put_outcome blobKeyer bufs instance digest
                    byteStreamWriteServerReader
                    (byteStreamWriteServerReader_ReadCloser _)
                    (fun _ _ _ => eq_refl) (fun _ _ => eq_refl)
                    DFL fuel rc w df Hv (Hrange _ _ _ Hparse)) as Hout.
      destruct (exec _ rc w) as [[e|] r' w1|msg];
        cbn [Wire.uploadOutcome] in Hout; try discriminate.
      intros E. injection E as _ <-.
      destruct Hout as (blob & key & Hlen & Hh & K & Hkv & _).
      unfold putReader in Hlen, Hh.
      cbn [sizeLeft partialChecksum expectedChecksum newHash family written
           app] in Hlen, Hh, Hkv.
      exists first, rest, instance, digest, df, blob, key. auto 10.
    + destruct (@refused_put_outcome blobKeyer bufs instance digest
                  byteStreamWriteServerReader
                  (byteStreamWriteServerReader_ReadCloser _)
                  (fun _ _ => eq_refl)
                  DFL fuel rc w verr (SizeBytes digest) Hv)
        as [rc1 ->].
      discriminate.
  - intros err s' w'. unfold outcome, byteStreamServer_Write, Recv.
    destruct (incoming s) as [|first rest] eqn:Hin; [congruence|].
    destruct (parseResourceNameWrite (ResourceName first))
      as [instance [digest|]] eqn:Hparse; [|congruence].
    set (rc := {| stream := {| incoming := rest; recvError := recvError s |};
                  writeOffset := Z.of_nat (length (Data first));
                  data := Data first |}).
    destruct (validateDigest DFL digest) as [df|verr] eqn:Hv.
    + pose proof (@validated_put_outcome blobKeyer bufs instance digest
                    byteStreamWriteServerReader
                    (byteStreamWriteServerReader_ReadCloser _)
                    (fun _ _ _ => eq_refl) (fun _ _ => eq_refl)
                    DFL fuel rc w df Hv (Hrange _ _ _ Hparse)) as Hout.
      destruct (exec _ rc w) as [[e|] r' w1|msg];
        cbn [Wire.uploadOutcome] in Hout; try discriminate.
      intros E. injection E as _ _ <-. tauto.
    + destruct (@refused_put_outcome blobKeyer bufs instance digest
                  byteStreamWriteServerReader
                  (byteStreamWriteServerReader_ReadCloser _)
                  (fun _ _ => eq_refl)
                  DFL fuel rc w verr (SizeBytes digest) Hv)
        as [rc1 ->].
      intros E. injection E as _ _ <-. reflexivity.
  - intros first later instance digest df key Hin HEOF Hparse Hv Hag
      Hlen Hh Hctx Hd K Hb Hf.
    unfold outcome, byteStreamServer_Write, Recv.
    rewrite Hin, Hparse.
    pose proof (Hrange _ _ _ Hparse) as Hlt.
    pose proof Hlen as Hlen'.
    rewrite length_app, Nat2Z.inj_add in Hlen'.
    pose proof (readAllFrom_agree fuel (World Redis.World) w bufs later []
                  (recvError s) (Z.of_nat (length (Data first)))
                  (Data first) 0%nat [] Hb Hag I ltac:(lia) ltac:(lia) Hf)
      as Hplain.
    rewrite app_nil_r, HEOF in Hplain.
    cbn [stopError tl nilIfEOF isEOF app] in Hplain. rewrite HEOF.
    unfold Put. rewrite Hv, Z.eqb_refl. cbn [negb].
    unfold Redis.Put. cbn [Wire.inStore through exec]. rewrite Hctx.
    unfold ReadAll.
    destruct (@validated_run blobKeyer bufs instance digest
                byteStreamWriteServerReader
                (byteStreamWriteServerReader_ReadCloser _)
                (fun _ _ _ => eq_refl) (fun _ _ => eq_refl)
                fuel 0%nat [] _ _ (putReader digest df) w
                (Data first ++ dataOf later) key
                ltac:(unfold putReader; cbn [sizeLeft]; lia)
                Hplain Hlen Hh K Hd) as [rc2 X].
    match goal with
    | |- context [match ?e with Returned _ _ _ => _ | Exited _ => _ end] =>
      change e with
        (exec
           (through (putReader digest df)
              (Wire.inStore
                 (bind (readAllFrom fuel bufs 0 [])
                    (Wire.afterReadAll blobKeyer instance digest))))
           {| stream := {| incoming := later; recvError := EOF |};
              writeOffset := Z.of_nat (length (Data first));
              data := Data first |} w)
    end.
    rewrite X. eexists; eexists. split; reflexivity.
Qed.

(** An upload of "hello" under its digest gets into the store; one of
    "help!" under the same digest is refused and leaves the store empty. *)
Example frontend_upload_of_hello :
  byteStreamServer_Write
    (Put Scenario.toyFormatFromLength
       (fun i d _ =>
          Wire.inStore (Redis.Put Scenario.keyByHash 8 Scenario.fourBytes
                          i d)))
    (mkWriteServer [Samples.helloFirst; Samples.helloSecond] EOF)
    Samples.behindAdapter
  = Returned None (mkWriteServer [] EOF)
      (mkWorld
         (Redis.mkWorld None (<["6f6c6c6568" := Scenario.hello]> ∅) None
            [Redis.CmdSet "6f6c6c6568" Scenario.hello])
         []).
Proof. vm_compute. reflexivity. Qed.

Example frontend_upload_of_other_bytes :
  byteStreamServer_Write
    (Put Scenario.toyFormatFromLength
       (fun i d _ =>
          Wire.inStore (Redis.Put Scenario.keyByHash 8 Scenario.fourBytes
                          i d)))
    (mkWriteServer [Samples.helloFirst; Samples.helpSecond] EOF)
    Samples.behindAdapter
  = Returned
      (Some (StatusError InvalidArgument
               "Checksum of blob is %s, while %s was expected"
               [ArgStr "21706c6568"; ArgStr "6f6c6c6568"]))
      (mkWriteServer [] EOF) Samples.behindAdapter.
Proof. vm_compute. reflexivity. Qed.

(** The requests of a relayed upload of "hello" read in two pieces, and
    the texts %d prints. *)
Example relay_upload_of_hello :
  exec (RelayStream.Put Samples.instanceOf Samples.hashOf Samples.sizeOf
          4 8 "u-1" Samples.helloInMain 5)
    {| script := streamOf [Samples.he] Samples.llo; closed := 0 |}
    Samples.accepting
  = Returned (Some None) {| script := []; closed := 1 |}
      (RelayStream.mkUploads None
         [mkWriteRequest "main/uploads/u-1/blobs/6f6c6c6568/5" 0 false
            Samples.he;
          mkWriteRequest EmptyString 2 true Samples.llo]
         None None).
Proof. vm_compute. reflexivity. Qed.

Example format_int_samples :
  FormatInt 0 = "0" /\ FormatInt 1234567890 = "1234567890" /\
  FormatInt (-42) = "-42" /\
  FormatInt (2 ^ 63 - 1) = "9223372036854775807" /\
  FormatInt (- 2 ^ 63) = "-9223372036854775808".
Proof. repeat split; vm_compute; reflexivity. Qed.

(** ** Integrity adapter: corruption on Get and on Put *)

Section ValidatingAnyProgram.

Context {St RC : Type} `{ReadCloser (World St) RC}.

(** A program run through a validating reader behaves as the program run
    on the reader that Get returns: the same result and world, and what is
    left of the reader underneath. *)
Lemma through_validating {A} (p : Prog (World St) A) :
  forall (r : checksumValidatingReader (World St)) (rc0 : RC) (w : World St),
  match exec p (validating rc0 r) w with
  | Returned a mr w' =>
    exists rc1 r1,
      mr = validating rc1 r1 /\ exec (through r p) rc0 w = Returned a rc1 w'
  | Exited msg => exec (through r p) rc0 w = Exited msg
  end.
Proof.
  induction p as [a|len k IH|k IH|k IH|w0 k IH|msg]; intros r rc0 w.
  - cbn. eauto.
  - cbn [exec through Read merkleReader_ReadCloser].
    destruct (Read rc0 len w) as [[under rc1] w1].
    destruct (checksumValidatingReader_Read r under w1) as [[res r1] w2].
    cbn [exec]. apply IH.
  - cbn [exec through Close merkleReader_ReadCloser].
    destruct (Close rc0 w) as [[e rc1] w1]. apply IH.
  - cbn [exec through]. apply IH.
  - cbn [exec through]. apply IH.
  - cbn. reflexivity.
Qed.

(** A stream whose size or hash is not what the reader expects, read to
    the end: the read that shows it fails with the reader's code, after the
    invalidator ran once. *)
Lemma readAll_validating_mismatch bufs chunks :
  forall fuel i acc (r : checksumValidatingReader (World St)) c w last,
  0 <= sizeLeft r < 2 ^ 63 ->
  Z.of_nat (length (concat chunks ++ last)) <> sizeLeft r \/
  family (partialChecksum r)
    (written (partialChecksum r) ++ concat chunks ++ last)
  <> expectedChecksum r ->
  (length chunks < fuel)%nat ->
  exists data format args mr,
    exec (readAllFrom fuel bufs i acc)
      (validating {| script := streamOf chunks last; closed := c |} r) w
    = Returned
        (Some (data, Some (StatusError (errorCode r) format args))) mr
        (invalidator r w).
Proof.
  induction chunks as [|ch rest IH]; intros fuel i acc r c w last R Hm Hf;
    (destruct fuel as [|f]; [cbn [length] in Hf; lia|]).
  - cbn [streamOf map app concat] in *.
    cbn [readAllFrom exec Read merkleReader_ReadCloser
         scriptReader_ReadCloser script closed].
    destruct (Z_lt_le_dec (sizeLeft r) (Z.of_nat (length last))) as [Hl|Hl].
    { rewrite Read_longer by assumption. cbn [exec nilIfEOF isEOF].
      eauto 6. }
    destruct (Z.eq_dec (Z.of_nat (length last)) (sizeLeft r)) as [He|Hne].
    + rewrite Read_end by assumption.
      rewrite bool_decide_eq_false_2 by (destruct Hm; [lia|assumption]).
      cbn [exec nilIfEOF isEOF]. eauto 6.
    + rewrite Read_shorter by lia. cbn [exec nilIfEOF isEOF]. eauto 6.
  - unfold streamOf in *. cbn [map app concat] in *.
    rewrite <- !app_assoc in Hm.
    rewrite !length_app, !Nat2Z.inj_add in Hm.
    cbn [readAllFrom exec Read merkleReader_ReadCloser
         scriptReader_ReadCloser script closed].
    destruct (Z_lt_le_dec (sizeLeft r) (Z.of_nat (length ch))) as [Hl|Hl].
    { rewrite Read_longer by assumption. cbn [exec nilIfEOF isEOF].
      eauto 6. }
    rewrite Read_middle by (try assumption; discriminate).
    destruct (IH f (S i) (acc ++ ch) (advanced r ch) c w last)
      as (data & fmt & args & mr & E).
    + unfold advanced. cbn [sizeLeft]. lia.
    + unfold advanced.
      cbn [sizeLeft partialChecksum expectedChecksum hashWrite family
           written].
      rewrite length_app, Nat2Z.inj_add, <- !app_assoc.
      destruct Hm as [Hm|Hm]; [left; lia|right; exact Hm].
    + cbn [length] in Hf. lia.
    + rewrite E. unfold advanced. cbn [errorCode invalidator]. eauto 6.
Qed.

End ValidatingAnyProgram.

Section RefusedUpload.

Variable blobKeyer : string -> Digest -> string + error.
Variable bufs : nat -> nat.
Variables (instance : string) (digest : Digest).

(** The same stream uploaded into the Redis store through a validating
    reader: Put of the store returns the reader's error after closing the
    reader, and sends nothing. *)
Lemma upload_mismatch chunks :
  forall fuel i acc (r : checksumValidatingReader (World Redis.World)) c w
         last,
  0 <= sizeLeft r < 2 ^ 63 ->
  Z.of_nat (length (concat chunks ++ last)) <> sizeLeft r \/
  family (partialChecksum r)
    (written (partialChecksum r) ++ concat chunks ++ last)
  <> expectedChecksum r ->
  (length chunks < fuel)%nat ->
  exists format args rest,
    exec
      (through r
         (Wire.inStore
            (bind (readAllFrom fuel bufs i acc)
               (Wire.afterReadAll blobKeyer instance digest))))
      {| script := streamOf chunks last; closed := c |} w
    = Returned (Some (StatusError (errorCode r) format args))
        {| script := rest; closed := S c |} (invalidator r w).
Proof.
  induction chunks as [|ch rest IH]; intros fuel i acc r c w last R Hm Hf;
    (destruct fuel as [|f]; [cbn [length] in Hf; lia|]).
  - cbn [streamOf map app concat] in *.
    cbn [readAllFrom bind Wire.inStore through exec Read
         scriptReader_ReadCloser script closed].
    destruct (Z_lt_le_dec (sizeLeft r) (Z.of_nat (length last))) as [Hl|Hl].
    { rewrite Read_longer by assumption.
      cbn [exec bind Wire.inStore through nilIfEOF isEOF Wire.afterReadAll
           Close scriptReader_ReadCloser script closed].
      eauto. }
    destruct (Z.eq_dec (Z.of_nat (length last)) (sizeLeft r)) as [He|Hne].
    + rewrite Read_end by assumption.
      rewrite bool_decide_eq_false_2 by (destruct Hm; [lia|assumption]).
      cbn [exec bind Wire.inStore through nilIfEOF isEOF Wire.afterReadAll
           Close scriptReader_ReadCloser script closed].
      eauto.
    + rewrite Read_shorter by lia.
      cbn [exec bind Wire.inStore through nilIfEOF isEOF Wire.afterReadAll
           Close scriptReader_ReadCloser script closed].
      eauto.
  - unfold streamOf in *. cbn [map app concat] in *.
    rewrite <- !app_assoc in Hm.
    rewrite !length_app, !Nat2Z.inj_add in Hm.
    cbn [readAllFrom bind Wire.inStore through exec Read
         scriptReader_ReadCloser script closed].
    destruct (Z_lt_le_dec (sizeLeft r) (Z.of_nat (length ch))) as [Hl|Hl].
    { rewrite Read_longer by assumption.
      cbn [exec bind Wire.inStore through nilIfEOF isEOF Wire.afterReadAll
           Close scriptReader_ReadCloser script closed].
      eauto. }
    rewrite Read_middle by (try assumption; discriminate).
    cbn [exec].
    destruct (IH f (S i) (acc ++ ch) (advanced r ch) c w last)
      as (fmt & args & left & E).
    + unfold advanced. cbn [sizeLeft]. lia.
    + unfold advanced.
      cbn [sizeLeft partialChecksum expectedChecksum hashWrite family
           written].
      rewrite length_app, Nat2Z.inj_add, <- !app_assoc.
      destruct Hm as [Hm|Hm]; [left; lia|right; exact Hm].
    + cbn [length] in Hf. lia.
    + rewrite E. unfold advanced. cbn [errorCode invalidator]. eauto.
Qed.

End RefusedUpload.

(** C2: for a valid digest, Get wraps the store's reader in a validating
    reader which, on any corrupt result, fails with code Internal after
    calling Delete on the wrapped store and logging how that went; Put runs
    the wrapped store's Put on a validating reader which, on a corrupt
    result, fails with code InvalidArgument and leaves the store as it is.
    For whole streams: a download whose bytes have not the size or not the
    hash of the digest, read to the end, ends in an error of code Internal
    with Delete called once and logged, and one whose bytes have both is
    handed on untouched; an upload into the Redis store of bytes that have
    not the size or not the hash of the digest returns an error of code
    InvalidArgument, closes the reader once and leaves store and log as
    they were, and one of bytes that have both is stored. *)
Theorem corruption_deletes_on_get_and_refuses_on_put :
  forall (St RC : Type) (rc : ReadCloser (World St) RC)
         (DFL : nat -> DigestFormat + error)
         (ba_Get : string -> Digest -> World St -> RC * World St)
         (ba_Put : string -> Digest -> Z -> Prog (World St) (option error))
         (ba_Delete : string -> Digest -> World St -> option error * World St)
         (instance : string) (digest : Digest) (df : DigestFormat),
    validateDigest DFL digest = inl df ->
    SizeBytes digest < 2 ^ 63 ->
    (forall w,
       Get DFL ba_Get ba_Delete instance digest w
       = (validating (ba_Get instance digest w).1
            (getReader ba_Delete instance digest df),
          (ba_Get instance digest w).2)) /\
    (forall (rc0 : RC) r len w,
       Read (validating rc0 r) len w
       = (let '(under, rc1, w1) := Read rc0 len w in
          let '(res, r1, w2) := checksumValidatingReader_Read r under w1 in
          (res, validating rc1 r1, w2))) /\
    (forall us ress r w w' under,
       feed (getReader ba_Delete instance digest df) us w = (ress, r, w') ->
       corrupt r under ->
       exists format args r1,
         checksumValidatingReader_Read r under w'
         = (([], Some (StatusError Internal format args)), r1,
            deleteCorrupted ba_Delete instance digest w')) /\
    (forall w,
       deleteCorrupted ba_Delete instance digest w
       = logPrintf
           (mkLog
              (match (ba_Delete instance digest w).1 with
               | None => "Successfully deleted corrupted blob %s"
               | Some _ => "Failed to delete corrupted blob %s: %s"
               end)
              digest (ba_Delete instance digest w).1)
           (ba_Delete instance digest w).2) /\
    Put DFL ba_Put instance digest (SizeBytes digest)
    = through (putReader digest df)
        (ba_Put instance digest (SizeBytes digest)) /\
    (forall us ress r (w w' : World St) under,
       feed (putReader digest df) us w = (ress, r, w') ->
       corrupt r under ->
       exists format args r1,
         checksumValidatingReader_Read r under w'
         = (([], Some (StatusError InvalidArgument format args)), r1, w')) /\
    (forall (rc0 : RC) (w : World St),
       match
         exec (ba_Put instance digest (SizeBytes digest))
           (validating rc0 (putReader digest df)) w
       with
       | Returned err mr w' =>
         exists rc1 r1,
           mr = validating rc1 r1 /\
           exec (Put DFL ba_Put instance digest (SizeBytes digest)) rc0 w
           = Returned err rc1 w'
       | Exited msg =>
         exec (Put DFL ba_Put instance digest (SizeBytes digest)) rc0 w
         = Exited msg
       end) /\
    (forall chunks last fuel bufs (w : World St),
       (length chunks < fuel)%nat ->
       Z.of_nat (length (concat chunks ++ last)) <> SizeBytes digest \/
       df (concat chunks ++ last) <> hexDecodeString (Hash digest) ->
       exists data format args mr,
         exec (ReadAll fuel bufs)
           (Get DFL
              (fun (_ : string) (_ : Digest) (w0 : World St) =>
                 ({| script := streamOf chunks last; closed := 0 |}, w0))
              ba_Delete instance digest w).1
           w
         = Returned (Some (data, Some (StatusError Internal format args)))
             mr (deleteCorrupted ba_Delete instance digest w)) /\
    (forall chunks last fuel bufs (w : World St),
       (length chunks < fuel)%nat ->
       Z.of_nat (length (concat chunks ++ last)) = SizeBytes digest ->
       df (concat chunks ++ last) = hexDecodeString (Hash digest) ->
       exists mr,
         exec (ReadAll fuel bufs)
           (Get DFL
              (fun (_ : string) (_ : Digest) (w0 : World St) =>
                 ({| script := streamOf chunks last; closed := 0 |}, w0))
              ba_Delete instance digest w).1
           w
         = Returned (Some (concat chunks ++ last, None)) mr w) /\
    (forall blobKeyer chunks last fuel bufs (w : World Redis.World),
       Redis.ctxErr (store w) = None ->
       (length chunks < fuel)%nat ->
       Z.of_nat (length (concat chunks ++ last)) <> SizeBytes digest \/
       df (concat chunks ++ last) <> hexDecodeString (Hash digest) ->
       exists format args rest,
         exec
           (Put DFL
              (fun i d _ => Wire.inStore (Redis.Put blobKeyer fuel bufs i d))
              instance digest (SizeBytes digest))
           {| script := streamOf chunks last; closed := 0 |} w
         = Returned (Some (StatusError InvalidArgument format args))
             {| script := rest; closed := 1 |} w) /\
    (forall blobKeyer chunks last fuel bufs key (w : World Redis.World),
       Redis.ctxErr (store w) = None -> Redis.down (store w) = None ->
       blobKeyer instance digest = inl key ->
       (length chunks < fuel)%nat ->
       Z.of_nat (length (concat chunks ++ last)) = SizeBytes digest ->
       df (concat chunks ++ last) = hexDecodeString (Hash digest) ->
       exec
         (Put DFL
            (fun i d _ => Wire.inStore (Redis.Put blobKeyer fuel bufs i d))
            instance digest (SizeBytes digest))
         {| script := streamOf chunks last; closed := 0 |} w
       = Returned None {| script := []; closed := 1 |}
           (mkWorld
              (Redis.mkWorld None
                 (<[key := concat chunks ++ last]> (Redis.kv (store w)))
                 None
                 (Redis.sent (store w)
                  ++ [Redis.CmdSet key (concat chunks ++ last)]))
              (logged w))).
Proof.
  intros St RC rc DFL ba_Get ba_Put ba_Delete instance digest df Hv Hlt.
  assert (Hsize : 0 <= SizeBytes digest).
  { assert (X : exists df, validateDigest DFL digest = inl df) by eauto.
    apply validateDigest_accepts in X. tauto. }
  assert (HPut : forall S0 (p : string -> Digest -> Z ->
                                Prog (World S0) (option error)),
            Put DFL p instance digest (SizeBytes digest)
            = through (putReader digest df)
                (p instance digest (SizeBytes digest))).
  { intros S0 p. unfold Put. rewrite Hv. rewrite Z.eqb_refl. reflexivity. }
  assert (HGet : forall chunks last (w : World St),
            (Get DFL
               (fun (_ : string) (_ : Digest) (w0 : World St) =>
                  ({| script := streamOf chunks last; closed := 0 |}, w0))
               ba_Delete instance digest w).1
            = validating {| script := streamOf chunks last; closed := 0 |}
                (getReader ba_Delete instance digest df)).
  { intros chunks last w. unfold Get. now rewrite Hv. }
  split; [|split; [|split; [|split; [|split; [|split; [|split; [|split;
    [|split; [|split]]]]]]]]].
  - intros w. unfold Get. rewrite Hv.
    destruct (ba_Get instance digest w); reflexivity.
  - reflexivity.
  - intros us ress r w w' under F Hc.
    assert (R : 0 <= sizeLeft (getReader ba_Delete instance digest df)
                < 2 ^ 63) by (unfold getReader; cbn [sizeLeft]; lia).
    destruct (feed_fields us _ ress r w w' R F) as (_ & Hi & Hcode & Hs).
    unfold getReader in Hi, Hcode, Hs.
    cbn [sizeLeft invalidator errorCode] in Hi, Hcode, Hs.
    destruct (Read_corrupt r under w' ltac:(lia) Hc) as (fmt & args & r1 & E).
    exists fmt, args, r1. rewrite E, Hi, Hcode. reflexivity.
  - intros w. unfold deleteCorrupted.
    destruct (ba_Delete instance digest w) as [[e|] w1]; reflexivity.
  - apply HPut.
  - intros us ress r w w' under F Hc.
    assert (R : 0 <= sizeLeft (putReader (S := St) digest df) < 2 ^ 63)
      by (unfold putReader; cbn [sizeLeft]; lia).
    destruct (feed_fields us _ ress r w w' R F) as (_ & Hi & Hcode & Hs).
    unfold putReader in Hi, Hcode, Hs.
    cbn [sizeLeft invalidator errorCode] in Hi, Hcode, Hs.
    destruct (Read_corrupt r under w' ltac:(lia) Hc) as (fmt & args & r1 & E).
    exists fmt, args, r1. rewrite E, Hi, Hcode. reflexivity.
  - intros rc0 w. rewrite HPut. apply through_validating.
  - intros chunks last fuel bufs w Hf Hm. rewrite HGet. unfold ReadAll.
    apply (readAll_validating_mismatch bufs chunks fuel 0 []
             (getReader ba_Delete instance digest df) 0 w last);
      [unfold getReader; cbn [sizeLeft]; lia|exact Hm|exact Hf].
  - intros chunks last fuel bufs w Hf Hlen Hh. rewrite HGet. unfold ReadAll.
    eexists.
    apply (readAll_validating_stream bufs chunks fuel 0 []
             (getReader ba_Delete instance digest df) 0 w last);
      [unfold getReader; cbn [sizeLeft]; lia|exact Hlen|exact Hh|exact Hf].
  - intros blobKeyer chunks last fuel bufs w Hctx Hf Hm.
    rewrite HPut. unfold Redis.Put. cbn [Wire.inStore through exec].
    rewrite Hctx. unfold ReadAll.
    apply (upload_mismatch blobKeyer bufs instance digest chunks fuel 0 []
             (putReader digest df) 0 w last);
      [unfold putReader; cbn [sizeLeft]; lia|exact Hm|exact Hf].
  - intros blobKeyer chunks last fuel bufs key w Hctx Hd K Hf Hlen Hh.
    rewrite HPut. unfold Redis.Put. cbn [Wire.inStore through exec].
    rewrite Hctx. unfold ReadAll.
    rewrite <- Hctx at 2.
    apply (upload_stream blobKeyer bufs instance digest chunks fuel 0 []
             (putReader digest df) 0 w last key);
      try assumption; unfold putReader; cbn [sizeLeft]; lia.
Qed.

(** The theorem on C2 at the digest of "hello" when "hello world" comes
    instead: the reader Get builds fails with Internal, the store has been
    asked to delete the digest and the log says so; Put into an empty Redis
    server fails with InvalidArgument, and server and log stay empty. *)
Lemma corruption_witness :
  (exists format args r1,
     checksumValidatingReader_Read
       (getReader Scenario.recordingDelete EmptyString Scenario.helloDigest
          Scenario.toyHash)
       (Scenario.helloWorld, None) Scenario.untouched
     = (([], Some (StatusError Internal format args)), r1,
        mkWorld [Scenario.helloDigest]
          [mkLog "Successfully deleted corrupted blob %s"
             Scenario.helloDigest None])) /\
  (exists format args rest,
     exec
       (Put Scenario.toyFormatFromLength
          (fun i d _ =>
             Wire.inStore
               (Redis.Put Scenario.keyByHash 8 Scenario.fourBytes i d))
          EmptyString Scenario.helloDigest (SizeBytes Scenario.helloDigest))
       {| script := streamOf [] Scenario.helloWorld; closed := 0 |}
       Samples.behindAdapter
     = Returned (Some (StatusError InvalidArgument format args))
         {| script := rest; closed := 1 |} Samples.behindAdapter).
Proof.
  split.
  - refine (proj1 (proj2 (proj2
      (corruption_deletes_on_get_and_refuses_on_put (list Digest)
         scriptReader _ Scenario.toyFormatFromLength Scenario.corruptGet
         Scenario.readAllPut Scenario.recordingDelete EmptyString
         Scenario.helloDigest Scenario.toyHash _ _)))
      [] [] _ Scenario.untouched Scenario.untouched
      (Scenario.helloWorld, None) eq_refl _).
    + vm_compute. reflexivity.
    + simpl. lia.
    + left. simpl. lia.
  - refine (proj1 (proj2 (proj2 (proj2 (proj2 (proj2 (proj2 (proj2 (proj2
      (proj2
      (corruption_deletes_on_get_and_refuses_on_put (list Digest)
         scriptReader _ Scenario.toyFormatFromLength Scenario.corruptGet
         Scenario.readAllPut Scenario.recordingDelete EmptyString
         Scenario.helloDigest Scenario.toyHash _ _))))))))))
      Scenario.keyByHash [] Scenario.helloWorld 8%nat Scenario.fourBytes
      Samples.behindAdapter eq_refl _ _).
    + vm_compute. reflexivity.
    + simpl. lia.
    + simpl. lia.
    + left. simpl. lia.
Defined.

(** ** Sharding adapter: a key that is not ASCII *)

